(** * Inline completions model: selection, multi-cursor edits, accept protocol

    A shallow embedding of
    [src/vs/editor/contrib/inlineCompletions/browser/inlineCompletionsModel.ts]
    (class [InlineCompletionsModel]).

    - JavaScript strings are sequences of UTF-16 code units ([list N]).
    - JavaScript numbers that index strings and columns are integers ([Z]).
    - Objects compared by reference ([editor.getModel() !== this.textModel])
      carry an object reference number.
    - Calls into collaborators (editor, command service, provider, source)
      are recorded, in program order, in an event log; the methods
      themselves live in a small state/exception monad.
    - The model runs on one logical thread.  An awaited call is a call whose
      settling is logged where the method resumes.  The one call left
      unawaited ([this.accept(editor)] before [return] in [_acceptNext])
      runs up to its own [await] ([acceptUnawaited]); what is left of it
      runs after the method has returned ([acceptPending]).
    - A derived value is computed where a method reads it after something
      it depends on has changed; [trigger()] on an active model changes
      nothing and reads the value the derived fetch holds.
    - The worlds are those of a constructed model; the one evaluation the
      constructor makes before the cursor position is assigned is
      [constructor_fetchInlineCompletions]. *)

From Stdlib Require Import ZArith NArith Ascii String.
From stdpp Require Import base tactics option list numbers.

Local Open Scope Z_scope.

(* ===================================================================== *)
(** ** JavaScript strings *)
(* ===================================================================== *)

(** A string value: its UTF-16 code units. *)
Definition jsstring : Type := list N.

Module Js.

(** A string literal of the model, from an ASCII literal. *)
Definition str (s : String.string) : jsstring :=
  List.map N_of_ascii (list_ascii_of_string s).

(** [s.length] *)
Definition length (s : jsstring) : Z := Z.of_nat (List.length s).

(** The clamping [String.prototype.substring] applies to each argument:
    below 0 becomes 0, above the length becomes the length. *)
Definition clamp (len i : Z) : Z := Z.min (Z.max i 0) len.

(** [s.substring(a, b)]: both arguments clamped, swapped when [a > b]. *)
Definition substring (s : jsstring) (a b : Z) : jsstring :=
  let len := length s in
  let a' := clamp len a in
  let b' := clamp len b in
  let from := Z.min a' b' in
  let to := Z.max a' b' in
  take (Z.to_nat (to - from)) (drop (Z.to_nat from) s).

(** [s.substring(a)]: the end defaults to the length. *)
Definition substring_from (s : jsstring) (a : Z) : jsstring :=
  substring s a (length s).

(** [a % b] on integers: the remainder takes the sign of the dividend. *)
Definition rem (a b : Z) : Z := Z.rem a b.

End Js.

(* ===================================================================== *)
(** ** Editor core values: positions, ranges, selections, text *)
(* ===================================================================== *)

(** Modelled from the spec: the editor core classes [Position], [Range] and
    [Selection] (vs/editor/common/core) are imported by the model but are not
    among the sources.  A position is a (line, column) pair, a range a pair of
    positions, a cursor a selection whose active end is its position. *)
Record Position := mkPosition { lineNumber : Z; column : Z }.

Record Range := mkRange {
  startLineNumber : Z; startColumn : Z; endLineNumber : Z; endColumn : Z }.

Record Selection := mkSelection {
  selectionStart : Position; selectionPosition : Position }.

#[global] Instance Position_eq_dec : EqDecision Position.
Proof. solve_decision. Defined.
#[global] Instance Range_eq_dec : EqDecision Range.
Proof. solve_decision. Defined.
#[global] Instance Selection_eq_dec : EqDecision Selection.
Proof. solve_decision. Defined.

Module Pos.
(** [pos.delta(deltaLineNumber, deltaColumn)] *)
Definition delta (p : Position) (dl dc : Z) : Position :=
  mkPosition (lineNumber p + dl) (column p + dc).

(** [pos.isBefore(other)] *)
Definition isBefore (a b : Position) : bool :=
  (lineNumber a <? lineNumber b)
  || ((lineNumber a =? lineNumber b) && (column a <? column b)).
End Pos.

Module Rng.
(** [Range.fromPositions(start, end)]; the range constructor orders its
    two ends. *)
Definition fromPositions (s e : Position) : Range :=
  if Pos.isBefore e s
  then mkRange (lineNumber e) (column e) (lineNumber s) (column s)
  else mkRange (lineNumber s) (column s) (lineNumber e) (column e).

Definition getStartPosition (r : Range) : Position :=
  mkPosition (startLineNumber r) (startColumn r).

Definition getEndPosition (r : Range) : Position :=
  mkPosition (endLineNumber r) (endColumn r).

(** Number of columns a single-line range covers. *)
Definition width (r : Range) : Z := endColumn r - startColumn r.

(** [range.isEmpty()] *)
Definition isEmpty (r : Range) : bool :=
  (startLineNumber r =? endLineNumber r) && (startColumn r =? endColumn r).
End Rng.

Module Sel.
(** [selection.getPosition()] *)
Definition getPosition (s : Selection) : Position := selectionPosition s.

(** [Selection.fromPositions(p)]: an empty selection at [p]. *)
Definition fromPosition (p : Position) : Selection := mkSelection p p.
End Sel.

(** The text model as the completion model reads it: an object reference
    (for [!==]) and the per-line text.  [getValueInRange] is the text the
    model holds in a range (with LF line ends). *)
Record ITextModel := mkTextModel {
  modelRef : nat;
  getLineContent : Z -> jsstring;
  getValueInRange : Range -> jsstring;
}.

(** [SingleTextEdit]: replace [range] by [text]. *)
Record SingleTextEdit := mkSingleTextEdit {
  editRange : Range; editText : jsstring }.

#[global] Instance SingleTextEdit_eq_dec : EqDecision SingleTextEdit.
Proof. solve_decision. Defined.

(** Modelled from the spec: [commonPrefixLength] of vs/base/common/strings is
    not among the sources; it is the length of the longest common prefix of
    two strings. *)
Fixpoint commonPrefixLength (a b : jsstring) : Z :=
  match a, b with
  | x :: a', y :: b' => if (x =? y)%N then 1 + commonPrefixLength a' b' else 0
  | _, _ => 0
  end.

(** The longest common prefix, stated on its own: the first [n] code units
    of both strings agree, and the next ones (if both exist) differ. *)
Definition is_longest_common_prefix (n : Z) (a b : jsstring) : Prop :=
  0 <= n <= Z.min (Js.length a) (Js.length b)
  /\ take (Z.to_nat n) a = take (Z.to_nat n) b
  /\ forall x y, a !! Z.to_nat n = Some x -> b !! Z.to_nat n = Some y -> x <> y.

(** A text model over a list of lines (line numbers and columns start
    at 1), used for the concrete scenarios. *)
Module Lines.
Definition line (ls : list jsstring) (n : Z) : jsstring :=
  if n <? 1 then [] else default [] (ls !! Z.to_nat (n - 1)).

Definition LF : N := 10%N.

Definition valueInRange (ls : list jsstring) (r : Range) : jsstring :=
  if startLineNumber r =? endLineNumber r
  then Js.substring (line ls (startLineNumber r))
         (startColumn r - 1) (endColumn r - 1)
  else
    Js.substring_from (line ls (startLineNumber r)) (startColumn r - 1)
    ++ LF :: concat (List.map (fun l => l ++ [LF])
                (take (Z.to_nat (endLineNumber r - startLineNumber r - 1))
                   (drop (Z.to_nat (startLineNumber r)) ls)))
    ++ Js.substring (line ls (endLineNumber r)) 0 (endColumn r - 1).

Definition textModel (ref : nat) (ls : list jsstring) : ITextModel :=
  mkTextModel ref (line ls) (valueInRange ls).
End Lines.

(* ===================================================================== *)
(** ** Exceptions and results *)
(* ===================================================================== *)

(** The two ways the methods can fail: the explicit [BugIndicatingError],
    and the [TypeError] JavaScript raises on a property read of
    [undefined] (first element of an empty array). *)
Inductive Exn := BugIndicatingError | TypeError.

Inductive Result (A : Type) :=
| Returns (a : A)
| Throws (e : Exn).
Arguments Returns {A} a.
Arguments Throws {A} e.

#[global] Instance Exn_eq_dec : EqDecision Exn.
Proof. solve_decision. Defined.

(* ===================================================================== *)
(** ** [_getEdits]: the edit set for all cursors *)
(* ===================================================================== *)

Section GetEdits.

(** The ranges the edits occupy once applied.  In the source these are
    three calls into utils.ts (not among the sources):
    [Permutation.createSortPermutation], [getNewRanges] on the sorted
    edits, and the inverse permutation. *)
Variable newRangesOf : list SingleTextEdit -> list Range.

(** [this.textModel], which the secondary cursors are read from. *)
Variable this_textModel : ITextModel.

Definition replacedTextAfterPrimaryCursor
    (textModel : ITextModel) (primaryPosition : Position)
    (completion : SingleTextEdit) : jsstring :=
  Js.substring (getLineContent textModel (lineNumber primaryPosition))
    (column primaryPosition - 1) (endColumn (editRange completion) - 1).

Definition secondaryEditText
    (primaryPosition : Position) (completion : SingleTextEdit) : jsstring :=
  Js.substring_from (editText completion)
    (column primaryPosition - startColumn (editRange completion)).

Definition textAfterSecondaryCursor (pos : Position) : jsstring :=
  Js.substring_from (getLineContent this_textModel (lineNumber pos))
    (column pos - 1).

Definition secondaryEdit
    (textModel : ITextModel) (primaryPosition : Position)
    (completion : SingleTextEdit) (pos : Position) : SingleTextEdit :=
  let l := commonPrefixLength
             (replacedTextAfterPrimaryCursor textModel primaryPosition completion)
             (textAfterSecondaryCursor pos) in
  let range := Rng.fromPositions pos (Pos.delta pos 0 l) in
  mkSingleTextEdit range (secondaryEditText primaryPosition completion).

Definition _getEdits (textModel : ITextModel) (selections : list Selection)
    (completion : SingleTextEdit)
  : Result (list SingleTextEdit * list Selection) :=
  let secondaryPositions := List.map Sel.getPosition (drop 1 selections) in
  match selections !! 0%nat with
  | None => Throws TypeError
  | Some primary =>
      let primaryPosition := Sel.getPosition primary in
      let edits :=
        mkSingleTextEdit (editRange completion) (editText completion)
        :: List.map (secondaryEdit textModel primaryPosition completion)
             secondaryPositions in
      let newRanges := newRangesOf edits in
      let editorSelections :=
        List.map (fun range => Sel.fromPosition (Rng.getEndPosition range))
          newRanges in
      Returns (edits, editorSelections)
  end.

End GetEdits.

(** The secondary edit as the specification words it: the span is the
    longest common prefix of the cursor's trailing line text with the whole
    text the primary edit replaces, and the inserted text is the primary
    edit's text. *)
Definition secondaryEdit_as_specified
    (textModel : ITextModel) (completion : SingleTextEdit) (pos : Position)
  : SingleTextEdit :=
  let k := commonPrefixLength
             (textAfterSecondaryCursor textModel pos)
             (getValueInRange textModel (editRange completion)) in
  mkSingleTextEdit
    (mkRange (lineNumber pos) (column pos) (lineNumber pos) (column pos + k))
    (editText completion).

(* ===================================================================== *)
(** ** Regular expressions, as far as the partial accept uses them *)
(* ===================================================================== *)

(** The result of [text.match(re)] for a non-global expression, or of
    [re.exec(text)] on a fresh expression: [m.index] and [m[0]]. *)
Record RegExpMatch := mkMatch { matchIndex : Z; matchText : jsstring }.

(** An expression is represented by its first match in a text ([None] for
    [null]). *)
Definition RegExp : Type := jsstring -> option RegExpMatch.

Fixpoint takeWhile (p : N -> bool) (s : jsstring) : jsstring :=
  match s with
  | c :: s' => if p c then c :: takeWhile p s' else []
  | [] => []
  end.

Fixpoint firstRun (p : N -> bool) (s : jsstring) (i : Z) : option RegExpMatch :=
  match s with
  | c :: s' =>
      if p c then Some (mkMatch i (c :: takeWhile p s'))
      else firstRun p s' (i + 1)
  | [] => None
  end.

(** [/C+/] for a character class [C]: the leftmost, longest run. *)
Definition classPlus (p : N -> bool) : RegExp := fun text => firstRun p text 0.

Definition inRange (lo hi c : N) : bool := ((lo <=? c) && (c <=? hi))%N.

(** The class [\s] of ECMAScript: white space and line terminators. *)
Definition isWhiteSpace (c : N) : bool :=
  inRange 9 13 c || (c =? 32)%N || (c =? 160)%N || (c =? 5760)%N
  || inRange 8192 8202 c || (c =? 8232)%N || (c =? 8233)%N
  || (c =? 8239)%N || (c =? 8287)%N || (c =? 12288)%N || (c =? 65279)%N.

(** The class [\w]: [A-Za-z0-9_]. *)
Definition isWordChar (c : N) : bool :=
  inRange 65 90 c || inRange 97 122 c || inRange 48 57 c || (c =? 95)%N.

(** [/\s+/g], created afresh at each call (its [lastIndex] is 0). *)
Definition wsRegExp : RegExp := classPlus isWhiteSpace.

(** [/\w+/], the word expression of the partial-accept scenario. *)
Definition simpleWordRegExp : RegExp := classPlus isWordChar.

Fixpoint firstChar (p : N -> bool) (s : jsstring) (i : Z) : option RegExpMatch :=
  match s with
  | c :: s' => if p c then Some (mkMatch i [c]) else firstChar p s' (i + 1)
  | [] => None
  end.

(** [/\n/]: the first line feed. *)
Definition newlineRegExp : RegExp :=
  fun text => firstChar (fun c => (c =? 10)%N) text 0.

(** The callback of [acceptNextWord], given the word expression of the
    language at the position. *)
Definition acceptNextWord_untilIndex (wordRegExp : RegExp) (text : jsstring) : Z :=
  let m1 := wordRegExp text in
  let acceptUntilIndexExclusive :=
    match m1 with
    | Some m1 =>
        if matchIndex m1 =? 0 then Js.length (matchText m1) else matchIndex m1
    | None => Js.length text
    end in
  let m2 := wsRegExp text in
  match m2 with
  | Some m2 =>
      if matchIndex m2 + Js.length (matchText m2) <? acceptUntilIndexExclusive
      then matchIndex m2 + Js.length (matchText m2)
      else acceptUntilIndexExclusive
  | None => acceptUntilIndexExclusive
  end.

(** The callback of [acceptNextLine]. *)
Definition acceptNextLine_untilIndex (text : jsstring) : Z :=
  match newlineRegExp text with
  | Some m => matchIndex m + 1
  | None => Js.length text
  end.

(* ===================================================================== *)
(** ** Completions, ghost text and the derived display state *)
(* ===================================================================== *)

Record Command := mkCommand {
  commandId : jsstring;
  commandArguments : option (list jsstring) }.

Record SnippetInfo := mkSnippetInfo {
  snippet : jsstring; snippetRange : Range }.

(** An edit operation handed to the editor; [EditOperation.replaceMove]
    sets [forceMoveMarkers]. *)
Record EditOperation := mkEditOperation {
  opRange : Range; opText : jsstring; forceMoveMarkers : bool }.

Definition replaceMove (range : Range) (text : jsstring) : EditOperation :=
  mkEditOperation range text true.

(** [completion.source]: the provider's list (by reference) and whether the
    provider defines the optional [handlePartialAccept]. *)
Record InlineCompletionList := mkInlineCompletionList {
  listRef : nat;
  providerHandlesPartialAccept : bool }.

(** The result of [toInlineCompletion(undefined)]. *)
Record InlineCompletionItem := mkInlineCompletionItem {
  range : Range;
  insertText : jsstring;
  filterText : jsstring;
  snippetInfo : option SnippetInfo;
  additionalTextEdits : list EditOperation;
  command : option Command;
  source : InlineCompletionList;
  sourceInlineCompletion : nat }.

(** [item.toSingleTextEdit()] *)
Definition toSingleTextEdit (i : InlineCompletionItem) : SingleTextEdit :=
  mkSingleTextEdit (range i) (insertText i).

Record InlineCompletionWithUpdatedRange := mkCandidate {
  semanticId : jsstring;
  forwardStable : bool;
  toInlineCompletion : InlineCompletionItem }.

Record GhostTextPart := mkGhostTextPart {
  partColumn : Z; partText : jsstring; partPreview : bool }.

(** [GhostText | GhostTextReplacement]: the line, the parts and the answer of
    [isEmpty()]. *)
Record GhostTextOrReplacement := mkGhostText {
  ghostLineNumber : Z;
  parts : list GhostTextPart;
  isEmpty : bool }.

Record SuggestItemInfo := mkSuggestItemInfo {
  suggestRef : nat;
  suggestEdit : SingleTextEdit }.

(** The value of the derived [state].  [primaryGhostText] is [ghostTexts[0]],
    which is [undefined] when there are no ghost texts. *)
Record State := mkState {
  suggestItem : option SuggestItemInfo;
  inlineCompletion : option InlineCompletionWithUpdatedRange;
  primaryGhostText : option GhostTextOrReplacement;
  ghostTexts : list GhostTextOrReplacement;
  edits : list SingleTextEdit;
  editorSelections : list Selection }.

Inductive InlineCompletionTriggerKind := Automatic | Explicit.

Inductive SuggestMode := prefix | subword | subwordSmart.

Record InlineCompletionContext := mkContext {
  triggerKind : InlineCompletionTriggerKind;
  selectedSuggestionInfo : option SuggestItemInfo }.

(** A batch: the candidates of one fetch and the request it answers. *)
Record UpToDateInlineCompletions := mkBatch {
  requestVersionId : Z;
  requestContext : InlineCompletionContext;
  inlineCompletions : list InlineCompletionWithUpdatedRange }.

Record ICodeEditor := mkEditor {
  editorModel : option nat;
  hasSnippetController : bool }.

(* ===================================================================== *)
(** ** The world the methods run in *)
(* ===================================================================== *)

Inductive EditSource :=
| inlineSuggestion_accept
| inlineCompletionAccept
| inlineCompletionPartialAccept.

(** A write to an observable inside [transaction(tx => ...)]. *)
Inductive TxWrite :=
| WSourceClear
| WSourceSeed
| WSourceClearSuggestWidget
| WSetActive (b : bool)
| WForceUpdate (k : InlineCompletionTriggerKind).

(** How the promise of [executeCommand] settles. *)
Inductive CommandOutcome :=
| Fulfilled
| Rejected (error : jsstring).

(** Calls into the collaborators, in program order. *)
Inductive Event :=
| EvStateRead
| EvPushUndoStop
| EvExecuteEdits (src : EditSource) (ops : list EditOperation)
| EvSetPosition (p : Position) (src : EditSource)
| EvSnippetInsert (sn : jsstring)
| EvSetSelections (sels : list Selection) (src : EditSource)
| EvAddRef (list : nat)
| EvRemoveRef (list : nat)
| EvTransaction (writes : list TxWrite)
| EvExecuteCommand (id : jsstring) (args : list jsstring)
| EvCommandSettled (o : CommandOutcome)
| EvUnexpectedExternalError (error : jsstring)
| EvHandlePartialAccept (list item : nat) (acceptedLength : Z)
| EvSourceCancelUpdate
| EvSourceFetch (pos : Position) (ctx : InlineCompletionContext)
    (itemToPreserve : option InlineCompletionWithUpdatedRange).

(** Observables the model is constructed with and only reads. *)
Record Inputs := mkInputs {
  selectedSuggestItem : option SuggestItemInfo;
  _selections : list Selection;
  _suggestPreviewEnabled : bool;
  _suggestPreviewMode : SuggestMode;
  _inlineSuggestMode : SuggestMode;
  _enabled : bool }.

(** The mutable part: the text model's content, the model's own
    observables and fields, the two batches of [_source], and the log. *)
Record World := mkWorld {
  inputs : Inputs;
  textModel : ITextModel;
  _isActive : bool;
  _selectedInlineCompletionId : option jsstring;
  _isAcceptingPartially : bool;
  source_inlineCompletions : option UpToDateInlineCompletions;
  source_suggestWidgetInlineCompletions : option UpToDateInlineCompletions;
  log : list Event }.

Definition set_textModel (v : ITextModel) (w : World) : World :=
  mkWorld (inputs w) v (_isActive w) (_selectedInlineCompletionId w)
    (_isAcceptingPartially w) (source_inlineCompletions w)
    (source_suggestWidgetInlineCompletions w) (log w).

Definition set_isActive (v : bool) (w : World) : World :=
  mkWorld (inputs w) (textModel w) v (_selectedInlineCompletionId w)
    (_isAcceptingPartially w) (source_inlineCompletions w)
    (source_suggestWidgetInlineCompletions w) (log w).

Definition set_selectedInlineCompletionId (v : option jsstring) (w : World) : World :=
  mkWorld (inputs w) (textModel w) (_isActive w) v
    (_isAcceptingPartially w) (source_inlineCompletions w)
    (source_suggestWidgetInlineCompletions w) (log w).

Definition set_isAcceptingPartially (v : bool) (w : World) : World :=
  mkWorld (inputs w) (textModel w) (_isActive w) (_selectedInlineCompletionId w)
    v (source_inlineCompletions w)
    (source_suggestWidgetInlineCompletions w) (log w).

Definition set_source_inlineCompletions
    (v : option UpToDateInlineCompletions) (w : World) : World :=
  mkWorld (inputs w) (textModel w) (_isActive w) (_selectedInlineCompletionId w)
    (_isAcceptingPartially w) v
    (source_suggestWidgetInlineCompletions w) (log w).

Definition set_source_suggestWidgetInlineCompletions
    (v : option UpToDateInlineCompletions) (w : World) : World :=
  mkWorld (inputs w) (textModel w) (_isActive w) (_selectedInlineCompletionId w)
    (_isAcceptingPartially w) (source_inlineCompletions w) v (log w).

Definition add_log (e : Event) (w : World) : World :=
  mkWorld (inputs w) (textModel w) (_isActive w) (_selectedInlineCompletionId w)
    (_isAcceptingPartially w) (source_inlineCompletions w)
    (source_suggestWidgetInlineCompletions w) (log w ++ [e]).

(** Code of the repository the model calls and that is not among the
    sources, taken as parameters. *)
Record Collaborators := mkCollaborators {
  (** utils.ts: sort permutation, [getNewRanges], inverse permutation *)
  newRangesOf : list SingleTextEdit -> list Range;
  (** utils.ts: [addPositions(position, lengthOfText(text))] *)
  endOfText : Position -> jsstring -> Position;
  (** [candidate.isVisible(textModel, cursorPosition, reader)] *)
  isVisible : ITextModel -> Position -> InlineCompletionWithUpdatedRange -> bool;
  (** [edit.removeCommonPrefix(model, validModelRange?)] *)
  removeCommonPrefix : ITextModel -> SingleTextEdit -> option Range -> SingleTextEdit;
  (** [edit.augments(base)] *)
  augments : SingleTextEdit -> SingleTextEdit -> bool;
  (** [edit.computeGhostText(model, mode, cursorPosition, previewSuffixLength)] *)
  computeGhostText : ITextModel -> SingleTextEdit -> SuggestMode -> Position -> Z
                     -> option GhostTextOrReplacement;
  (** the word definition of the language at a position of the model *)
  wordDefinition : ITextModel -> Position -> RegExp;
  (** the command service: how the command's promise settles *)
  commandOutcome : Command -> CommandOutcome;
  (** the editor: the model's content after [executeEdits] *)
  applyEdits : ITextModel -> list EditOperation -> ITextModel;
  (** the source: the batch it holds once [fetch] has settled *)
  sourceFetch : option UpToDateInlineCompletions -> Position
                -> InlineCompletionContext
                -> option InlineCompletionWithUpdatedRange
                -> option UpToDateInlineCompletions }.

(* ===================================================================== *)
(** ** The monad: state, log and exceptions *)
(* ===================================================================== *)

Definition M (A : Type) : Type := World -> Result A * World.

Definition ret {A} (a : A) : M A := fun w => (Returns a, w).

Definition bind {A B} (m : M A) (k : A -> M B) : M B :=
  fun w =>
    match m w with
    | (Returns a, w') => k a w'
    | (Throws e, w') => (Throws e, w')
    end.

Definition throw {A} (e : Exn) : M A := fun w => (Throws e, w).

(** [try { body } finally { fin }] *)
Definition tryFinally {A} (body : M A) (fin : M unit) : M A :=
  fun w =>
    match body w with
    | (r, w') =>
        match fin w' with
        | (Returns _, w'') => (r, w'')
        | (Throws e, w'') => (Throws e, w'')
        end
    end.

Definition gets {A} (f : World -> A) : M A := fun w => (Returns (f w), w).

Definition modify (f : World -> World) : M unit := fun w => (Returns tt, f w).

Definition emit (e : Event) : M unit := modify (add_log e).

(** A pure computation that may throw. *)
Definition lift {A} (r : Result A) : M A := fun w => (r, w).

Declare Scope m_scope.
Delimit Scope m_scope with M.
Notation "x <- m ;; k" := (bind m (fun x => k))
  (at level 20, m at level 99, k at level 200, only parsing) : m_scope.
Notation "m ;;; k" := (bind m (fun _ => k))
  (at level 100, k at level 200, right associativity, only parsing) : m_scope.
Local Open Scope m_scope.

(* ===================================================================== *)
(** ** Array helpers of the language *)
(* ===================================================================== *)

(** [array.findIndex(p)]: the first index whose element satisfies [p],
    or -1. *)
Fixpoint findIndexFrom {A} (p : A -> bool) (l : list A) (i : Z) : Z :=
  match l with
  | x :: l' => if p x then i else findIndexFrom p l' (i + 1)
  | [] => -1
  end.

Definition findIndex {A} (p : A -> bool) (l : list A) : Z := findIndexFrom p l 0.

(** [array.length] *)
Definition arrayLength {A} (l : list A) : Z := Z.of_nat (List.length l).

(** [array[i]]: [undefined] outside the array. *)
Definition arrayGet {A} (l : list A) (i : Z) : option A :=
  if i <? 0 then None else l !! Z.to_nat i.

(** [mapFindFirst(items, f)]: the first defined image. *)
Fixpoint mapFindFirst {A B} (items : list A) (f : A -> option B) : option B :=
  match items with
  | x :: rest => match f x with Some y => Some y | None => mapFindFirst rest f end
  | [] => None
  end.

(** [v.semanticId === selectedInlineCompletionId], a string against
    [string | undefined]. *)
Definition semanticId_strictEq (id : jsstring) (selected : option jsstring) : bool :=
  match selected with
  | Some s => bool_decide (id = s)
  | None => false
  end.

(** [this._selectedInlineCompletionId === undefined] compares the observable
    object itself, which is always defined. *)
Definition selectedIdObservable_isUndefined : bool := false.

(* ===================================================================== *)
(** ** The model's methods *)
(* ===================================================================== *)

Section Model.

Variable env : Collaborators.

(** [_cursorPosition], as the methods of a constructed model read it: the
    last autorun of the constructor assigns the field and keeps it at the
    primary selection.  Before that autorun has run the field is
    [undefined]; the one read that can happen then is modelled by
    [constructor_fetchInlineCompletions]. *)
Definition _cursorPosition : M Position :=
  selections <- gets (fun w => _selections (inputs w)) ;;
  ret (match selections !! 0%nat with
       | Some s => Sel.getPosition s
       | None => mkPosition 1 1
       end).

Definition _filteredInlineCompletionItems
  : M (list InlineCompletionWithUpdatedRange) :=
  c <- gets source_inlineCompletions ;;
  match c with
  | None => ret []
  | Some c =>
      cursorPosition <- _cursorPosition ;;
      tm <- gets textModel ;;
      ret (List.filter (isVisible env tm cursorPosition) (inlineCompletions c))
  end.

Definition selectedInlineCompletionIndex : M Z :=
  selectedInlineCompletionId <- gets _selectedInlineCompletionId ;;
  filteredCompletions <- _filteredInlineCompletionItems ;;
  let idx :=
    if selectedIdObservable_isUndefined then -1
    else findIndex
           (fun v => semanticId_strictEq (semanticId v) selectedInlineCompletionId)
           filteredCompletions in
  if idx =? -1 then
    (* Reset the selection so that the selection does not jump back when it
       appears again *)
    modify (set_selectedInlineCompletionId None) ;;;
    ret 0
  else ret idx.

Definition selectedInlineCompletion
  : M (option InlineCompletionWithUpdatedRange) :=
  filteredCompletions <- _filteredInlineCompletionItems ;;
  idx <- selectedInlineCompletionIndex ;;
  ret (arrayGet filteredCompletions idx).

(** [transaction(tx => ...)]: the writes take effect together. *)
Definition applyWrite (wr : TxWrite) (w : World) : World :=
  match wr with
  | WSourceClear =>
      set_source_suggestWidgetInlineCompletions None
        (set_source_inlineCompletions None w)
  | WSourceSeed =>
      set_source_inlineCompletions (source_suggestWidgetInlineCompletions w) w
  | WSourceClearSuggestWidget =>
      set_source_suggestWidgetInlineCompletions None w
  | WSetActive b => set_isActive b w
  | WForceUpdate _ => w
  end.

Definition transaction (writes : list TxWrite) : M unit :=
  modify (fun w => add_log (EvTransaction writes) (foldl (fun w wr => applyWrite wr w) w writes)).

Record ChangeSummary := mkChangeSummary {
  preserveCurrentCompletion : bool;
  inlineCompletionTriggerKind : InlineCompletionTriggerKind }.

(** The body of the derived [_fetchInlineCompletions], followed (when it
    returns a fetch) by the fetch settling. *)
Definition _fetchInlineCompletions (changeSummary : ChangeSummary) : M unit :=
  enabled <- gets (fun w => _enabled (inputs w)) ;;
  suggestItem0 <- gets (fun w => selectedSuggestItem (inputs w)) ;;
  active <- gets _isActive ;;
  let shouldUpdate := (enabled && bool_decide (is_Some suggestItem0)) || active in
  if negb shouldUpdate then emit EvSourceCancelUpdate
  else
    itemToPreserveCandidate <- selectedInlineCompletion ;;
    let itemToPreserve :=
      if preserveCurrentCompletion changeSummary
         || from_option forwardStable false itemToPreserveCandidate
      then itemToPreserveCandidate else None in
    suggestWidgetInlineCompletions <- gets source_suggestWidgetInlineCompletions ;;
    suggestItem <- gets (fun w => selectedSuggestItem (inputs w)) ;;
    match suggestWidgetInlineCompletions, suggestItem with
    | Some swic, None =>
        inlineCompletions <- gets source_inlineCompletions ;;
        transaction
          ((if match inlineCompletions with
               | None => true
               | Some ic => requestVersionId ic <? requestVersionId swic
               end
            then [WSourceSeed] else [])
           ++ [WSourceClearSuggestWidget])
    | _, _ => ret tt
    end ;;;
    cursorPosition <- _cursorPosition ;;
    let context := mkContext (inlineCompletionTriggerKind changeSummary) suggestItem in
    emit (EvSourceFetch cursorPosition context itemToPreserve) ;;;
    modify (fun w =>
      set_source_inlineCompletions
        (sourceFetch env (source_inlineCompletions w) cursorPosition context
           itemToPreserve) w).

(** The first evaluation of [_fetchInlineCompletions], asked for by the
    constructor ([recomputeInitiallyAndOnChange]) before its last autorun
    has assigned the field [_cursorPosition]: the function is the same, but
    [this._cursorPosition.read(reader)] is a property read of
    [undefined]. *)
Definition constructor_fetchInlineCompletions : M unit :=
  let changeSummary := mkChangeSummary false Automatic in
  enabled <- gets (fun w => _enabled (inputs w)) ;;
  suggestItem0 <- gets (fun w => selectedSuggestItem (inputs w)) ;;
  active <- gets _isActive ;;
  let shouldUpdate := (enabled && bool_decide (is_Some suggestItem0)) || active in
  if negb shouldUpdate then emit EvSourceCancelUpdate
  else
    itemToPreserveCandidate <- selectedInlineCompletion ;;
    let itemToPreserve :=
      if preserveCurrentCompletion changeSummary
         || from_option forwardStable false itemToPreserveCandidate
      then itemToPreserveCandidate else None in
    suggestWidgetInlineCompletions <- gets source_suggestWidgetInlineCompletions ;;
    suggestItem <- gets (fun w => selectedSuggestItem (inputs w)) ;;
    match suggestWidgetInlineCompletions, suggestItem with
    | Some swic, None =>
        inlineCompletions <- gets source_inlineCompletions ;;
        transaction
          ((if match inlineCompletions with
               | None => true
               | Some ic => requestVersionId ic <? requestVersionId swic
               end
            then [WSourceSeed] else [])
           ++ [WSourceClearSuggestWidget])
    | _, _ => ret tt
    end ;;;
    cursorPosition <- throw (A:=Position) TypeError ;;
    let context := mkContext (inlineCompletionTriggerKind changeSummary) suggestItem in
    emit (EvSourceFetch cursorPosition context itemToPreserve) ;;;
    modify (fun w =>
      set_source_inlineCompletions
        (sourceFetch env (source_inlineCompletions w) cursorPosition context
           itemToPreserve) w).


Definition triggerExplicitly : M unit :=
  transaction [WSetActive true; WForceUpdate Explicit] ;;;
  _fetchInlineCompletions (mkChangeSummary false Explicit).

Definition stop : M unit :=
  transaction [WSetActive false; WSourceClear].

Definition _computeAugmentedCompletion (suggestCompletion : SingleTextEdit)
  : M (option (SingleTextEdit * InlineCompletionWithUpdatedRange)) :=
  model <- gets textModel ;;
  suggestWidgetInlineCompletions <- gets source_suggestWidgetInlineCompletions ;;
  candidateInlineCompletions <-
    match suggestWidgetInlineCompletions with
    | Some swic => ret (inlineCompletions swic)
    | None =>
        c <- selectedInlineCompletion ;;
        ret (match c with Some c => [c] | None => [] end)
    end ;;
  ret (mapFindFirst candidateInlineCompletions (fun completion =>
         let r := toSingleTextEdit (toInlineCompletion completion) in
         let r := removeCommonPrefix env model r
                    (Some (Rng.fromPositions
                             (Rng.getStartPosition (editRange r))
                             (Rng.getEndPosition (editRange suggestCompletion)))) in
         if augments env r suggestCompletion then Some (r, completion) else None)).

(** The ghost texts of the suggest-widget branch: a missing ghost text is
    replaced by an invisible one. *)
Fixpoint suggestGhostTexts (model : ITextModel) (mode : SuggestMode)
    (selections : list Selection) (editPreviewLength : Z)
    (edits : list SingleTextEdit) (index : nat)
  : Result (list GhostTextOrReplacement) :=
  match edits with
  | [] => Returns []
  | edit :: rest =>
      match selections !! index with
      | None => Throws TypeError
      | Some sel =>
          let newGhostText :=
            computeGhostText env model edit mode (Sel.getPosition sel)
              editPreviewLength in
          let g := default (mkGhostText (endLineNumber (editRange edit)) [] true)
                     newGhostText in
          match suggestGhostTexts model mode selections editPreviewLength rest (S index) with
          | Returns gs => Returns (g :: gs)
          | Throws e => Throws e
          end
      end
  end.

(** The ghost texts of the inline branch: one missing ghost text makes the
    whole state [undefined]. *)
Fixpoint inlineGhostTexts (model : ITextModel) (mode : SuggestMode)
    (selections : list Selection) (edits : list SingleTextEdit) (index : nat)
  : Result (option (list GhostTextOrReplacement)) :=
  match edits with
  | [] => Returns (Some [])
  | edit :: rest =>
      match selections !! index with
      | None => Throws TypeError
      | Some sel =>
          match computeGhostText env model edit mode (Sel.getPosition sel) 0 with
          | None => Returns None
          | Some ghostText =>
              match inlineGhostTexts model mode selections rest (S index) with
              | Returns (Some gs) => Returns (Some (ghostText :: gs))
              | Returns None => Returns None
              | Throws e => Throws e
              end
          end
      end
  end.

Definition state : M (option State) :=
  model <- gets textModel ;;
  suggestItem <- gets (fun w => selectedSuggestItem (inputs w)) ;;
  match suggestItem with
  | Some suggestItem =>
      let suggestCompletion :=
        removeCommonPrefix env model (suggestEdit suggestItem) None in
      augmentedCompletion <- _computeAugmentedCompletion suggestCompletion ;;
      isSuggestionPreviewEnabled <- gets (fun w => _suggestPreviewEnabled (inputs w)) ;;
      if negb isSuggestionPreviewEnabled && negb (bool_decide (is_Some augmentedCompletion))
      then ret None
      else
        let inlineCompletion := snd <$> augmentedCompletion in
        let editPreviewLength :=
          match augmentedCompletion with
          | Some (edit, _) =>
              Js.length (editText edit) - Js.length (editText suggestCompletion)
          | None => 0
          end in
        mode <- gets (fun w => _suggestPreviewMode (inputs w)) ;;
        selections <- gets (fun w => _selections (inputs w)) ;;
        _edits <-
          match inlineCompletion with
          | Some inlineCompletion =>
              let completion := toInlineCompletion inlineCompletion in
              lift (_getEdits (newRangesOf env) model model selections
                      (toSingleTextEdit completion))
          | None => ret ([], [])
          end ;;
        ghostTexts <-
          lift (suggestGhostTexts model mode selections editPreviewLength
                  (fst _edits) 0) ;;
        let primaryGhostText := ghostTexts !! 0%nat in
        ret (Some (mkState (Some suggestItem) inlineCompletion primaryGhostText
                     ghostTexts (fst _edits) (snd _edits)))
  | None =>
      active <- gets _isActive ;;
      if negb active then ret None
      else
        inlineCompletion <- selectedInlineCompletion ;;
        match inlineCompletion with
        | None => ret None
        | Some inlineCompletion =>
            selections <- gets (fun w => _selections (inputs w)) ;;
            let completion := toInlineCompletion inlineCompletion in
            _edits <- lift (_getEdits (newRangesOf env) model model selections
                              (toSingleTextEdit completion)) ;;
            mode <- gets (fun w => _inlineSuggestMode (inputs w)) ;;
            ghostTexts <- lift (inlineGhostTexts model mode selections (fst _edits) 0) ;;
            match ghostTexts with
            | None => ret None
            | Some ghostTexts =>
                let primaryGhostText := ghostTexts !! 0%nat in
                ret (Some (mkState None (Some inlineCompletion) primaryGhostText
                             ghostTexts (fst _edits) (snd _edits)))
            end
        end
  end.

Definition _deltaSelectedInlineCompletionIndex (delta : Z) : M unit :=
  triggerExplicitly ;;;
  completions <- _filteredInlineCompletionItems ;;
  if 0 <? arrayLength completions then
    idx <- selectedInlineCompletionIndex ;;
    let newIdx := Js.rem (idx + delta + arrayLength completions) (arrayLength completions) in
    match arrayGet completions newIdx with
    | Some c => modify (set_selectedInlineCompletionId (Some (semanticId c)))
    | None => throw TypeError
    end
  else modify (set_selectedInlineCompletionId None).

Definition next : M unit := _deltaSelectedInlineCompletionIndex 1.

Definition previous : M unit := _deltaSelectedInlineCompletionIndex (-1).

(** [editor.getModel() !== this.textModel] *)
Definition modelDiffers (editor : ICodeEditor) (tm : ITextModel) : bool :=
  negb (bool_decide (editorModel editor = Some (modelRef tm))).

(** [editor.executeEdits(source, ops)]: the call, and its effect on the
    content of the model (whose identity stays). *)
Definition executeEdits (src : EditSource) (ops : list EditOperation) : M unit :=
  emit (EvExecuteEdits src ops) ;;;
  modify (fun w =>
    let after := applyEdits env (textModel w) ops in
    set_textModel
      (mkTextModel (modelRef (textModel w)) (getLineContent after)
         (getValueInRange after)) w).

(** [await executeCommand(id, ...args).then(undefined, onUnexpectedExternalError)] *)
Definition executeCommand (c : Command) : M unit :=
  emit (EvExecuteCommand (commandId c) (default [] (commandArguments c))) ;;;
  match commandOutcome env c with
  | Fulfilled => emit (EvCommandSettled Fulfilled)
  | Rejected error =>
      emit (EvCommandSettled (Rejected error)) ;;;
      emit (EvUnexpectedExternalError error)
  end.

Definition accept (editor : ICodeEditor) : M unit :=
  tm <- gets textModel ;;
  if modelDiffers editor tm then throw BugIndicatingError
  else
    emit EvStateRead ;;;
    st <- state ;;
    match st with
    | None => ret tt
    | Some st =>
        match primaryGhostText st with
        | None => throw TypeError
        | Some primary =>
            if isEmpty primary then ret tt
            else
              match inlineCompletion st with
              | None => ret tt
              | Some ic =>
                  let completion := toInlineCompletion ic in
                  emit EvPushUndoStop ;;;
                  match snippetInfo completion with
                  | Some info =>
                      executeEdits inlineSuggestion_accept
                        (replaceMove (range completion) []
                         :: additionalTextEdits completion) ;;;
                      emit (EvSetPosition (Rng.getStartPosition (snippetRange info))
                              inlineCompletionAccept) ;;;
                      if hasSnippetController editor
                      then emit (EvSnippetInsert (snippet info))
                      else ret tt
                  | None =>
                      executeEdits inlineSuggestion_accept
                        (List.map (fun edit => replaceMove (editRange edit) (editText edit))
                           (edits st)
                         ++ additionalTextEdits completion) ;;;
                      emit (EvSetSelections (editorSelections st) inlineCompletionAccept)
                  end ;;;
                  match command completion with
                  | Some _ =>
                      (* Make sure the completion list will not be disposed. *)
                      emit (EvAddRef (listRef (source completion)))
                  | None => ret tt
                  end ;;;
                  (* Reset before invoking the command, since the command
                     might cause a follow up trigger. *)
                  transaction [WSourceClear; WSetActive false] ;;;
                  match command completion with
                  | Some c =>
                      executeCommand c ;;;
                      emit (EvRemoveRef (listRef (source completion)))
                  | None => ret tt
                  end
              end
        end
    end.

(** What is left of [accept] from its [await] on, when the call was made
    without [await] and the caller has gone on: the command's promise
    settles, a rejection goes to [onUnexpectedExternalError], then the
    reference is released. *)
Definition acceptPending (completion : InlineCompletionItem) : M unit :=
  match command completion with
  | Some c =>
      match commandOutcome env c with
      | Fulfilled => emit (EvCommandSettled Fulfilled)
      | Rejected error =>
          emit (EvCommandSettled (Rejected error)) ;;;
          emit (EvUnexpectedExternalError error)
      end ;;;
      emit (EvRemoveRef (listRef (source completion)))
  | None => ret tt
  end.

(** [this.accept(editor)] called without [await]: the body of [accept] runs
    up to its [await], that is through the call of [executeCommand], and the
    caller goes on at once; the rest is [acceptPending].  What the body
    throws is a rejected promise that nobody observes. *)
Definition acceptUnawaited (editor : ICodeEditor) : M unit :=
  fun w =>
    match
      (tm <- gets textModel ;;
       if modelDiffers editor tm then throw BugIndicatingError
       else
         emit EvStateRead ;;;
         st <- state ;;
         match st with
         | None => ret tt
         | Some st =>
             match primaryGhostText st with
             | None => throw TypeError
             | Some primary =>
                 if isEmpty primary then ret tt
                 else
                   match inlineCompletion st with
                   | None => ret tt
                   | Some ic =>
                       let completion := toInlineCompletion ic in
                       emit EvPushUndoStop ;;;
                       match snippetInfo completion with
                       | Some info =>
                           executeEdits inlineSuggestion_accept
                             (replaceMove (range completion) []
                              :: additionalTextEdits completion) ;;;
                           emit (EvSetPosition (Rng.getStartPosition (snippetRange info))
                                   inlineCompletionAccept) ;;;
                           if hasSnippetController editor
                           then emit (EvSnippetInsert (snippet info))
                           else ret tt
                       | None =>
                           executeEdits inlineSuggestion_accept
                             (List.map
                                (fun edit => replaceMove (editRange edit) (editText edit))
                                (edits st)
                              ++ additionalTextEdits completion) ;;;
                           emit (EvSetSelections (editorSelections st)
                                   inlineCompletionAccept)
                       end ;;;
                       match command completion with
                       | Some _ => emit (EvAddRef (listRef (source completion)))
                       | None => ret tt
                       end ;;;
                       transaction [WSourceClear; WSetActive false] ;;;
                       match command completion with
                       | Some c =>
                           emit (EvExecuteCommand (commandId c)
                                   (default [] (commandArguments c)))
                       | None => ret tt
                       end
                   end
             end
         end) w
    with
    | (Returns _, w') => (Returns tt, w')
    | (Throws _, w') => (Returns tt, w')
    end.

Definition _acceptNext (editor : ICodeEditor)
    (getAcceptUntilIndex : Position -> jsstring -> M Z) : M unit :=
  tm <- gets textModel ;;
  if modelDiffers editor tm then throw BugIndicatingError
  else
    emit EvStateRead ;;;
    st <- state ;;
    match st with
    | None => ret tt
    | Some st =>
        match primaryGhostText st with
        | None => throw TypeError
        | Some ghostText =>
            if isEmpty ghostText then ret tt
            else
              match inlineCompletion st with
              | None => ret tt
              | Some ic =>
                  let completion := toInlineCompletion ic in
                  if bool_decide (is_Some (snippetInfo completion))
                     || negb (bool_decide (filterText completion = insertText completion))
                  then
                    (* not in WYSIWYG mode, partial commit might change
                       completion, thus it is not supported *)
                    accept editor
                  else
                    match parts ghostText !! 0%nat with
                    | None => throw TypeError
                    | Some firstPart =>
                        let position :=
                          mkPosition (ghostLineNumber ghostText) (partColumn firstPart) in
                        let text := partText firstPart in
                        acceptUntilIndexExclusive <- getAcceptUntilIndex position text ;;
                        if (acceptUntilIndexExclusive =? Js.length text)
                           && (arrayLength (parts ghostText) =? 1)
                        then
                          (* [this.accept(editor); return;]: not awaited *)
                          acceptUnawaited editor
                        else
                          let partialText :=
                            Js.substring text 0 acceptUntilIndexExclusive in
                          (* Executing the edit might free the completion, so
                             we have to hold a reference on it. *)
                          emit (EvAddRef (listRef (source completion))) ;;;
                          tryFinally
                            (modify (set_isAcceptingPartially true) ;;;
                             tryFinally
                               (emit EvPushUndoStop ;;;
                                let replaceRange :=
                                  Rng.fromPositions
                                    (Rng.getStartPosition (range completion)) position in
                                let newText :=
                                  Js.substring (insertText completion) 0
                                    (partColumn firstPart - startColumn (range completion)
                                     + acceptUntilIndexExclusive) in
                                let singleTextEdit := mkSingleTextEdit replaceRange newText in
                                selections <- gets (fun w => _selections (inputs w)) ;;
                                model <- gets textModel ;;
                                edits <- lift (_getEdits (newRangesOf env) model model
                                                 selections singleTextEdit) ;;
                                executeEdits inlineSuggestion_accept
                                  (List.map
                                     (fun edit => replaceMove (editRange edit) (editText edit))
                                     (fst edits)) ;;;
                                emit (EvSetSelections (snd edits)
                                        inlineCompletionPartialAccept))
                               (modify (set_isAcceptingPartially false)) ;;;
                             if providerHandlesPartialAccept (source completion) then
                               let acceptedRange :=
                                 Rng.fromPositions
                                   (Rng.getStartPosition (range completion))
                                   (endOfText env position partialText) in
                               model <- gets textModel ;;
                               let text := getValueInRange model acceptedRange in
                               emit (EvHandlePartialAccept
                                       (listRef (source completion))
                                       (sourceInlineCompletion completion)
                                       (Js.length text))
                             else ret tt)
                            (emit (EvRemoveRef (listRef (source completion))))
                    end
              end
        end
    end.

Definition acceptNextWord (editor : ICodeEditor) : M unit :=
  _acceptNext editor (fun pos text =>
    model <- gets textModel ;;
    let wordRegExp := wordDefinition env model pos in
    ret (acceptNextWord_untilIndex wordRegExp text)).

Definition acceptNextLine (editor : ICodeEditor) : M unit :=
  _acceptNext editor (fun pos text => ret (acceptNextLine_untilIndex text)).

End Model.

(* ===================================================================== *)
(** ** Derived values as functions of the world *)
(* ===================================================================== *)

(** The value [_cursorPosition] holds. *)
Definition cursorPositionOf (w : World) : Position :=
  match _selections (inputs w) !! 0%nat with
  | Some s => Sel.getPosition s
  | None => mkPosition 1 1
  end.

(** The visible candidates of a batch, in a world. *)
Definition visibleItems (env : Collaborators) (w : World)
    (b : option UpToDateInlineCompletions)
  : list InlineCompletionWithUpdatedRange :=
  match b with
  | None => []
  | Some c =>
      List.filter (isVisible env (textModel w) (cursorPositionOf w))
        (inlineCompletions c)
  end.

(** The value of [_filteredInlineCompletionItems]: the visible candidates of
    the current batch. *)
Definition filteredItems (env : Collaborators) (w : World)
  : list InlineCompletionWithUpdatedRange :=
  visibleItems env w (source_inlineCompletions w).

(** The index [findIndex] answers for a stored id. *)
Definition indexOfId (l : list InlineCompletionWithUpdatedRange)
    (selected : option jsstring) : Z :=
  findIndex (fun v => semanticId_strictEq (semanticId v) selected) l.

(** The candidate pool stays [l]: the world shows [l], and whatever the
    source fetches shows [l] again. *)
Definition poolUnchanged (env : Collaborators) (w : World)
    (l : list InlineCompletionWithUpdatedRange) : Prop :=
  filteredItems env w = l
  /\ forall current pos ctx keep,
       visibleItems env w (sourceFetch env current pos ctx keep) = l.

(* ===================================================================== *)
(** ** Reading the log *)
(* ===================================================================== *)

(** Events through which the editor's document or cursors change. *)
Definition isEditEvent (e : Event) : bool :=
  match e with
  | EvPushUndoStop | EvExecuteEdits _ _ | EvSetPosition _ _
  | EvSnippetInsert _ | EvSetSelections _ _ => true
  | _ => false
  end.

(** Events of the post-accept command. *)
Definition isCommandEvent (e : Event) : bool :=
  match e with
  | EvExecuteCommand _ _ | EvCommandSettled _ | EvUnexpectedExternalError _ => true
  | _ => false
  end.

Definition isTransaction (e : Event) : bool :=
  match e with
  | EvTransaction _ => true
  | _ => false
  end.

(** Reading a derived value may reset the stored id and changes nothing
    else. *)
Definition idReset (w w' : World) : Prop :=
  w' = w \/ w' = set_selectedInlineCompletionId None w.

(** A computation that at most resets the stored id. *)
Definition readsOnly {A} (m : M A) : Prop :=
  forall w r w', m w = (r, w') -> idReset w w'.

(** The operations a full accept hands to the editor. *)
Definition acceptEditOps (st : State) (completion : InlineCompletionItem)
  : list EditOperation :=
  match snippetInfo completion with
  | Some _ => replaceMove (range completion) [] :: additionalTextEdits completion
  | None =>
      List.map (fun edit => replaceMove (editRange edit) (editText edit)) (edits st)
      ++ additionalTextEdits completion
  end.

(** The editor calls of a full accept. *)
Definition acceptEditEvents (editor : ICodeEditor) (st : State)
    (completion : InlineCompletionItem) : list Event :=
  [EvPushUndoStop;
   EvExecuteEdits inlineSuggestion_accept (acceptEditOps st completion)]
  ++ match snippetInfo completion with
     | Some info =>
         EvSetPosition (Rng.getStartPosition (snippetRange info))
           inlineCompletionAccept
         :: (if hasSnippetController editor
             then [EvSnippetInsert (snippet info)] else [])
     | None => [EvSetSelections (editorSelections st) inlineCompletionAccept]
     end.

(** The reference a full accept takes when there is a command. *)
Definition acceptAddRef (completion : InlineCompletionItem) : list Event :=
  match command completion with
  | Some _ => [EvAddRef (listRef (source completion))]
  | None => []
  end.

(** The command part of a full accept. *)
Definition acceptCommandEvents (env : Collaborators)
    (completion : InlineCompletionItem) : list Event :=
  match command completion with
  | Some c =>
      [EvExecuteCommand (commandId c) (default [] (commandArguments c));
       EvCommandSettled (commandOutcome env c)]
      ++ match commandOutcome env c with
         | Rejected error => [EvUnexpectedExternalError error]
         | Fulfilled => []
         end
      ++ [EvRemoveRef (listRef (source completion))]
  | None => []
  end.

(** The call of the command, which an accept makes before it waits. *)
Definition acceptCommandCall (completion : InlineCompletionItem) : list Event :=
  match command completion with
  | Some c => [EvExecuteCommand (commandId c) (default [] (commandArguments c))]
  | None => []
  end.

(** What follows once the command has settled. *)
Definition acceptSettleEvents (env : Collaborators)
    (completion : InlineCompletionItem) : list Event :=
  match command completion with
  | Some c =>
      [EvCommandSettled (commandOutcome env c)]
      ++ match commandOutcome env c with
         | Rejected error => [EvUnexpectedExternalError error]
         | Fulfilled => []
         end
      ++ [EvRemoveRef (listRef (source completion))]
  | None => []
  end.

(** The model as its field initialisers leave it, when the body of the
    constructor starts. *)
Definition initialWorld (i : Inputs) (tm : ITextModel) : World :=
  mkWorld i tm false None false None None [].

(** The edit a partial accept commits at the primary cursor: from the start
    of the candidate's range to the ghost text, the insertion text up to the
    accepted index. *)
Definition partialEdit (completion : InlineCompletionItem)
    (ghostText : GhostTextOrReplacement) (firstPart : GhostTextPart)
    (acceptUntilIndexExclusive : Z) : SingleTextEdit :=
  mkSingleTextEdit
    (Rng.fromPositions (Rng.getStartPosition (range completion))
       (mkPosition (ghostLineNumber ghostText) (partColumn firstPart)))
    (Js.substring (insertText completion) 0
       (partColumn firstPart - startColumn (range completion)
        + acceptUntilIndexExclusive)).

(** The range a partial accept reports on: from the start of the candidate's
    range to the end of the accepted part of the ghost text. *)
Definition acceptedRange (env : Collaborators) (completion : InlineCompletionItem)
    (ghostText : GhostTextOrReplacement) (firstPart : GhostTextPart)
    (acceptUntilIndexExclusive : Z) : Range :=
  Rng.fromPositions (Rng.getStartPosition (range completion))
    (endOfText env
       (mkPosition (ghostLineNumber ghostText) (partColumn firstPart))
       (Js.substring (partText firstPart) 0 acceptUntilIndexExclusive)).

(** When a partial accept turns into a full one. *)
Definition fallsBackToAccept (completion : InlineCompletionItem)
    (ghostText : GhostTextOrReplacement) (firstPart : GhostTextPart)
    (acceptUntilIndexExclusive : Z) : Prop :=
  is_Some (snippetInfo completion)
  \/ filterText completion <> insertText completion
  \/ (acceptUntilIndexExclusive = Js.length (partText firstPart)
      /\ arrayLength (parts ghostText) = 1).

(** The guard of the accept methods lets the call through: the derived
    state, read after the editor check, holds a non-empty primary ghost text
    and a selected inline completion. *)
Definition guardPasses (env : Collaborators) (editor : ICodeEditor) (w : World)
    (st : State) (ghostText : GhostTextOrReplacement)
    (ic : InlineCompletionWithUpdatedRange) (w1 : World) : Prop :=
  modelDiffers editor (textModel w) = false
  /\ state env (add_log EvStateRead w) = (Returns (Some st), w1)
  /\ primaryGhostText st = Some ghostText
  /\ isEmpty ghostText = false
  /\ inlineCompletion st = Some ic.

(* ===================================================================== *)
(** ** Concrete collaborators and scenarios *)
(* ===================================================================== *)

Module Scenario.

(** Ranges after application, for edits that sit on lines of their own and
    insert no line break: each edit ends where its text ends. *)
Definition plainNewRanges (edits : list SingleTextEdit) : list Range :=
  List.map (fun e =>
    mkRange (startLineNumber (editRange e)) (startColumn (editRange e))
      (startLineNumber (editRange e))
      (startColumn (editRange e) + Js.length (editText e))) edits.

Definition plainEndOfText (p : Position) (text : jsstring) : Position :=
  mkPosition (lineNumber p) (column p + Js.length text).

(** Whether [a] is a prefix of [b]. *)
Fixpoint startsWith (b a : jsstring) : bool :=
  match a, b with
  | [], _ => true
  | x :: a', y :: b' => (x =? y)%N && startsWith b' a'
  | _ :: _, [] => false
  end.

(** Ghost text in the way of the prefix mode, for a single-line edit: the
    text typed since the start of the range must begin the insertion; what
    is left of the insertion is shown at the cursor. *)
Definition prefixGhostText (model : ITextModel) (edit : SingleTextEdit)
    (mode : SuggestMode) (cursor : Position) (previewSuffixLength : Z)
  : option GhostTextOrReplacement :=
  let typed :=
    Js.substring (getLineContent model (lineNumber cursor))
      (startColumn (editRange edit) - 1) (column cursor - 1) in
  if startsWith (editText edit) typed then
    let rest := Js.substring_from (editText edit) (Js.length typed) in
    match rest with
    | [] => Some (mkGhostText (lineNumber cursor) [] true)
    | _ => Some (mkGhostText (lineNumber cursor)
                   [mkGhostTextPart (column cursor) rest false] false)
    end
  else None.

(** An editor for operations without line breaks, one per line at most. *)
Definition applyToLine (n : Z) (content : jsstring) (ops : list EditOperation)
  : jsstring :=
  foldl (fun s op =>
    if (startLineNumber (opRange op) =? n) && (endLineNumber (opRange op) =? n)
    then Js.substring s 0 (startColumn (opRange op) - 1)
         ++ opText op
         ++ Js.substring_from s (endColumn (opRange op) - 1)
    else s) content ops.

Definition plainApplyEdits (model : ITextModel) (ops : list EditOperation)
  : ITextModel :=
  let line n := applyToLine n (getLineContent model n) ops in
  mkTextModel (modelRef model) line
    (fun r => if startLineNumber r =? endLineNumber r
              then Js.substring (line (startLineNumber r))
                     (startColumn r - 1) (endColumn r - 1)
              else []).

(** A command service in which the command named [fail] is rejected. *)
Definition plainCommandOutcome (c : Command) : CommandOutcome :=
  if bool_decide (commandId c = Js.str "fail")
  then Rejected (Js.str "command failed") else Fulfilled.

(** A source whose every fetch settles with the same batch. *)
Definition collaborators (fetched : option UpToDateInlineCompletions)
  : Collaborators :=
  mkCollaborators
    plainNewRanges plainEndOfText
    (fun _ _ _ => true)
    (fun _ e _ => e)
    (fun _ _ => false)
    prefixGhostText
    (fun _ _ => simpleWordRegExp)
    plainCommandOutcome
    plainApplyEdits
    (fun _ _ _ _ => fetched).

Definition cursor (line col : Z) : Selection :=
  Sel.fromPosition (mkPosition line col).

Definition theList : InlineCompletionList := mkInlineCompletionList 7 true.

(** A plain candidate: filter text and insertion text agree, no snippet. *)
Definition candidate (id : String.string) (r : Range) (text : String.string)
    (cmd : option Command) : InlineCompletionWithUpdatedRange :=
  mkCandidate (Js.str id) false
    (mkInlineCompletionItem r (Js.str text) (Js.str text) None [] cmd theList 0).

Definition batch (items : list InlineCompletionWithUpdatedRange)
  : UpToDateInlineCompletions :=
  mkBatch 1 (mkContext Automatic None) items.

Definition world (lines : list String.string) (sels : list Selection)
    (suggest : option SuggestItemInfo) (active : bool)
    (selected : option jsstring)
    (items : option (list InlineCompletionWithUpdatedRange)) : World :=
  mkWorld
    (mkInputs suggest sels true prefix prefix true)
    (Lines.textModel 1 (List.map Js.str lines))
    active selected false (batch <$> items) None [].

Definition editor : ICodeEditor := mkEditor (Some 1%nat) true.

Definition otherEditor : ICodeEditor := mkEditor (Some 2%nat) true.

(** One cursor at the start of an empty document, one candidate
    "hello world" shown as ghost text. *)
Definition helloItems : list InlineCompletionWithUpdatedRange :=
  [candidate "hello" (mkRange 1 1 1 1) "hello world" None].

Definition helloWorld : World :=
  world [EmptyString] [cursor 1 1] None true None (Some helloItems).

(** "he" has been typed; the candidate "hello world" replaces it, and
    "llo world" is shown as ghost text at the cursor. *)
Definition typedItems : list InlineCompletionWithUpdatedRange :=
  [candidate "hello" (mkRange 1 1 1 3) "hello world" None].

Definition typedWorld : World :=
  world ["he"%string] [cursor 1 3] None true None (Some typedItems).

(** The same with a command attached to the candidate. *)
Definition commandItems (id : String.string) : list InlineCompletionWithUpdatedRange :=
  [candidate "hello" (mkRange 1 1 1 1) "hello world"
     (Some (mkCommand (Js.str id) None))].

Definition commandWorld (id : String.string) : World :=
  world [EmptyString] [cursor 1 1] None true None (Some (commandItems id)).

(** A suggest-widget item is selected, its preview is enabled, and no inline
    completion augments it. *)
Definition suggestWorld : World :=
  world ["fo"%string] [cursor 1 3]
    (Some (mkSuggestItemInfo 0 (mkSingleTextEdit (mkRange 1 1 1 3) (Js.str "foo"))))
    false None None.

(** Three candidates with distinct semantic ids. *)
Definition distinctItems : list InlineCompletionWithUpdatedRange :=
  [candidate "x" (mkRange 1 1 1 1) "xx" None;
   candidate "y" (mkRange 1 1 1 1) "yy" None;
   candidate "z" (mkRange 1 1 1 1) "zz" None].

(** Three candidates of which the last two share a semantic id. *)
Definition repeatedItems : list InlineCompletionWithUpdatedRange :=
  [candidate "x" (mkRange 1 1 1 1) "xx" None;
   candidate "y" (mkRange 1 1 1 1) "yy" None;
   candidate "y" (mkRange 1 1 1 2) "yy" None].

Definition poolWorld (items : list InlineCompletionWithUpdatedRange)
    (selected : option jsstring) : World :=
  world [EmptyString] [cursor 1 1] None true selected (Some items).

(** Two lines "ab", a cursor after each; the candidate replaces the "ab" of
    the first line by "abc". *)
Definition abDocument : ITextModel :=
  Lines.textModel 1 [Js.str "ab"; Js.str "ab"].

Definition abCompletion : SingleTextEdit :=
  mkSingleTextEdit (mkRange 1 1 1 3) (Js.str "abc").

(** Two lines "abab"; the primary cursor in the middle of the first, the
    secondary at the start of the second; the candidate replaces the whole
    first line. *)
Definition ababDocument : ITextModel :=
  Lines.textModel 1 [Js.str "abab"; Js.str "abab"].

Definition ababCompletion : SingleTextEdit :=
  mkSingleTextEdit (mkRange 1 1 1 5) (Js.str "ababc").

(** *** A multi-line editor *)

(** Position arithmetic over text with LF line ends, as the partial accept
    needs it: the position after a text that starts at (1,1), and the
    position reached from [p1] by a text of that length.  (utils.ts, where
    [lengthOfText] and [addPositions] live, is not among the sources.) *)
Definition lengthOfText (text : jsstring) : Position :=
  foldl (fun p c =>
           if (c =? Lines.LF)%N then mkPosition (lineNumber p + 1) 1
           else mkPosition (lineNumber p) (column p + 1))
    (mkPosition 1 1) text.

Definition addPositions (p1 p2 : Position) : Position :=
  mkPosition (lineNumber p1 + lineNumber p2 - 1)
    (if lineNumber p2 =? 1 then column p1 + column p2 - 1 else column p2).

Definition textEndOfText (p : Position) (text : jsstring) : Position :=
  addPositions p (lengthOfText text).

(** The lines of a text. *)
Fixpoint splitLines (s : jsstring) : list jsstring :=
  match s with
  | [] => [[]]
  | c :: s' =>
      if (c =? Lines.LF)%N then [] :: splitLines s'
      else match splitLines s' with
           | l :: ls => (c :: l) :: ls
           | [] => [[c]]
           end
  end.

(** Whether a range starts before another. *)
Definition startsBefore (a b : Range) : bool :=
  (startLineNumber a <? startLineNumber b)
  || ((startLineNumber a =? startLineNumber b) && (startColumn a <? startColumn b)).

(** Ranges after application, for edits in document order: each edit is
    moved by the lines and columns the edits before it add. *)
Fixpoint newRangesInOrder (edits : list SingleTextEdit)
    (previousEditEndLineNumber lineOffset columnOffset : Z) : list Range :=
  match edits with
  | [] => []
  | edit :: rest =>
      let textLength := lengthOfText (editText edit) in
      let r := editRange edit in
      let newRangeStart :=
        mkPosition (startLineNumber r + lineOffset)
          (startColumn r
           + (if startLineNumber r =? previousEditEndLineNumber
              then columnOffset else 0)) in
      let newRangeEnd := addPositions newRangeStart textLength in
      Rng.fromPositions newRangeStart newRangeEnd
      :: newRangesInOrder rest (endLineNumber r)
           (lineOffset + lineNumber textLength - endLineNumber r
            + startLineNumber r - 1)
           (column newRangeEnd - endColumn r)
  end.

(** Insertion of an indexed edit into a list sorted by start. *)
Fixpoint insertByStart (x : nat * SingleTextEdit)
    (l : list (nat * SingleTextEdit)) : list (nat * SingleTextEdit) :=
  match l with
  | [] => [x]
  | y :: l' =>
      if startsBefore (editRange (snd x)) (editRange (snd y)) then x :: y :: l'
      else y :: insertByStart x l'
  end.

Fixpoint rangeOfIndex (i : nat) (l : list (nat * Range)) : option Range :=
  match l with
  | [] => None
  | (j, r) :: l' => if bool_decide (j = i) then Some r else rangeOfIndex i l'
  end.

(** The new range of every edit, in the order the edits are given: the
    edits are sorted by start, moved, and put back in their order. *)
Definition textNewRanges (edits : list SingleTextEdit) : list Range :=
  let indexed := imap (fun i e => (i, e)) edits in
  let sorted := foldr insertByStart [] indexed in
  let ranges := zip (fst <$> sorted) (newRangesInOrder (snd <$> sorted) 0 0 0) in
  omap (fun i => rangeOfIndex i ranges) (seq 0 (List.length edits)).

(** One operation on a document given by its lines. *)
Definition applyOperation (line : Z -> jsstring) (op : EditOperation)
  : Z -> jsstring :=
  let r := opRange op in
  let before := Js.substring (line (startLineNumber r)) 0 (startColumn r - 1) in
  let after := Js.substring_from (line (endLineNumber r)) (endColumn r - 1) in
  let block :=
    match splitLines (opText op) with
    | [] => [before ++ after]
    | [l] => [before ++ l ++ after]
    | l :: ls => (before ++ l) :: take (List.length ls - 1) ls
                 ++ [List.last ls [] ++ after]
    end in
  let added := Z.of_nat (List.length block) in
  let removed := endLineNumber r - startLineNumber r + 1 in
  fun n =>
    if n <? startLineNumber r then line n
    else if n <? startLineNumber r + added
         then default [] (block !! Z.to_nat (n - startLineNumber r))
         else line (n - added + removed).

(** Insertion of an operation into a list sorted by start, last first. *)
Fixpoint insertLastFirst (x : EditOperation) (l : list EditOperation)
  : list EditOperation :=
  match l with
  | [] => [x]
  | y :: l' =>
      if startsBefore (opRange x) (opRange y) then y :: insertLastFirst x l'
      else x :: y :: l'
  end.

(** The text a document given by its lines holds in a range. *)
Definition valueInRangeOf (line : Z -> jsstring) (r : Range) : jsstring :=
  if startLineNumber r =? endLineNumber r
  then Js.substring (line (startLineNumber r)) (startColumn r - 1) (endColumn r - 1)
  else
    Js.substring_from (line (startLineNumber r)) (startColumn r - 1)
    ++ Lines.LF
       :: concat (List.map (fun n => line (startLineNumber r + Z.of_nat n) ++ [Lines.LF])
                    (seq 1 (Z.to_nat (endLineNumber r - startLineNumber r - 1))))
    ++ Js.substring (line (endLineNumber r)) 0 (endColumn r - 1).

(** An editor for operations that do not overlap: they are applied from
    the last one in the document to the first, so that the ranges of those
    still to apply stay valid. *)
Definition textApplyEdits (model : ITextModel) (ops : list EditOperation)
  : ITextModel :=
  let line := foldl applyOperation (getLineContent model)
                (foldr insertLastFirst [] ops) in
  mkTextModel (modelRef model) line (valueInRangeOf line).

(** The collaborators with the multi-line editor. *)
Definition textCollaborators (fetched : option UpToDateInlineCompletions)
  : Collaborators :=
  mkCollaborators
    textNewRanges textEndOfText
    (fun _ _ _ => true)
    (fun _ e _ => e)
    (fun _ _ => false)
    prefixGhostText
    (fun _ _ => simpleWordRegExp)
    plainCommandOutcome
    textApplyEdits
    (fun _ _ _ _ => fetched).

(** Two empty lines; the candidate "a", line feed, "b" is shown on the
    second. *)
Definition twoLineText : jsstring := [97; 10; 98]%N.

Definition twoLineItems : list InlineCompletionWithUpdatedRange :=
  [mkCandidate (Js.str "ab") false
     (mkInlineCompletionItem (mkRange 2 1 2 1) twoLineText twoLineText
        None [] None theList 0)].

(** One cursor, on the second line. *)
Definition oneCursorWorld : World :=
  world [EmptyString; EmptyString] [cursor 2 1] None true None (Some twoLineItems).

(** The primary cursor on the second line, a secondary one on the first. *)
Definition twoCursorWorld : World :=
  world [EmptyString; EmptyString] [cursor 2 1; cursor 1 1] None true None
    (Some twoLineItems).

End Scenario.

(* ===================================================================== *)
(** ** Further members of the model *)
(* ===================================================================== *)

#[global] Instance InlineCompletionTriggerKind_eq_dec :
  EqDecision InlineCompletionTriggerKind.
Proof. solve_decision. Defined.

Section ModelMore.

Variable env : Collaborators.

(** [lastTriggerKind]: the trigger kind of the request the current batch
    answers. *)
Definition lastTriggerKind : M (option InlineCompletionTriggerKind) :=
  v <- gets source_inlineCompletions ;;
  ret ((fun b => triggerKind (requestContext b)) <$> v).

(** [inlineCompletionsCount] *)
Definition inlineCompletionsCount : M (option Z) :=
  kind <- lastTriggerKind ;;
  if bool_decide (kind = Some Explicit) then
    items <- _filteredInlineCompletionItems env ;;
    ret (Some (arrayLength items))
  else ret None.

(** The derived [ghostTexts]. *)
Definition model_ghostTexts : M (option (list GhostTextOrReplacement)) :=
  v <- state env ;;
  match v with
  | None => ret None
  | Some v => ret (Some (ghostTexts v))
  end.

(** The derived [primaryGhostText]. *)
Definition model_primaryGhostText : M (option GhostTextOrReplacement) :=
  v <- state env ;;
  match v with
  | None => ret None
  | Some v => ret (primaryGhostText v)
  end.

(** [handleSuggestAccepted(item)] *)
Definition handleSuggestAccepted (item : SuggestItemInfo) : M unit :=
  model <- gets textModel ;;
  let itemEdit := removeCommonPrefix env model (suggestEdit item) None in
  augmentedCompletion <- _computeAugmentedCompletion env itemEdit ;;
  match augmentedCompletion with
  | None => ret tt
  | Some augmentedCompletion =>
      let inlineCompletion := toInlineCompletion (snd augmentedCompletion) in
      if providerHandlesPartialAccept (source inlineCompletion) then
        emit (EvHandlePartialAccept
                (listRef (source inlineCompletion))
                (sourceInlineCompletion inlineCompletion)
                (Js.length (editText itemEdit)))
      else ret tt
  end.

End ModelMore.

(** A call of the provider's optional [handleItemDidShow]. *)
Record ItemDidShow := mkItemDidShow {
  shownList : nat;
  shownItem : nat;
  shownInsertText : jsstring }.

(** One run of the constructor's autorun "call handleItemDidShow", on a
    value of [state]: the new [lastItem] and the calls made.
    [providerHandles] tells whether a list's provider defines the hook. *)
Definition handleItemDidShow_autorun
    (providerHandles : InlineCompletionList -> bool)
    (lastItem : option InlineCompletionWithUpdatedRange)
    (item : option State)
  : option InlineCompletionWithUpdatedRange * list ItemDidShow :=
  let completion := item ≫= inlineCompletion in
  if bool_decide ((semanticId <$> completion) = (semanticId <$> lastItem))
  then (lastItem, [])
  else
    (completion,
     match completion with
     | Some completion =>
         let i := toInlineCompletion completion in
         let src := source i in
         if providerHandles src
         then [mkItemDidShow (listRef src) (sourceInlineCompletion i) (insertText i)]
         else []
     | None => []
     end).

(** The autorun over the successive values of [state], from the initial
    [lastItem = undefined]: the calls made at each value. *)
Fixpoint handleItemDidShow_runs
    (providerHandles : InlineCompletionList -> bool)
    (lastItem : option InlineCompletionWithUpdatedRange)
    (items : list (option State)) : list (list ItemDidShow) :=
  match items with
  | [] => []
  | item :: rest =>
      let r := handleItemDidShow_autorun providerHandles lastItem item in
      snd r :: handleItemDidShow_runs providerHandles (fst r) rest
  end.

(* ===================================================================== *)
(** ** Notions used to state further properties *)
(* ===================================================================== *)

(** An expression whose matches are non-empty and lie within the text. *)
Definition regExpWellFormed (re : RegExp) : Prop :=
  forall text m, re text = Some m ->
    0 <= matchIndex m
    /\ matchText m <> []
    /\ matchIndex m + Js.length (matchText m) <= Js.length text.

(** References taken minus references released on list [r], in a log. *)
Fixpoint refBalance (r : nat) (l : list Event) : Z :=
  match l with
  | [] => 0
  | EvAddRef r' :: l' => (if bool_decide (r' = r) then 1 else 0) + refBalance r l'
  | EvRemoveRef r' :: l' => (if bool_decide (r' = r) then -1 else 0) + refBalance r l'
  | _ :: l' => refBalance r l'
  end.

(** The edit [_computeAugmentedCompletion] tests for a candidate. *)
Definition augmentationEdit (env : Collaborators) (model : ITextModel)
    (suggestCompletion : SingleTextEdit)
    (completion : InlineCompletionWithUpdatedRange) : SingleTextEdit :=
  let r := toSingleTextEdit (toInlineCompletion completion) in
  removeCommonPrefix env model r
    (Some (Rng.fromPositions (Rng.getStartPosition (editRange r))
             (Rng.getEndPosition (editRange suggestCompletion)))).

(** The candidates [_computeAugmentedCompletion] goes through: those of the
    suggest-widget batch when there is one, else the selected candidate. *)
Definition augmentationCandidates (env : Collaborators) (w : World)
  : list InlineCompletionWithUpdatedRange :=
  match source_suggestWidgetInlineCompletions w with
  | Some swic => inlineCompletions swic
  | None =>
      let l := filteredItems env w in
      let i := indexOfId l (_selectedInlineCompletionId w) in
      match arrayGet l (if i =? -1 then 0 else i) with
      | Some c => [c]
      | None => []
      end
  end.

(** A sequence of navigation steps: [true] for [next()], [false] for
    [previous()]. *)
Fixpoint navigate (env : Collaborators) (steps : list bool) : M unit :=
  match steps with
  | [] => ret tt
  | step :: rest =>
      bind (if step then next env else previous env) (fun _ => navigate env rest)
  end.

(** Forward steps minus backward steps. *)
Fixpoint netSteps (steps : list bool) : Z :=
  match steps with
  | [] => 0
  | step :: rest => (if step then 1 else -1) + netSteps rest
  end.

(** Two worlds that show the same to the derived values: they differ at most
    by their logs, by the partial-accept flag, and by a stored id that no
    visible candidate has and that the second world has already reset. *)
Definition sameView (env : Collaborators) (w w' : World) : Prop :=
  inputs w' = inputs w
  /\ textModel w' = textModel w
  /\ _isActive w' = _isActive w
  /\ source_inlineCompletions w' = source_inlineCompletions w
  /\ source_suggestWidgetInlineCompletions w'
     = source_suggestWidgetInlineCompletions w
  /\ (_selectedInlineCompletionId w' = _selectedInlineCompletionId w
      \/ (_selectedInlineCompletionId w' = None
          /\ indexOfId (filteredItems env w) (_selectedInlineCompletionId w) = -1)).

(** A computation whose result is the same in worlds that show the same, and
    that keeps what the world shows. *)
Definition respectsView {A} (env : Collaborators) (m : M A) : Prop :=
  forall w w', sameView env w w' ->
    fst (m w') = fst (m w)
    /\ sameView env (snd (m w)) (snd (m w'))
    /\ sameView env w (snd (m w)).

(* ===================================================================== *)
(** ** Strings and ranges: basic facts *)
(* ===================================================================== *)

Lemma commonPrefixLength_nonneg (a b : jsstring) : 0 <= commonPrefixLength a b.
Proof.
  revert b. induction a as [|x a IH]; intros [|y b]; simpl; try lia.
  destruct (x =? y)%N; [specialize (IH b)|]; lia.
Qed.

Lemma commonPrefixLength_longest (a b : jsstring) :
  is_longest_common_prefix (commonPrefixLength a b) a b.
Proof.
  unfold is_longest_common_prefix, Js.length.
  revert b. induction a as [|x a IH]; intros [|y b]; simpl.
  - repeat split; try lia. intros ? ? H; discriminate H.
  - repeat split; try lia. intros ? ? H; discriminate H.
  - repeat split; try lia. intros ? ? _ H; discriminate H.
  - destruct (N.eqb_spec x y) as [->|Hne].
    + destruct (IH b) as (Hk & Htake & Hnext).
      pose proof (commonPrefixLength_nonneg a b) as Hge.
      replace (Z.to_nat (1 + commonPrefixLength a b))
        with (S (Z.to_nat (commonPrefixLength a b))) by lia.
      simpl. repeat split; try lia.
      * now rewrite Htake.
      * exact Hnext.
    + simpl. repeat split; try lia.
      intros ? ? [= <-] [= <-]. exact Hne.
Qed.

Lemma fromPositions_delta (p : Position) (l : Z) :
  0 <= l ->
  Rng.fromPositions p (Pos.delta p 0 l)
  = mkRange (lineNumber p) (column p) (lineNumber p) (column p + l).
Proof.
  intros Hl. unfold Rng.fromPositions, Pos.delta, Pos.isBefore; simpl.
  replace (lineNumber p + 0) with (lineNumber p) by lia.
  rewrite Z.ltb_irrefl, Z.eqb_refl; simpl.
  destruct (Z.ltb_spec (column p + l) (column p)); [lia | reflexivity].
Qed.

Lemma secondaryEdit_shape (this_tm tm : ITextModel) (p0 p1 : Position)
    (completion : SingleTextEdit) :
  let k := commonPrefixLength
             (replacedTextAfterPrimaryCursor tm p0 completion)
             (textAfterSecondaryCursor this_tm p1) in
  secondaryEdit this_tm tm p0 completion p1
  = mkSingleTextEdit
      (mkRange (lineNumber p1) (column p1) (lineNumber p1) (column p1 + k))
      (secondaryEditText p0 completion).
Proof.
  intros k. unfold secondaryEdit. fold k.
  rewrite fromPositions_delta by apply commonPrefixLength_nonneg.
  reflexivity.
Qed.

(* ===================================================================== *)
(** ** Multi-cursor edits *)
(* ===================================================================== *)

(** C1 (as the code has it).  With a primary cursor [c0] and further cursors
    [rest], [_getEdits] returns one edit per cursor; the first is the
    candidate's own (range R, text T).  The edit of a secondary cursor starts
    at that cursor and spans the [k] columns of the longest common prefix of
    the cursor's trailing line text with the text of the primary line between
    the primary cursor and the end column of R; it inserts T from offset
    (primary column - start column of R) on.  With [k = 0] the edit is still
    there, as an empty range at the cursor. *)
Theorem getEdits_one_edit_per_cursor
    (newRangesOf : list SingleTextEdit -> list Range) (tm : ITextModel)
    (c0 : Selection) (rest : list Selection) (completion : SingleTextEdit) :
  exists edits sels,
    _getEdits newRangesOf tm tm (c0 :: rest) completion = Returns (edits, sels)
    /\ List.length edits = List.length (c0 :: rest)
    /\ edits !! 0%nat
       = Some (mkSingleTextEdit (editRange completion) (editText completion))
    /\ forall (i : nat) (c1 : Selection), rest !! i = Some c1 ->
         let p0 := Sel.getPosition c0 in
         let p1 := Sel.getPosition c1 in
         exists (k : Z) (e : SingleTextEdit),
           edits !! S i = Some e
           /\ is_longest_common_prefix k
                (Js.substring (getLineContent tm (lineNumber p0))
                   (column p0 - 1) (endColumn (editRange completion) - 1))
                (Js.substring_from (getLineContent tm (lineNumber p1))
                   (column p1 - 1))
           /\ editRange e
              = mkRange (lineNumber p1) (column p1) (lineNumber p1) (column p1 + k)
           /\ editText e
              = Js.substring_from (editText completion)
                  (column p0 - startColumn (editRange completion))
           /\ (k = 0 -> Rng.isEmpty (editRange e) = true
                        /\ Rng.getStartPosition (editRange e) = p1).
Proof.
  unfold _getEdits.
  change ((c0 :: rest) !! 0%nat) with (Some c0).
  change (drop 1 (c0 :: rest)) with rest.
  eexists _, _. split; [reflexivity|].
  split; [simpl; now rewrite !length_map|].
  split; [reflexivity|].
  intros i c1 Hi.
  exists (commonPrefixLength
            (replacedTextAfterPrimaryCursor tm (Sel.getPosition c0) completion)
            (textAfterSecondaryCursor tm (Sel.getPosition c1))).
  eexists. split.
  { change (?x :: ?l) with ([x] ++ l) at 1.
    rewrite lookup_app_r by (simpl; lia).
    replace (S i - List.length [mkSingleTextEdit (editRange completion)
                                  (editText completion)])%nat with i
      by (simpl; lia).
    rewrite (list_lookup_fmap (secondaryEdit tm tm (Sel.getPosition c0) completion)).
    rewrite (list_lookup_fmap Sel.getPosition), Hi. simpl.
    rewrite secondaryEdit_shape. reflexivity. }
  split; [apply commonPrefixLength_longest|].
  split; [reflexivity|].
  split; [reflexivity|].
  intros Hk. simpl. rewrite Hk.
  unfold Rng.isEmpty, Rng.getStartPosition; simpl.
  rewrite Z.add_0_r, !Z.eqb_refl. split; [reflexivity|].
  now destruct (Sel.getPosition c1).
Qed.

(** C1 (as worded) fails.  In the scenario of two cursors that both follow
    "ab", with a candidate replacing the first "ab" by "abc", the secondary
    edit inserts "c", not the primary edit's "abc".  And with the primary
    cursor inside the replaced text "abab", the secondary edit spans 2
    columns, not the 4 that the common prefix with the whole replaced text
    has. *)
Lemma getEdits_secondary_edit_not_as_worded :
  (exists e1 sels,
     _getEdits Scenario.plainNewRanges Scenario.abDocument Scenario.abDocument
       [Scenario.cursor 1 3; Scenario.cursor 2 3] Scenario.abCompletion
     = Returns ([Scenario.abCompletion; e1], sels)
     /\ editText e1 = Js.str "c"
     /\ editText (secondaryEdit_as_specified Scenario.abDocument
                    Scenario.abCompletion (mkPosition 2 3)) = Js.str "abc"
     /\ e1 <> secondaryEdit_as_specified Scenario.abDocument
                Scenario.abCompletion (mkPosition 2 3))
  /\ (exists e0 e1 sels,
        _getEdits Scenario.plainNewRanges Scenario.ababDocument
          Scenario.ababDocument
          [Scenario.cursor 1 3; Scenario.cursor 2 1] Scenario.ababCompletion
        = Returns ([e0; e1], sels)
        /\ Rng.width (editRange e1) = 2
        /\ Rng.width (editRange (secondaryEdit_as_specified Scenario.ababDocument
                                   Scenario.ababCompletion (mkPosition 2 1))) = 4).
Proof.
  split.
  - eexists _, _. split; [vm_compute; reflexivity|].
    repeat split; try reflexivity. vm_compute. discriminate.
  - eexists _, _, _. split; [vm_compute; reflexivity|].
    split; reflexivity.
Qed.

(* ===================================================================== *)
(** ** Partial accept: the word boundary *)
(* ===================================================================== *)

Lemma takeWhile_all (p : N -> bool) (s : jsstring) :
  Forall (fun c => p c = true) (takeWhile p s).
Proof.
  induction s as [|c s IH]; simpl; [constructor|].
  destruct (p c) eqn:Hc; constructor; assumption.
Qed.

Lemma takeWhile_split (p : N -> bool) (s : jsstring) :
  exists post, s = takeWhile p s ++ post
               /\ forall c, head post = Some c -> p c = false.
Proof.
  induction s as [|c s (post & Hs & Hpost)]; simpl.
  - exists []. split; [reflexivity | intros ? [=]].
  - destruct (p c) eqn:Hc.
    + exists post. split; [simpl; congruence | exact Hpost].
    + exists (c :: s). split; [reflexivity|]. simpl. intros ? [= <-]. exact Hc.
Qed.

(** What [/C+/] finds: the leftmost run of class characters, as long as it
    goes. *)
Lemma firstRun_leftmost_longest (p : N -> bool) (s : jsstring) (i : Z)
    (m : RegExpMatch) :
  firstRun p s i = Some m ->
  exists pre post,
    s = pre ++ matchText m ++ post
    /\ matchIndex m = i + Js.length pre
    /\ Forall (fun c => p c = false) pre
    /\ Forall (fun c => p c = true) (matchText m)
    /\ matchText m <> []
    /\ forall c, head post = Some c -> p c = false.
Proof.
  revert i. induction s as [|c s IH]; intros i; simpl; [discriminate|].
  destruct (p c) eqn:Hc.
  - intros [= <-]. simpl.
    destruct (takeWhile_split p s) as (post & Hs & Hpost).
    exists [], post. simpl. repeat split.
    + now rewrite <- Hs.
    + unfold Js.length; simpl; lia.
    + constructor.
    + constructor; [exact Hc | apply takeWhile_all].
    + discriminate.
    + exact Hpost.
  - intros Hm. destruct (IH _ Hm) as (pre & post & Hs & Hi & Hpre & Hrun & Hne & Hpost).
    exists (c :: pre), post. repeat split; try assumption.
    + simpl. now rewrite <- Hs.
    + rewrite Hi. unfold Js.length; simpl; lia.
    + constructor; assumption.
Qed.


(* ===================================================================== *)
(** ** Selection by semantic id *)
(* ===================================================================== *)

Lemma findIndexFrom_found {A} (p : A -> bool) (l : list A) (i : Z) :
  findIndexFrom p l i = -1 /\ Forall (fun x => p x = false) l
  \/ exists (n : nat) (x : A),
       findIndexFrom p l i = i + Z.of_nat n
       /\ l !! n = Some x /\ p x = true
       /\ forall (j : nat) (y : A), (j < n)%nat -> l !! j = Some y -> p y = false.
Proof.
  revert i. induction l as [|x l IH]; intros i; simpl.
  - left. split; [reflexivity | constructor].
  - destruct (p x) eqn:Hx.
    + right. exists 0%nat, x. repeat split; [lia | assumption | intros; lia].
    + destruct (IH (i + 1)) as [[Hnone Hall] | (n & y & Hidx & Hy & Hpy & Hbefore)].
      * left. split; [assumption | constructor; assumption].
      * right. exists (S n), y. repeat split; [lia | assumption | assumption |].
        intros [|j] z Hj Hz; simpl in Hz; [congruence|].
        apply (Hbefore j); [lia | assumption].
Qed.

Lemma findIndex_cases {A} (p : A -> bool) (l : list A) :
  findIndex p l = -1 /\ Forall (fun x => p x = false) l
  \/ exists (n : nat) (x : A),
       findIndex p l = Z.of_nat n
       /\ l !! n = Some x /\ p x = true
       /\ forall (j : nat) (y : A), (j < n)%nat -> l !! j = Some y -> p y = false.
Proof. apply (findIndexFrom_found p l 0). Qed.

Lemma semanticId_strictEq_true (id : jsstring) (selected : option jsstring) :
  semanticId_strictEq id selected = true <-> selected = Some id.
Proof.
  destruct selected as [s|]; simpl; [|split; discriminate].
  rewrite bool_decide_eq_true. split; congruence.
Qed.

Lemma arrayGet_of_nat {A} (l : list A) (n : nat) :
  arrayGet l (Z.of_nat n) = l !! n.
Proof.
  unfold arrayGet. destruct (Z.ltb_spec (Z.of_nat n) 0); [lia|].
  now rewrite Nat2Z.id.
Qed.

Section SelectionFacts.

Variable env : Collaborators.

Lemma run_filtered (w : World) :
  _filteredInlineCompletionItems env w = (Returns (filteredItems env w), w).
Proof.
  unfold _filteredInlineCompletionItems, filteredItems, visibleItems, bind, gets.
  destruct (source_inlineCompletions w); reflexivity.
Qed.

Lemma run_selectedIndex (w : World) :
  selectedInlineCompletionIndex env w
  = let i := indexOfId (filteredItems env w) (_selectedInlineCompletionId w) in
    if i =? -1 then (Returns 0, set_selectedInlineCompletionId None w)
    else (Returns i, w).
Proof.
  unfold selectedInlineCompletionIndex, bind at 1, gets at 1.
  unfold bind at 1. rewrite run_filtered.
  unfold selectedIdObservable_isUndefined, indexOfId. cbv zeta.
  destruct (_ =? -1); reflexivity.
Qed.

Lemma run_selected (w : World) :
  selectedInlineCompletion env w
  = let l := filteredItems env w in
    let i := indexOfId l (_selectedInlineCompletionId w) in
    if i =? -1 then (Returns (arrayGet l 0), set_selectedInlineCompletionId None w)
    else (Returns (arrayGet l i), w).
Proof.
  unfold selectedInlineCompletion, bind at 1. rewrite run_filtered.
  unfold bind. rewrite run_selectedIndex. cbv zeta.
  destruct (_ =? -1); reflexivity.
Qed.

End SelectionFacts.

(** C3.  The filtered list being [l]: when the stored semantic id is [id]
    and some candidate of [l] has it, [selectedInlineCompletionIndex] returns
    the position of the (first) candidate with that id and leaves the stored
    id alone, so the selected candidate has that id wherever it stands in the
    list (in this batch and in any other that still holds the id); when no
    candidate of [l] has the stored id, the stored id becomes [undefined] and
    the index returned is 0. *)
Theorem selectedInlineCompletionIndex_tracks_identity
    (env : Collaborators) (w : World) :
  let l := filteredItems env w in
  _filteredInlineCompletionItems env w = (Returns l, w)
  /\ (forall (id : jsstring) (c : InlineCompletionWithUpdatedRange),
        _selectedInlineCompletionId w = Some id -> c ∈ l -> semanticId c = id ->
        exists (i : nat) (c' : InlineCompletionWithUpdatedRange),
          selectedInlineCompletionIndex env w = (Returns (Z.of_nat i), w)
          /\ l !! i = Some c' /\ semanticId c' = id
          /\ (forall (j : nat) c'', (j < i)%nat -> l !! j = Some c'' ->
                semanticId c'' <> id)
          /\ selectedInlineCompletion env w = (Returns (Some c'), w))
  /\ (forall (w2 : World) (id : jsstring) c1 c2,
        _selectedInlineCompletionId w = Some id ->
        _selectedInlineCompletionId w2 = Some id ->
        c1 ∈ l -> semanticId c1 = id ->
        c2 ∈ filteredItems env w2 -> semanticId c2 = id ->
        exists s1 s2,
          selectedInlineCompletion env w = (Returns (Some s1), w)
          /\ selectedInlineCompletion env w2 = (Returns (Some s2), w2)
          /\ semanticId s1 = id /\ semanticId s2 = id)
  /\ ((forall c, c ∈ l -> Some (semanticId c) <> _selectedInlineCompletionId w) ->
      selectedInlineCompletionIndex env w
      = (Returns 0, set_selectedInlineCompletionId None w)).
Proof.
  intros l.
  assert (Hfound : forall (w0 : World) (id : jsstring) c,
    _selectedInlineCompletionId w0 = Some id ->
    c ∈ filteredItems env w0 -> semanticId c = id ->
    exists (i : nat) (c' : InlineCompletionWithUpdatedRange),
      selectedInlineCompletionIndex env w0 = (Returns (Z.of_nat i), w0)
      /\ filteredItems env w0 !! i = Some c' /\ semanticId c' = id
      /\ (forall (j : nat) c'', (j < i)%nat -> filteredItems env w0 !! j = Some c'' ->
            semanticId c'' <> id)
      /\ selectedInlineCompletion env w0 = (Returns (Some c'), w0)).
  { intros w0 id c Hsel Hin Hid.
    rewrite run_selectedIndex, run_selected. unfold indexOfId. cbv zeta.
    destruct (findIndex_cases
                (fun v => semanticId_strictEq (semanticId v) (_selectedInlineCompletionId w0))
                (filteredItems env w0))
      as [[_ Hall] | (n & x & Hidx & Hx & Hpx & Hbefore)].
    - rewrite list.Forall_forall in Hall. specialize (Hall c Hin). simpl in Hall.
      rewrite Hsel, <- Hid in Hall. simpl in Hall.
      rewrite bool_decide_eq_false in Hall. congruence.
    - rewrite Hidx. destruct (Z.eqb_spec (Z.of_nat n) (-1)); [lia|].
      apply semanticId_strictEq_true in Hpx. rewrite Hsel in Hpx.
      exists n, x. repeat split; try assumption.
      + congruence.
      + intros j y Hj Hy Hcontra. specialize (Hbefore j y Hj Hy). simpl in Hbefore.
        rewrite Hsel, Hcontra in Hbefore. simpl in Hbefore.
        rewrite bool_decide_eq_false in Hbefore. congruence.
      + now rewrite arrayGet_of_nat, Hx. }
  split; [apply run_filtered|].
  split; [intros id c; apply Hfound|].
  split.
  { intros w2 id c1 c2 Hs1 Hs2 Hin1 Hid1 Hin2 Hid2.
    destruct (Hfound w id c1 Hs1 Hin1 Hid1) as (i1 & s1 & _ & _ & Hs1id & _ & Hrun1).
    destruct (Hfound w2 id c2 Hs2 Hin2 Hid2) as (i2 & s2 & _ & _ & Hs2id & _ & Hrun2).
    exists s1, s2. auto. }
  intros Hnone. rewrite run_selectedIndex. unfold indexOfId. cbv zeta.
  destruct (findIndex_cases
              (fun v => semanticId_strictEq (semanticId v) (_selectedInlineCompletionId w))
              (filteredItems env w))
    as [[Hidx _] | (n & x & _ & Hx & Hpx & _)].
  - now rewrite Hidx.
  - exfalso. apply semanticId_strictEq_true in Hpx.
    apply (Hnone x); [|congruence].
    apply list_elem_of_lookup. eauto.
Qed.

(** C3 at work on three candidates: the stored id "y" is found, at the
    position of its candidate. *)
Lemma selectedInlineCompletionIndex_tracks_identity_witness :
  let w := Scenario.poolWorld Scenario.distinctItems (Some (Js.str "y")) in
  let l := filteredItems (Scenario.collaborators None) w in
  exists (i : nat) (c' : InlineCompletionWithUpdatedRange),
    selectedInlineCompletionIndex (Scenario.collaborators None) w
    = (Returns (Z.of_nat i), w)
    /\ l !! i = Some c' /\ semanticId c' = Js.str "y"
    /\ (forall (j : nat) c'', (j < i)%nat -> l !! j = Some c'' ->
          semanticId c'' <> Js.str "y")
    /\ selectedInlineCompletion (Scenario.collaborators None) w
       = (Returns (Some c'), w).
Proof.
  refine (proj1 (proj2 (selectedInlineCompletionIndex_tracks_identity
                          (Scenario.collaborators None)
                          (Scenario.poolWorld Scenario.distinctItems
                             (Some (Js.str "y")))))
            (Js.str "y")
            (Scenario.candidate "y" (mkRange 1 1 1 1) "yy" None) _ _ _).
  - reflexivity.
  - apply list_elem_of_lookup. exists 1%nat. reflexivity.
  - reflexivity.
Defined.

(** C10.  Whenever the filtered list is not empty, the index computed by
    [selectedInlineCompletionIndex] lies within it and
    [selectedInlineCompletion] is a candidate of the list, whatever the
    stored id is. *)
Theorem selectedInlineCompletion_defined_when_nonempty
    (env : Collaborators) (w : World)
    (l : list InlineCompletionWithUpdatedRange) :
  _filteredInlineCompletionItems env w = (Returns l, w) ->
  l <> [] ->
  exists (i : Z) (c : InlineCompletionWithUpdatedRange) (w' : World),
    selectedInlineCompletionIndex env w = (Returns i, w')
    /\ 0 <= i < arrayLength l
    /\ arrayGet l i = Some c
    /\ selectedInlineCompletion env w = (Returns (Some c), w').
Proof.
  intros Hl Hne. rewrite run_filtered in Hl. injection Hl as Hl.
  rewrite run_selectedIndex, run_selected. unfold indexOfId. cbv zeta.
  rewrite Hl.
  destruct (findIndex_cases
              (fun v => semanticId_strictEq (semanticId v) (_selectedInlineCompletionId w))
              l)
    as [[Hidx _] | (n & x & Hidx & Hx & _ & _)]; rewrite Hidx.
  - destruct l as [|c l']; [congruence|].
    exists 0, c, (set_selectedInlineCompletionId None w). simpl.
    repeat split; try reflexivity; unfold arrayLength; simpl; lia.
  - destruct (Z.eqb_spec (Z.of_nat n) (-1)); [lia|].
    exists (Z.of_nat n), x, w. rewrite arrayGet_of_nat.
    repeat split; try assumption; try lia; try (now rewrite Hx).
    apply lookup_lt_Some in Hx. unfold arrayLength. lia.
Qed.

(** C10 at work: three candidates and a stored id that none of them has. *)
Lemma selectedInlineCompletion_defined_when_nonempty_witness :
  exists (i : Z) (c : InlineCompletionWithUpdatedRange) (w' : World),
    selectedInlineCompletionIndex (Scenario.collaborators None)
      (Scenario.poolWorld Scenario.distinctItems (Some (Js.str "gone")))
    = (Returns i, w')
    /\ 0 <= i < arrayLength Scenario.distinctItems
    /\ arrayGet Scenario.distinctItems i = Some c
    /\ selectedInlineCompletion (Scenario.collaborators None)
         (Scenario.poolWorld Scenario.distinctItems (Some (Js.str "gone")))
       = (Returns (Some c), w').
Proof.
  apply (selectedInlineCompletion_defined_when_nonempty
           (Scenario.collaborators None)
           (Scenario.poolWorld Scenario.distinctItems (Some (Js.str "gone")))
           Scenario.distinctItems).
  - reflexivity.
  - discriminate.
Defined.

(* ===================================================================== *)
(** ** Cyclic navigation *)
(* ===================================================================== *)

(** The index [selectedInlineCompletionIndex] returns: the position of the
    stored id, or 0. *)
Lemma selectedIndex_value (env : Collaborators) (w : World) :
  fst (selectedInlineCompletionIndex env w)
  = Returns (let i := indexOfId (filteredItems env w) (_selectedInlineCompletionId w) in
             if i =? -1 then 0 else i).
Proof.
  rewrite run_selectedIndex. cbv zeta. destruct (_ =? -1); reflexivity.
Qed.

Lemma indexOfId_None (l : list InlineCompletionWithUpdatedRange) :
  indexOfId l None = -1.
Proof.
  unfold indexOfId, findIndex. generalize 0.
  induction l as [|x l IH]; intros i; simpl; [reflexivity | apply IH].
Qed.

Lemma indexOfId_range (l : list InlineCompletionWithUpdatedRange)
    (s : option jsstring) :
  indexOfId l s = -1 \/ 0 <= indexOfId l s < arrayLength l.
Proof.
  unfold indexOfId.
  destruct (findIndex_cases (fun v => semanticId_strictEq (semanticId v) s) l)
    as [[H _] | (n & x & H & Hx & _)]; [left; exact H | right].
  apply lookup_lt_Some in Hx. unfold arrayLength. lia.
Qed.

(** With pairwise distinct ids, the id of the candidate at a position is
    found at that position. *)
Lemma indexOfId_NoDup (l : list InlineCompletionWithUpdatedRange) (j : nat)
    (c : InlineCompletionWithUpdatedRange) :
  NoDup (List.map semanticId l) -> l !! j = Some c ->
  indexOfId l (Some (semanticId c)) = Z.of_nat j.
Proof.
  intros Hnd Hj. unfold indexOfId.
  destruct (findIndex_cases
              (fun v => semanticId_strictEq (semanticId v) (Some (semanticId c))) l)
    as [[_ Hall] | (n & x & Hidx & Hx & Hpx & _)].
  - rewrite list.Forall_forall in Hall.
    assert (Hc : c ∈ l) by (apply list_elem_of_lookup; eauto).
    specialize (Hall c Hc). simpl in Hall.
    rewrite bool_decide_eq_false in Hall. congruence.
  - rewrite Hidx. f_equal.
    apply semanticId_strictEq_true in Hpx. injection Hpx as Hpx.
    apply (NoDup_lookup (List.map semanticId l) n j (semanticId c)).
    + exact Hnd.
    + change (List.map semanticId l) with (semanticId <$> l).
      rewrite list_lookup_fmap, Hx. simpl. congruence.
    + change (List.map semanticId l) with (semanticId <$> l).
      now rewrite list_lookup_fmap, Hj.
Qed.

Section Navigation.

Variable env : Collaborators.

(** What [triggerExplicitly] leaves behind when the pool stays [l]: the same
    pool, and the stored id reset exactly when it is not in the pool. *)
Lemma run_triggerExplicitly (w : World)
    (l : list InlineCompletionWithUpdatedRange) :
  poolUnchanged env w l ->
  exists w',
    triggerExplicitly env w = (Returns tt, w')
    /\ poolUnchanged env w' l
    /\ _selectedInlineCompletionId w'
       = (if indexOfId l (_selectedInlineCompletionId w) =? -1 then None
          else _selectedInlineCompletionId w).
Proof.
  intros [Hl Hfetch].
  unfold triggerExplicitly, _fetchInlineCompletions, transaction.
  unfold bind at 1. unfold modify at 1.
  set (w1 := add_log _ _).
  assert (Hl1 : filteredItems env w1 = l) by exact Hl.
  unfold bind at 1, gets at 1. unfold bind at 1, gets at 1.
  unfold bind at 1, gets at 1.
  replace (_isActive w1) with true by reflexivity.
  rewrite orb_true_r. cbn [negb].
  unfold bind at 1. rewrite run_selected. cbv zeta. rewrite Hl1.
  replace (_selectedInlineCompletionId w1) with (_selectedInlineCompletionId w)
    by reflexivity.
  subst w1. clear Hl1.
  destruct w as [[sugg sels spe spm ism en] tm act sid part src swic lg].
  unfold filteredItems in Hl. cbn in Hl, Hfetch |- *.
  destruct (indexOfId l sid =? -1);
    unfold bind, gets, modify, emit, ret; cbn;
    destruct swic as [swic|]; destruct sugg as [si|];
    try destruct src as [ic|]; cbn;
    try match goal with
        | |- context [if ?c then [WSourceSeed] else _] => destruct c; cbn
        end;
    eexists; (split; [reflexivity|]);
    (split; [split; [exact (Hfetch _ _ _ _) | exact Hfetch] | reflexivity]).
Qed.

(** One step of navigation over an unchanged, non-empty pool. *)
Lemma run_deltaSelectedInlineCompletionIndex (w : World)
    (l : list InlineCompletionWithUpdatedRange) (delta : Z) :
  poolUnchanged env w l -> l <> [] -> -1 <= delta ->
  let idx := let i := indexOfId l (_selectedInlineCompletionId w) in
             if i =? -1 then 0 else i in
  exists w' c,
    _deltaSelectedInlineCompletionIndex env delta w = (Returns tt, w')
    /\ poolUnchanged env w' l
    /\ arrayGet l (Z.rem (idx + delta + arrayLength l) (arrayLength l)) = Some c
    /\ _selectedInlineCompletionId w' = Some (semanticId c).
Proof.
  intros Hpool Hne Hdelta idx.
  destruct (run_triggerExplicitly w l Hpool) as (w1 & Hrun & [Hl1 Hfetch1] & Hsel1).
  set (sid1 := if indexOfId l (_selectedInlineCompletionId w) =? -1
               then None else _selectedInlineCompletionId w) in Hsel1.
  assert (Hidx1 : (if indexOfId l sid1 =? -1 then 0 else indexOfId l sid1) = idx).
  { subst idx sid1. cbv zeta.
    destruct (indexOfId l (_selectedInlineCompletionId w) =? -1) eqn:E;
      [now rewrite indexOfId_None | now rewrite E]. }
  assert (Hlen : 0 < arrayLength l).
  { destruct l; [congruence | unfold arrayLength; simpl; lia]. }
  assert (Hrange : 0 <= idx < arrayLength l).
  { subst idx. cbv zeta.
    destruct (indexOfId_range l (_selectedInlineCompletionId w)) as [E|E].
    - rewrite E. simpl. lia.
    - destruct (Z.eqb_spec (indexOfId l (_selectedInlineCompletionId w)) (-1)); lia. }
  assert (Hnew : 0 <= Z.rem (idx + delta + arrayLength l) (arrayLength l)
                 < arrayLength l).
  { rewrite Z.rem_mod_nonneg by lia. apply Z.mod_pos_bound. lia. }
  set (newIdx := Z.rem (idx + delta + arrayLength l) (arrayLength l)) in *.
  destruct (arrayGet l newIdx) as [c|] eqn:Hget.
  2:{ exfalso. unfold arrayGet in Hget.
      destruct (Z.ltb_spec newIdx 0); [lia|].
      apply lookup_ge_None in Hget. unfold arrayLength in Hnew. lia. }
  unfold _deltaSelectedInlineCompletionIndex.
  unfold bind at 1. rewrite Hrun.
  unfold bind at 1. rewrite run_filtered, Hl1.
  destruct (Z.ltb_spec 0 (arrayLength l)) as [_|]; [|lia].
  unfold bind at 1. rewrite run_selectedIndex. cbv zeta. rewrite Hl1, Hsel1.
  unfold Js.rem.
  destruct (indexOfId l sid1 =? -1); rewrite Hidx1; fold newIdx; rewrite Hget;
    (eexists _, c; split; [reflexivity|];
     split; [split; assumption | split; reflexivity]).
Qed.

End Navigation.

Lemma cyclic_step_back (i n : Z) :
  0 <= i < n ->
  Z.rem (Z.rem (i + 1 + n) n + -1 + n) n = i.
Proof.
  intros Hi.
  assert (H1 : Z.rem (i + 1 + n) n = if i + 1 <? n then i + 1 else 0).
  { rewrite Z.rem_mod_nonneg by lia.
    destruct (Z.ltb_spec (i + 1) n).
    - replace (i + 1 + n) with (i + 1 + 1 * n) by lia.
      rewrite Z.mod_add by lia. apply Z.mod_small. lia.
    - replace (i + 1 + n) with (0 + 2 * n) by lia.
      rewrite Z.mod_add by lia. apply Z.mod_small. lia. }
  rewrite H1. rewrite Z.rem_mod_nonneg by (destruct (i + 1 <? n); lia).
  destruct (Z.ltb_spec (i + 1) n).
  - replace (i + 1 + -1 + n) with (i + 1 * n) by lia.
    rewrite Z.mod_add by lia. apply Z.mod_small. lia.
  - rewrite Z.mod_small by lia. lia.
Qed.

Lemma arrayGet_lookup {A} (l : list A) (i : Z) (x : A) :
  arrayGet l i = Some x -> 0 <= i /\ l !! Z.to_nat i = Some x.
Proof.
  unfold arrayGet. destruct (Z.ltb_spec i 0); [discriminate|]. auto.
Qed.

(** C8 (as the code has it).  Over a candidate pool that stays the non-empty
    list [l] and whose semantic ids are pairwise distinct, [next()] followed
    by [previous()] selects the candidate that was selected before.  Each
    step stores the id of the candidate at
    (index + delta + length) % length; over an empty pool it stores
    [undefined]. *)
Theorem next_previous_restores_selection
    (env : Collaborators) (w : World)
    (l : list InlineCompletionWithUpdatedRange) :
  poolUnchanged env w l ->
  (l <> [] -> NoDup (List.map semanticId l) ->
   exists w1 w2 c,
     next env w = (Returns tt, w1)
     /\ previous env w1 = (Returns tt, w2)
     /\ fst (selectedInlineCompletion env w) = Returns (Some c)
     /\ fst (selectedInlineCompletion env w2) = Returns (Some c)
     /\ fst (selectedInlineCompletionIndex env w2)
        = fst (selectedInlineCompletionIndex env w))
  /\ (l <> [] -> forall delta : Z, delta = 1 \/ delta = -1 ->
      exists idx w1 c,
        fst (selectedInlineCompletionIndex env w) = Returns idx
        /\ _deltaSelectedInlineCompletionIndex env delta w = (Returns tt, w1)
        /\ arrayGet l (Z.rem (idx + delta + arrayLength l) (arrayLength l)) = Some c
        /\ _selectedInlineCompletionId w1 = Some (semanticId c))
  /\ (l = [] -> forall delta : Z,
      exists w1,
        _deltaSelectedInlineCompletionIndex env delta w = (Returns tt, w1)
        /\ _selectedInlineCompletionId w1 = None).
Proof.
  intros Hpool. split; [|split].
  - intros Hne Hnd.
    pose proof Hpool as [Hl _].
    set (idx0 := let i := indexOfId l (_selectedInlineCompletionId w) in
                 if i =? -1 then 0 else i).
    assert (Hrange : 0 <= idx0 < arrayLength l).
    { subst idx0. cbv zeta.
      destruct (indexOfId_range l (_selectedInlineCompletionId w)) as [E|E].
      - rewrite E. simpl. destruct l; [congruence | unfold arrayLength; simpl; lia].
      - destruct (Z.eqb_spec (indexOfId l (_selectedInlineCompletionId w)) (-1)); lia. }
    destruct (run_deltaSelectedInlineCompletionIndex env w l 1 Hpool Hne ltac:(lia))
      as (w1 & c1 & Hrun1 & Hpool1 & Hget1 & Hsel1).
    fold idx0 in Hget1.
    destruct (arrayGet_lookup _ _ _ Hget1) as [Hj1 Hlook1].
    pose proof (indexOfId_NoDup l _ c1 Hnd Hlook1) as Hidx1.
    rewrite Z2Nat.id in Hidx1 by exact Hj1.
    destruct (run_deltaSelectedInlineCompletionIndex env w1 l (-1) Hpool1 Hne ltac:(lia))
      as (w2 & c2 & Hrun2 & [Hl2 _] & Hget2 & Hsel2).
    rewrite Hsel1, Hidx1 in Hget2. cbv zeta in Hget2.
    destruct (Z.eqb_spec (Z.rem (idx0 + 1 + arrayLength l) (arrayLength l)) (-1));
      [lia|].
    rewrite cyclic_step_back in Hget2 by exact Hrange.
    destruct (arrayGet_lookup _ _ _ Hget2) as [_ Hlook2].
    pose proof (indexOfId_NoDup l _ c2 Hnd Hlook2) as Hidx2.
    rewrite Z2Nat.id in Hidx2 by lia.
    assert (Hbefore : selectedInlineCompletion env w
                      = (Returns (Some c2),
                         if indexOfId l (_selectedInlineCompletionId w) =? -1
                         then set_selectedInlineCompletionId None w else w)).
    { rewrite run_selected. cbv zeta. rewrite Hl. subst idx0. cbv zeta in Hget2.
      destruct (indexOfId l (_selectedInlineCompletionId w) =? -1);
        now rewrite Hget2. }
    exists w1, w2, c2. split; [exact Hrun1|]. split; [exact Hrun2|].
    split; [now rewrite Hbefore|].
    split.
    + rewrite run_selected. cbv zeta. rewrite Hl2, Hsel2, Hidx2.
      destruct (Z.eqb_spec idx0 (-1)); [lia|]. simpl. exact (f_equal Returns Hget2).
    + rewrite !selectedIndex_value. cbv zeta. rewrite Hl, Hl2, Hsel2, Hidx2.
      destruct (Z.eqb_spec idx0 (-1)); [lia|]. reflexivity.
  - intros Hne delta Hdelta.
    destruct (run_deltaSelectedInlineCompletionIndex env w l delta Hpool Hne
                ltac:(lia))
      as (w1 & c & Hrun & _ & Hget & Hsel).
    eexists _, w1, c. split; [apply selectedIndex_value|].
    destruct Hpool as [Hl _]. rewrite Hl. auto.
  - intros -> delta.
    destruct (run_triggerExplicitly env w [] Hpool) as (w1 & Hrun & [Hl1 _] & _).
    unfold _deltaSelectedInlineCompletionIndex.
    unfold bind at 1. rewrite Hrun.
    unfold bind at 1. rewrite run_filtered, Hl1. simpl.
    eexists. split; reflexivity.
Qed.

(** C8 at work: three candidates with distinct ids, "y" selected. *)
Lemma next_previous_restores_selection_witness :
  let env := Scenario.collaborators (Some (Scenario.batch Scenario.distinctItems)) in
  let w := Scenario.poolWorld Scenario.distinctItems (Some (Js.str "y")) in
  exists w1 w2 c,
    next env w = (Returns tt, w1)
    /\ previous env w1 = (Returns tt, w2)
    /\ fst (selectedInlineCompletion env w) = Returns (Some c)
    /\ fst (selectedInlineCompletion env w2) = Returns (Some c)
    /\ fst (selectedInlineCompletionIndex env w2)
       = fst (selectedInlineCompletionIndex env w).
Proof.
  refine (proj1 (next_previous_restores_selection
                   (Scenario.collaborators (Some (Scenario.batch Scenario.distinctItems)))
                   (Scenario.poolWorld Scenario.distinctItems (Some (Js.str "y")))
                   Scenario.distinctItems _) _ _).
  - split; [reflexivity | intros; reflexivity].
  - discriminate.
  - repeat constructor; vm_compute; intros H;
      repeat (apply elem_of_cons in H as [H|H]; [discriminate H|]);
      apply elem_of_nil in H; exact H.
Defined.

(** C8 (as worded) fails when two candidates of the pool share a semantic
    id.  Over the unchanged pool [x; y; y] with the first "y" selected
    (index 1), [next()] stores "y" again, [previous()] finds it at index 1
    and steps back to index 0: the selection ends on "x". *)
Lemma next_previous_not_restoring_with_repeated_id :
  let env := Scenario.collaborators (Some (Scenario.batch Scenario.repeatedItems)) in
  let w := Scenario.poolWorld Scenario.repeatedItems (Some (Js.str "y")) in
  let after := snd (bind (next env) (fun _ => previous env) w) in
  poolUnchanged env w Scenario.repeatedItems
  /\ poolUnchanged env after Scenario.repeatedItems
  /\ Scenario.repeatedItems <> []
  /\ fst (bind (next env) (fun _ => previous env) w) = Returns tt
  /\ fst (selectedInlineCompletionIndex env w) = Returns 1
  /\ fst (selectedInlineCompletionIndex env after) = Returns 0
  /\ fst (selectedInlineCompletion env w)
     = Returns (Some (Scenario.candidate "y" (mkRange 1 1 1 1) "yy" None))
  /\ fst (selectedInlineCompletion env after)
     = Returns (Some (Scenario.candidate "x" (mkRange 1 1 1 1) "xx" None)).
Proof.
  cbv zeta.
  split; [split; [reflexivity | intros; reflexivity]|].
  split; [split; [vm_compute; reflexivity | intros; reflexivity]|].
  split; [discriminate|].
  repeat split; vm_compute; reflexivity.
Qed.

(* ===================================================================== *)
(** ** The derived state: what reading it can change *)
(* ===================================================================== *)

Lemma idReset_refl (w : World) : idReset w w.
Proof. now left. Qed.

Lemma idReset_trans (w1 w2 w3 : World) :
  idReset w1 w2 -> idReset w2 w3 -> idReset w1 w3.
Proof.
  intros [->| ->] [->| ->]; try (now left); now right.
Qed.

Lemma readsOnly_ret {A} (a : A) : readsOnly (ret a).
Proof. intros w r w' [= <- <-]. apply idReset_refl. Qed.

Lemma readsOnly_gets {A} (f : World -> A) : readsOnly (gets f).
Proof. intros w r w' [= <- <-]. apply idReset_refl. Qed.

Lemma readsOnly_lift {A} (x : Result A) : readsOnly (lift x).
Proof. intros w r w' [= <- <-]. apply idReset_refl. Qed.

Lemma readsOnly_bind {A B} (m : M A) (k : A -> M B) :
  readsOnly m -> (forall a, readsOnly (k a)) -> readsOnly (bind m k).
Proof.
  intros Hm Hk w r w'. unfold bind.
  destruct (m w) as [[a|e] w1] eqn:Em.
  - intros Ek. eapply idReset_trans; [eapply Hm, Em | eapply Hk, Ek].
  - intros [= <- <-]. eapply Hm, Em.
Qed.

Lemma readsOnly_selectedInlineCompletion (env : Collaborators) :
  readsOnly (selectedInlineCompletion env).
Proof.
  intros w r w'. rewrite run_selected. cbv zeta.
  destruct (_ =? -1); intros [= <- <-]; [now right | now left].
Qed.

Lemma readsOnly_computeAugmentedCompletion (env : Collaborators)
    (suggestCompletion : SingleTextEdit) :
  readsOnly (_computeAugmentedCompletion env suggestCompletion).
Proof.
  unfold _computeAugmentedCompletion.
  apply readsOnly_bind; [apply readsOnly_gets | intros model].
  apply readsOnly_bind; [apply readsOnly_gets | intros [swic|]].
  - apply readsOnly_bind; [apply readsOnly_ret | intros; apply readsOnly_ret].
  - apply readsOnly_bind; [|intros; apply readsOnly_ret].
    apply readsOnly_bind;
      [apply readsOnly_selectedInlineCompletion | intros; apply readsOnly_ret].
Qed.

Lemma readsOnly_state (env : Collaborators) : readsOnly (state env).
Proof.
  unfold state.
  apply readsOnly_bind; [apply readsOnly_gets | intros model].
  apply readsOnly_bind; [apply readsOnly_gets | intros [suggestItem|]].
  - apply readsOnly_bind;
      [apply readsOnly_computeAugmentedCompletion | intros augmented].
    apply readsOnly_bind; [apply readsOnly_gets | intros enabled].
    destruct (_ && _); [apply readsOnly_ret|].
    apply readsOnly_bind; [apply readsOnly_gets | intros mode].
    apply readsOnly_bind; [apply readsOnly_gets | intros selections].
    apply readsOnly_bind.
    { destruct (snd <$> augmented); [apply readsOnly_lift | apply readsOnly_ret]. }
    intros edits.
    apply readsOnly_bind; [apply readsOnly_lift | intros; apply readsOnly_ret].
  - apply readsOnly_bind; [apply readsOnly_gets | intros active].
    destruct (negb active); [apply readsOnly_ret|].
    apply readsOnly_bind;
      [apply readsOnly_selectedInlineCompletion | intros [ic|]];
      [|apply readsOnly_ret].
    apply readsOnly_bind; [apply readsOnly_gets | intros selections].
    apply readsOnly_bind; [apply readsOnly_lift | intros edits].
    apply readsOnly_bind; [apply readsOnly_gets | intros mode].
    apply readsOnly_bind; [apply readsOnly_lift | intros [ghostTexts|]];
      apply readsOnly_ret.
Qed.

(** Inversion of a sequence that returns. *)
Lemma bind_returns {A B} (m : M A) (k : A -> M B) (w w' : World) (b : B) :
  bind m k w = (Returns b, w') ->
  exists a w1, m w = (Returns a, w1) /\ k a w1 = (Returns b, w').
Proof.
  unfold bind. destruct (m w) as [[a|e] w1]; [eauto | discriminate].
Qed.

Lemma getEdits_returns_nonempty newRangesOf this_tm tm selections completion r :
  _getEdits newRangesOf this_tm tm selections completion = Returns r ->
  exists c0 rest, selections = c0 :: rest.
Proof.
  unfold _getEdits. destruct selections as [|c0 rest]; [discriminate | eauto].
Qed.

(** A state with a selected inline completion was computed over at least
    one cursor. *)
Lemma state_with_completion_has_cursor (env : Collaborators) (w w' : World)
    (st : State) (ic : InlineCompletionWithUpdatedRange) :
  state env w = (Returns (Some st), w') ->
  inlineCompletion st = Some ic ->
  exists c0 rest, _selections (inputs w) = c0 :: rest.
Proof.
  unfold state. intros H Hic.
  apply bind_returns in H as (model & w1 & [= <- <-] & H).
  apply bind_returns in H as (sugg & w1 & [= <- <-] & H).
  destruct (selectedSuggestItem (inputs w)) as [suggestItem|].
  - apply bind_returns in H as (aug & w1 & Haug & H).
    apply readsOnly_computeAugmentedCompletion in Haug.
    apply bind_returns in H as (enabled & w2 & [= <- <-] & H).
    destruct (_ && _); [discriminate|].
    apply bind_returns in H as (mode & w2 & [= <- <-] & H).
    apply bind_returns in H as (selections & w2 & [= <- <-] & H).
    apply bind_returns in H as (edits & w2 & Hedits & H).
    apply bind_returns in H as (gts & w3 & _ & [= <- <-]).
    simpl in Hic. rewrite Hic in Hedits.
    unfold lift in Hedits. injection Hedits as Hedits _.
    apply getEdits_returns_nonempty in Hedits.
    destruct Haug as [->| ->]; exact Hedits.
  - apply bind_returns in H as (active & w1 & [= <- <-] & H).
    destruct (negb (_isActive w)); [discriminate|].
    apply bind_returns in H as (sel & w1 & Hsel & H).
    apply readsOnly_selectedInlineCompletion in Hsel.
    destruct sel as [sel|]; [|discriminate].
    apply bind_returns in H as (selections & w2 & [= <- <-] & H).
    apply bind_returns in H as (edits & w2 & Hedits & H).
    unfold lift in Hedits. injection Hedits as Hedits _.
    apply getEdits_returns_nonempty in Hedits.
    destruct Hsel as [->| ->]; exact Hedits.
Qed.

(** In every state the model computes, a missing inline completion comes
    with a missing primary ghost text. *)
Lemma state_without_completion_has_no_ghost_text (env : Collaborators)
    (w w' : World) (st : State) :
  state env w = (Returns (Some st), w') ->
  inlineCompletion st = None ->
  primaryGhostText st = None.
Proof.
  unfold state. intros H Hic.
  apply bind_returns in H as (model & w1 & [= <- <-] & H).
  apply bind_returns in H as (sugg & w1 & [= <- <-] & H).
  destruct (selectedSuggestItem (inputs w)) as [suggestItem|].
  - apply bind_returns in H as (aug & w1 & Haug & H).
    apply bind_returns in H as (enabled & w2 & [= <- <-] & H).
    destruct (_ && _); [discriminate|].
    apply bind_returns in H as (mode & w2 & [= <- <-] & H).
    apply bind_returns in H as (selections & w2 & [= <- <-] & H).
    apply bind_returns in H as (edits & w2 & Hedits & H).
    apply bind_returns in H as (gts & w3 & Hgts & [= <- <-]).
    simpl in Hic |- *. rewrite Hic in Hedits.
    injection Hedits as <- <-. simpl in Hgts.
    unfold lift in Hgts. injection Hgts as <- _. reflexivity.
  - apply bind_returns in H as (active & w1 & [= <- <-] & H).
    destruct (negb (_isActive w)); [discriminate|].
    apply bind_returns in H as (sel & w1 & Hsel & H).
    destruct sel as [sel|]; [|discriminate].
    apply bind_returns in H as (selections & w2 & [= <- <-] & H).
    apply bind_returns in H as (edits & w2 & Hedits & H).
    apply bind_returns in H as (mode & w3 & [= <- <-] & H).
    apply bind_returns in H as (gts & w3 & Hgts & H).
    destruct gts as [gts|]; [|discriminate].
    injection H as <- <-. simpl in Hic. discriminate.
Qed.

(* ===================================================================== *)
(** ** Full accept *)
(* ===================================================================== *)

Lemma guardPasses_world (env : Collaborators) (editor : ICodeEditor)
    (w : World) (st : State) (g : GhostTextOrReplacement)
    (ic : InlineCompletionWithUpdatedRange) (w1 : World) :
  guardPasses env editor w st g ic w1 ->
  idReset (add_log EvStateRead w) w1.
Proof.
  intros (_ & Hst & _). eapply readsOnly_state, Hst.
Qed.

(** A full accept that passes the guard, step by step. *)
Lemma accept_run (env : Collaborators) (editor : ICodeEditor) (w : World)
    (st : State) (g : GhostTextOrReplacement)
    (ic : InlineCompletionWithUpdatedRange) (w1 : World) :
  guardPasses env editor w st g ic w1 ->
  let completion := toInlineCompletion ic in
  let after := applyEdits env (textModel w) (acceptEditOps st completion) in
  exists w',
    accept env editor w = (Returns tt, w')
    /\ log w'
       = log w ++ [EvStateRead] ++ acceptEditEvents editor st completion
         ++ acceptAddRef completion
         ++ [EvTransaction [WSourceClear; WSetActive false]]
         ++ acceptCommandEvents env completion
    /\ _isActive w' = false
    /\ source_inlineCompletions w' = None
    /\ source_suggestWidgetInlineCompletions w' = None
    /\ textModel w'
       = mkTextModel (modelRef (textModel w)) (getLineContent after)
           (getValueInRange after)
    /\ inputs w' = inputs w
    /\ _isAcceptingPartially w' = _isAcceptingPartially w.
Proof.
  intros Hguard completion after.
  pose proof (guardPasses_world _ _ _ _ _ _ _ Hguard) as Hw1.
  destruct Hguard as (Hmodel & Hst & Hg & Hne & Hic).
  unfold accept. unfold bind at 1, gets at 1. rewrite Hmodel.
  unfold bind at 1, emit at 1, modify at 1.
  unfold bind at 1. rewrite Hst, Hg, Hne, Hic. fold completion.
  unfold acceptEditEvents, acceptEditOps, acceptAddRef, acceptCommandEvents in *.
  subst after. unfold acceptEditOps.
  unfold executeCommand, executeEdits, transaction, bind, emit, modify, ret.
  destruct Hw1 as [->| ->];
    destruct (snippetInfo completion) as [info|];
    try destruct (hasSnippetController editor);
    destruct (command completion) as [c|];
    try destruct (commandOutcome env c);
    simpl; eexists; (split; [reflexivity|]); simpl;
    rewrite <- ?app_assoc; simpl; repeat split; reflexivity.
Qed.

Lemma run_eq {A} (m : M A) (w : World) (r : Result A) :
  fst (m w) = r -> m w = (r, snd (m w)).
Proof. intros <-. apply surjective_pairing. Qed.

Lemma acceptEditEvents_are_edits (editor : ICodeEditor) (st : State)
    (completion : InlineCompletionItem) :
  Forall (fun e => isCommandEvent e = false /\ isTransaction e = false)
    (acceptEditEvents editor st completion).
Proof.
  unfold acceptEditEvents.
  destruct (snippetInfo completion); [destruct (hasSnippetController editor)|];
    repeat constructor.
Qed.

Lemma acceptCommandEvents_are_not_edits (env : Collaborators)
    (completion : InlineCompletionItem) :
  Forall (fun e => isEditEvent e = false /\ isTransaction e = false)
    (acceptCommandEvents env completion).
Proof.
  unfold acceptCommandEvents.
  destruct (command completion) as [c|]; [destruct (commandOutcome env c)|];
    repeat constructor.
Qed.

(** C5.  A full accept that passes its guard returns normally, and its calls
    are ordered as follows: first the editor calls, among them the
    [executeEdits] of the accepted operations; then one transaction that
    clears the source and sets the active flag to false; only then, when the
    candidate has a command, the command, awaited until it settles, a
    rejection being reported through [onUnexpectedExternalError], then the
    release of the reference.  Whatever the command's outcome, the state is
    idle afterwards and the model's text is the text after the edits. *)
Theorem accept_resets_before_command
    (env : Collaborators) (editor : ICodeEditor) (w : World)
    (st : State) (g : GhostTextOrReplacement)
    (ic : InlineCompletionWithUpdatedRange) (w1 : World) :
  guardPasses env editor w st g ic w1 ->
  let completion := toInlineCompletion ic in
  exists w' pre post ops,
    accept env editor w = (Returns tt, w')
    /\ log w'
       = log w ++ pre ++ [EvTransaction [WSourceClear; WSetActive false]] ++ post
    /\ EvExecuteEdits inlineSuggestion_accept ops ∈ pre
    /\ Forall (fun e => isCommandEvent e = false /\ isTransaction e = false) pre
    /\ Forall (fun e => isEditEvent e = false /\ isTransaction e = false) post
    /\ _isActive w' = false
    /\ source_inlineCompletions w' = None
    /\ source_suggestWidgetInlineCompletions w' = None
    /\ match command completion with
       | Some c =>
           exists report,
             post = [EvExecuteCommand (commandId c) (default [] (commandArguments c));
                     EvCommandSettled (commandOutcome env c)]
                    ++ report ++ [EvRemoveRef (listRef (source completion))]
             /\ report = match commandOutcome env c with
                         | Rejected error => [EvUnexpectedExternalError error]
                         | Fulfilled => []
                         end
       | None => post = []
       end
    /\ getLineContent (textModel w')
       = getLineContent (applyEdits env (textModel w) ops)
    /\ getValueInRange (textModel w')
       = getValueInRange (applyEdits env (textModel w) ops).
Proof.
  intros Hguard completion.
  destruct (accept_run env editor w st g ic w1 Hguard)
    as (w' & Hrun & Hlog & Hactive & Hsrc & Hsw & Htm & _).
  fold completion in Hlog, Htm.
  exists w', ([EvStateRead] ++ acceptEditEvents editor st completion
              ++ acceptAddRef completion),
    (acceptCommandEvents env completion), (acceptEditOps st completion).
  split; [exact Hrun|].
  split; [rewrite Hlog, <- !app_assoc; reflexivity|].
  split.
  { unfold acceptEditEvents. simpl.
    apply list_elem_of_further, list_elem_of_further, list_elem_of_here. }
  split.
  { apply Forall_app. split; [repeat constructor|].
    apply Forall_app. split; [apply acceptEditEvents_are_edits|].
    unfold acceptAddRef. destruct (command completion); repeat constructor. }
  split; [apply acceptCommandEvents_are_not_edits|].
  split; [exact Hactive|]. split; [exact Hsrc|]. split; [exact Hsw|].
  split.
  { unfold acceptCommandEvents. destruct (command completion) as [c|];
      [eexists; split; reflexivity | reflexivity]. }
  rewrite Htm. split; reflexivity.
Qed.

(** C5 at work: the candidate's command is rejected; the accept returns, the
    failure is reported after the reset, the text is "hello world". *)
Lemma accept_resets_before_command_witness :
  exists w' pre post ops,
    accept (Scenario.collaborators None) Scenario.editor
      (Scenario.commandWorld "fail") = (Returns tt, w')
    /\ log w'
       = log (Scenario.commandWorld "fail") ++ pre
         ++ [EvTransaction [WSourceClear; WSetActive false]] ++ post
    /\ EvExecuteEdits inlineSuggestion_accept ops ∈ pre
    /\ Forall (fun e => isCommandEvent e = false /\ isTransaction e = false) pre
    /\ Forall (fun e => isEditEvent e = false /\ isTransaction e = false) post
    /\ _isActive w' = false
    /\ source_inlineCompletions w' = None
    /\ source_suggestWidgetInlineCompletions w' = None
    /\ (exists report,
          post = [EvExecuteCommand (Js.str "fail") [];
                  EvCommandSettled (Rejected (Js.str "command failed"))]
                 ++ report ++ [EvRemoveRef 7]
          /\ report = [EvUnexpectedExternalError (Js.str "command failed")])
    /\ getLineContent (textModel w')
       = getLineContent (applyEdits (Scenario.collaborators None)
                           (textModel (Scenario.commandWorld "fail")) ops)
    /\ getValueInRange (textModel w')
       = getValueInRange (applyEdits (Scenario.collaborators None)
                            (textModel (Scenario.commandWorld "fail")) ops).
Proof.
  refine (accept_resets_before_command (Scenario.collaborators None)
            Scenario.editor (Scenario.commandWorld "fail") _ _
            (Scenario.candidate "hello" (mkRange 1 1 1 1) "hello world"
               (Some (mkCommand (Js.str "fail") None)))
            (snd (state (Scenario.collaborators None)
                    (add_log EvStateRead (Scenario.commandWorld "fail")))) _).
  split; [reflexivity|].
  split; [apply run_eq; vm_compute; reflexivity|].
  split; [reflexivity|]. split; reflexivity.
Defined.

(** C4, at a candidate with a command: the full accept takes its reference on
    the candidate's list only after [executeEdits] and [setSelections] have
    run (and before the source is cleared), whereas the partial accept of the
    same candidate takes it before [pushUndoStop]. *)
Theorem accept_takes_reference_after_the_edits :
  (let run := accept (Scenario.collaborators None) Scenario.editor
                (Scenario.commandWorld "notify") in
   fst run = Returns tt
   /\ log (snd run)
      = [EvStateRead; EvPushUndoStop;
         EvExecuteEdits inlineSuggestion_accept
           [replaceMove (mkRange 1 1 1 1) (Js.str "hello world")];
         EvSetSelections [Scenario.cursor 1 12] inlineCompletionAccept;
         EvAddRef 7;
         EvTransaction [WSourceClear; WSetActive false];
         EvExecuteCommand (Js.str "notify") [];
         EvCommandSettled Fulfilled;
         EvRemoveRef 7])
  /\ (let run := acceptNextWord (Scenario.collaborators None) Scenario.editor
                   (Scenario.commandWorld "notify") in
      fst run = Returns tt
      /\ log (snd run)
         = [EvStateRead; EvAddRef 7; EvPushUndoStop;
            EvExecuteEdits inlineSuggestion_accept
              [replaceMove (mkRange 1 1 1 1) (Js.str "hello")];
            EvSetSelections [Scenario.cursor 1 6] inlineCompletionPartialAccept;
            EvHandlePartialAccept 7 0 5; EvRemoveRef 7]).
Proof.
  cbv zeta. repeat split; vm_compute; reflexivity.
Qed.

(** In every full accept of a candidate with a command, the reference is
    taken after the edits have been executed. *)
Lemma accept_addRef_follows_executeEdits
    (env : Collaborators) (editor : ICodeEditor) (w : World)
    (st : State) (g : GhostTextOrReplacement)
    (ic : InlineCompletionWithUpdatedRange) (w1 : World) (c : Command) :
  guardPasses env editor w st g ic w1 ->
  command (toInlineCompletion ic) = Some c ->
  exists w' pre post ops,
    accept env editor w = (Returns tt, w')
    /\ log w'
       = log w ++ pre
         ++ [EvAddRef (listRef (source (toInlineCompletion ic)))] ++ post
    /\ EvExecuteEdits inlineSuggestion_accept ops ∈ pre
    /\ EvAddRef (listRef (source (toInlineCompletion ic))) ∉ pre.
Proof.
  intros Hguard Hc.
  destruct (accept_run env editor w st g ic w1 Hguard)
    as (w' & Hrun & Hlog & _).
  unfold acceptAddRef in Hlog. rewrite Hc in Hlog.
  exists w', ([EvStateRead] ++ acceptEditEvents editor st (toInlineCompletion ic)),
    ([EvTransaction [WSourceClear; WSetActive false]]
     ++ acceptCommandEvents env (toInlineCompletion ic)),
    (acceptEditOps st (toInlineCompletion ic)).
  split; [exact Hrun|].
  split; [rewrite Hlog, <- !app_assoc; reflexivity|].
  split.
  { unfold acceptEditEvents. simpl.
    apply list_elem_of_further, list_elem_of_further, list_elem_of_here. }
  unfold acceptEditEvents.
  destruct (snippetInfo (toInlineCompletion ic));
    [destruct (hasSnippetController editor)|];
    simpl; intros Hin;
    repeat (apply elem_of_cons in Hin as [Hin|Hin]; [discriminate Hin|]);
    apply elem_of_nil in Hin; exact Hin.
Qed.

(* ===================================================================== *)
(** ** The guards *)
(* ===================================================================== *)

(** C7.  Against an editor whose model is not the model's text model, the
    three accept methods throw [BugIndicatingError] at once: the world is
    as before the call, nothing is logged (no state read, no edit). *)
Theorem accept_on_other_document_throws
    (env : Collaborators) (editor : ICodeEditor) (w : World) :
  editorModel editor <> Some (modelRef (textModel w)) ->
  accept env editor w = (Throws BugIndicatingError, w)
  /\ acceptNextWord env editor w = (Throws BugIndicatingError, w)
  /\ acceptNextLine env editor w = (Throws BugIndicatingError, w).
Proof.
  intros Hne.
  assert (Hd : modelDiffers editor (textModel w) = true).
  { unfold modelDiffers. now rewrite bool_decide_eq_false_2. }
  unfold acceptNextWord, acceptNextLine, _acceptNext, accept, bind, gets, throw.
  rewrite Hd. auto.
Qed.

(** C7 at work: an editor on another document. *)
Lemma accept_on_other_document_throws_witness :
  accept (Scenario.collaborators None) Scenario.otherEditor Scenario.helloWorld
  = (Throws BugIndicatingError, Scenario.helloWorld)
  /\ acceptNextWord (Scenario.collaborators None) Scenario.otherEditor
       Scenario.helloWorld
     = (Throws BugIndicatingError, Scenario.helloWorld)
  /\ acceptNextLine (Scenario.collaborators None) Scenario.otherEditor
       Scenario.helloWorld
     = (Throws BugIndicatingError, Scenario.helloWorld).
Proof.
  apply (accept_on_other_document_throws (Scenario.collaborators None)
           Scenario.otherEditor Scenario.helloWorld).
  discriminate.
Defined.

(** Where the guard does make the call a no-op: no state, or an empty
    primary ghost text, or a primary ghost text without inline
    completion. *)
Lemma accept_noop (env : Collaborators) (editor : ICodeEditor) (w w1 : World)
    (st : option State) :
  modelDiffers editor (textModel w) = false ->
  state env (add_log EvStateRead w) = (Returns st, w1) ->
  match st with
  | None => True
  | Some st =>
      exists g, primaryGhostText st = Some g
                /\ (isEmpty g = true \/ inlineCompletion st = None)
  end ->
  accept env editor w = (Returns tt, w1)
  /\ acceptNextWord env editor w = (Returns tt, w1)
  /\ acceptNextLine env editor w = (Returns tt, w1)
  /\ idReset (add_log EvStateRead w) w1.
Proof.
  intros Hmodel Hst Hcase.
  assert (Hnext : forall cb, _acceptNext env editor cb w = (Returns tt, w1)).
  { intros cb. unfold _acceptNext.
    unfold bind at 1, gets at 1. rewrite Hmodel.
    unfold bind at 1, emit at 1, modify at 1.
    unfold bind at 1. rewrite Hst.
    destruct st as [st|]; [|reflexivity].
    destruct Hcase as (g & -> & [Hempty|Hnone]).
    - now rewrite Hempty.
    - rewrite Hnone. now destruct (isEmpty g). }
  split; [|split; [apply Hnext | split; [apply Hnext|eapply readsOnly_state, Hst]]].
  unfold accept.
  unfold bind at 1, gets at 1. rewrite Hmodel.
  unfold bind at 1, emit at 1, modify at 1.
  unfold bind at 1. rewrite Hst.
  destruct st as [st|]; [|reflexivity].
  destruct Hcase as (g & -> & [Hempty|Hnone]).
  - now rewrite Hempty.
  - rewrite Hnone. now destruct (isEmpty g).
Qed.

(** C9, where it fails: a suggest-widget item is selected and previewed, and
    no inline completion augments it.  The derived state exists, its inline
    completion and its primary ghost text are both [undefined], and the three
    accept methods, called on the bound editor, throw a [TypeError] out of
    their guard instead of returning. *)
Theorem accept_throws_on_state_without_completion :
  let env := Scenario.collaborators None in
  let w := Scenario.suggestWorld in
  modelDiffers Scenario.editor (textModel w) = false
  /\ (exists st, fst (state env (add_log EvStateRead w)) = Returns (Some st)
                 /\ inlineCompletion st = None
                 /\ primaryGhostText st = None)
  /\ fst (accept env Scenario.editor w) = Throws TypeError
  /\ fst (acceptNextWord env Scenario.editor w) = Throws TypeError
  /\ fst (acceptNextLine env Scenario.editor w) = Throws TypeError.
Proof.
  cbv zeta. split; [reflexivity|].
  split; [eexists; split; [vm_compute; reflexivity | split; reflexivity]|].
  repeat split; vm_compute; reflexivity.
Qed.

(* ===================================================================== *)
(** ** Partial accept *)
(* ===================================================================== *)

(** [_acceptNext] past its guard, for a callback that answers [idx] without
    touching the world. *)
Lemma acceptNext_run (env : Collaborators) (editor : ICodeEditor)
    (cb : Position -> jsstring -> M Z) (w : World)
    (st : State) (g : GhostTextOrReplacement)
    (ic : InlineCompletionWithUpdatedRange) (w1 : World)
    (firstPart : GhostTextPart) (rest : list GhostTextPart) (idx : Z) :
  guardPasses env editor w st g ic w1 ->
  parts g = firstPart :: rest ->
  cb (mkPosition (ghostLineNumber g) (partColumn firstPart)) (partText firstPart) w1
  = (Returns idx, w1) ->
  let completion := toInlineCompletion ic in
  let r := listRef (source completion) in
  (is_Some (snippetInfo completion)
   \/ filterText completion <> insertText completion ->
   _acceptNext env editor cb w = accept env editor w1)
  /\ (snippetInfo completion = None ->
      filterText completion = insertText completion ->
      idx = Js.length (partText firstPart) -> arrayLength (parts g) = 1 ->
      _acceptNext env editor cb w = acceptUnawaited env editor w1)
  /\ (~ fallsBackToAccept completion g firstPart idx ->
      exists w' edits sels,
        _acceptNext env editor cb w = (Returns tt, w')
        /\ _getEdits (newRangesOf env) (textModel w) (textModel w)
             (_selections (inputs w)) (partialEdit completion g firstPart idx)
           = Returns (edits, sels)
        /\ log w'
           = log w
             ++ [EvStateRead; EvAddRef r; EvPushUndoStop;
                 EvExecuteEdits inlineSuggestion_accept
                   (List.map (fun e => replaceMove (editRange e) (editText e)) edits);
                 EvSetSelections sels inlineCompletionPartialAccept]
             ++ (if providerHandlesPartialAccept (source completion)
                 then [EvHandlePartialAccept r (sourceInlineCompletion completion)
                         (Js.length
                            (getValueInRange (textModel w')
                               (acceptedRange env completion g firstPart idx)))]
                 else [])
             ++ [EvRemoveRef r]
        /\ getLineContent (textModel w')
           = getLineContent
               (applyEdits env (textModel w)
                  (List.map (fun e => replaceMove (editRange e) (editText e)) edits))
        /\ getValueInRange (textModel w')
           = getValueInRange
               (applyEdits env (textModel w)
                  (List.map (fun e => replaceMove (editRange e) (editText e)) edits))
        /\ _isActive w' = _isActive w
        /\ source_inlineCompletions w' = source_inlineCompletions w
        /\ source_suggestWidgetInlineCompletions w'
           = source_suggestWidgetInlineCompletions w
        /\ _isAcceptingPartially w' = false).
Proof.
  intros Hguard Hparts Hcb completion r.
  pose proof (guardPasses_world _ _ _ _ _ _ _ Hguard) as Hw1.
  destruct Hguard as (Hmodel & Hst & Hg & Hne & Hic).
  destruct (state_with_completion_has_cursor _ _ _ _ _ Hst Hic)
    as (c0 & cs & Hsels).
  change (inputs (add_log EvStateRead w)) with (inputs w) in Hsels.
  assert (Hstart :
    _acceptNext env editor cb w
    = (if bool_decide (is_Some (snippetInfo completion))
          || negb (bool_decide (filterText completion = insertText completion))
       then accept env editor
       else
         bind (cb (mkPosition (ghostLineNumber g) (partColumn firstPart))
                 (partText firstPart))
           (fun acceptUntilIndexExclusive =>
              if (acceptUntilIndexExclusive =? Js.length (partText firstPart))
                 && (arrayLength (parts g) =? 1)
              then acceptUnawaited env editor
              else
                bind (emit (EvAddRef r)) (fun _ =>
                tryFinally
                  (bind (modify (set_isAcceptingPartially true)) (fun _ =>
                   bind
                     (tryFinally
                        (bind (emit EvPushUndoStop) (fun _ =>
                         bind (gets (fun w => _selections (inputs w))) (fun selections =>
                         bind (gets textModel) (fun model =>
                         bind (lift (_getEdits (newRangesOf env) model model selections
                                       (partialEdit completion g firstPart
                                          acceptUntilIndexExclusive)))
                           (fun edits =>
                         bind (executeEdits env inlineSuggestion_accept
                                 (List.map
                                    (fun edit => replaceMove (editRange edit) (editText edit))
                                    (fst edits))) (fun _ =>
                         emit (EvSetSelections (snd edits)
                                 inlineCompletionPartialAccept)))))))
                        (modify (set_isAcceptingPartially false)))
                     (fun _ =>
                        if providerHandlesPartialAccept (source completion)
                        then bind (gets textModel) (fun model =>
                               emit (EvHandlePartialAccept r
                                       (sourceInlineCompletion completion)
                                       (Js.length
                                          (getValueInRange model
                                             (acceptedRange env completion g firstPart
                                                acceptUntilIndexExclusive)))))
                        else ret tt)))
                  (emit (EvRemoveRef r)))))
      w1).
  { unfold _acceptNext. unfold bind at 1, gets at 1. rewrite Hmodel.
    unfold bind at 1, emit at 1, modify at 1.
    unfold bind at 1. rewrite Hst, Hg, Hne, Hic. fold completion.
    destruct (_ || _); [reflexivity|].
    rewrite Hparts. reflexivity. }
  rewrite Hstart. clear Hstart.
  split; [|split].
  - intros [Hsn | Hft].
    + rewrite (bool_decide_eq_true_2 _ Hsn). reflexivity.
    + rewrite (bool_decide_eq_false_2 _ Hft). rewrite orb_true_r. reflexivity.
  - intros Hsn Hft Hidx Hlen.
    rewrite (bool_decide_eq_false_2 (is_Some (snippetInfo completion)))
      by (rewrite Hsn; intros [x Hx]; discriminate).
    rewrite (bool_decide_eq_true_2 _ Hft). cbn [orb negb].
    unfold bind at 1. rewrite Hcb.
    rewrite Hidx, Hlen, !Z.eqb_refl. reflexivity.
  - intros Hnot.
    assert (Hsn : bool_decide (is_Some (snippetInfo completion)) = false).
    { apply bool_decide_eq_false_2. intros H. apply Hnot. now left. }
    assert (Hft : bool_decide (filterText completion = insertText completion) = true).
    { apply bool_decide_eq_true_2.
      destruct (decide (filterText completion = insertText completion)) as [E|E];
        [exact E | exfalso; apply Hnot; right; now left]. }
    assert (Hcut : (idx =? Js.length (partText firstPart))
                   && (arrayLength (parts g) =? 1) = false).
    { apply andb_false_iff.
      destruct (Z.eqb_spec idx (Js.length (partText firstPart))) as [E1|E1];
        [|now left].
      destruct (Z.eqb_spec (arrayLength (parts g)) 1) as [E2|E2]; [|now right].
      exfalso. apply Hnot. right; right. auto. }
    rewrite Hsn, Hft. cbn [orb negb].
    unfold bind at 1. rewrite Hcb, Hcut.
    unfold _getEdits. rewrite Hsels.
    change ((c0 :: cs) !! 0%nat) with (Some c0). cbv beta iota zeta.
    unfold executeEdits, tryFinally, bind, emit, modify, gets, lift, ret.
    destruct Hw1 as [->| ->];
      change (_selections (inputs (add_log EvStateRead w))) with (_selections (inputs w));
      cbn -[List.map secondaryEdit drop partialEdit acceptedRange]; rewrite ?Hsels;
      destruct (providerHandlesPartialAccept (source completion));
      cbn -[List.map secondaryEdit drop partialEdit acceptedRange];
      eexists _, _, _; (split; [reflexivity|]); (split; [reflexivity|]);
      cbn -[List.map secondaryEdit drop partialEdit acceptedRange];
      rewrite <- ?app_assoc; repeat split; reflexivity.
Qed.

(** An un-awaited accept past the guard: it does all of a full accept up to
    the call of the command, and what it leaves pending completes it. *)
Lemma acceptUnawaited_run (env : Collaborators) (editor : ICodeEditor) (w : World)
    (st : State) (g : GhostTextOrReplacement)
    (ic : InlineCompletionWithUpdatedRange) (w1 : World) :
  guardPasses env editor w st g ic w1 ->
  let completion := toInlineCompletion ic in
  let after := applyEdits env (textModel w) (acceptEditOps st completion) in
  exists w',
    acceptUnawaited env editor w = (Returns tt, w')
    /\ log w'
       = log w ++ [EvStateRead] ++ acceptEditEvents editor st completion
         ++ acceptAddRef completion
         ++ [EvTransaction [WSourceClear; WSetActive false]]
         ++ acceptCommandCall completion
    /\ _isActive w' = false
    /\ source_inlineCompletions w' = None
    /\ source_suggestWidgetInlineCompletions w' = None
    /\ textModel w'
       = mkTextModel (modelRef (textModel w)) (getLineContent after)
           (getValueInRange after)
    /\ inputs w' = inputs w
    /\ _isAcceptingPartially w' = _isAcceptingPartially w
    /\ acceptPending env completion w' = accept env editor w
    /\ log (snd (accept env editor w))
       = log w' ++ acceptSettleEvents env completion.
Proof.
  intros Hguard completion after.
  pose proof (guardPasses_world _ _ _ _ _ _ _ Hguard) as Hw1.
  destruct Hguard as (Hmodel & Hst & Hg & Hne & Hic).
  remember (accept env editor w) as ra eqn:Hra.
  unfold accept in Hra. unfold bind at 1, gets at 1 in Hra. rewrite Hmodel in Hra.
  unfold bind at 1, emit at 1, modify at 1 in Hra.
  unfold bind at 1 in Hra. rewrite Hst, Hg, Hne, Hic in Hra. fold completion in Hra.
  unfold acceptUnawaited. unfold bind at 1, gets at 1. rewrite Hmodel.
  unfold bind at 1, emit at 1, modify at 1.
  unfold bind at 1. rewrite Hst, Hg, Hne, Hic. fold completion.
  unfold acceptEditEvents, acceptEditOps, acceptAddRef, acceptCommandCall,
    acceptSettleEvents, acceptPending in *.
  subst after. unfold acceptEditOps.
  unfold executeCommand, executeEdits, transaction, bind, emit, modify, ret in *.
  destruct Hw1 as [->| ->];
    destruct (snippetInfo completion) as [info|];
    try destruct (hasSnippetController editor);
    destruct (command completion) as [c|];
    try destruct (commandOutcome env c);
    simpl in *; subst ra; eexists; (split; [reflexivity|]); simpl;
    rewrite <- ?app_assoc; simpl; repeat split; reflexivity.
Qed.

(** C6.  Past the guard, with [firstPart] the first part of the primary ghost
    text and [idx] the boundary the method computes on its text (the word
    boundary for [acceptNextWord], the end of the first line for
    [acceptNextLine]), the method is a call of [accept] exactly in the three
    cases named: awaited when the candidate has a snippet or its filter text
    differs from its insertion text, not awaited when [idx] is the length of
    the first part's text and the ghost text has one part.  In every other
    case nothing of a full accept happens; the edit executed for the primary
    cursor replaces the text from the start of the candidate's range to the
    ghost text by the insertion text up to [idx], and the provider's
    [handlePartialAccept], when the provider has one, is called once, with
    the length of the text the document holds, after the edits, in the range
    from the start of the candidate's range to the end of the accepted part
    as it was computed before the edits.  That length is meant to be the
    number of characters committed, and it is not always: of the candidate
    "a", line feed, "b" shown on the second of two empty lines,
    [acceptNextLine] commits "a" and the line feed; with that one cursor the
    hook is told 2, but with a second cursor on the first line, where the
    same two characters are committed as well, the edit of the first line
    has moved the accepted text one line down, the range read is the stale
    one, and the hook is told 1. *)
Theorem acceptNext_partial_accept_reports_stale_length :
  (forall (env : Collaborators) (editor : ICodeEditor) (w : World)
          (st : State) (g : GhostTextOrReplacement)
          (ic : InlineCompletionWithUpdatedRange) (w1 : World)
          (firstPart : GhostTextPart) (rest : list GhostTextPart)
          (method : ICodeEditor -> M unit) (idx : Z),
      guardPasses env editor w st g ic w1 ->
      parts g = firstPart :: rest ->
      let completion := toInlineCompletion ic in
      let position := mkPosition (ghostLineNumber g) (partColumn firstPart) in
      let text := partText firstPart in
      let r := listRef (source completion) in
      (method = acceptNextWord env
       /\ idx = acceptNextWord_untilIndex
                  (wordDefinition env (textModel w) position) text)
      \/ (method = acceptNextLine env /\ idx = acceptNextLine_untilIndex text) ->
      (is_Some (snippetInfo completion)
       \/ filterText completion <> insertText completion ->
       method editor w = accept env editor w1)
      /\ (snippetInfo completion = None ->
          filterText completion = insertText completion ->
          idx = Js.length text -> arrayLength (parts g) = 1 ->
          method editor w = acceptUnawaited env editor w1)
      /\ (~ fallsBackToAccept completion g firstPart idx ->
          exists w' edits sels,
            method editor w = (Returns tt, w')
            /\ _getEdits (newRangesOf env) (textModel w) (textModel w)
                 (_selections (inputs w)) (partialEdit completion g firstPart idx)
               = Returns (edits, sels)
            /\ edits !! 0%nat = Some (partialEdit completion g firstPart idx)
            /\ editText (partialEdit completion g firstPart idx)
               = Js.substring (insertText completion) 0
                   (partColumn firstPart - startColumn (range completion) + idx)
            /\ log w'
               = log w
                 ++ [EvStateRead; EvAddRef r; EvPushUndoStop;
                     EvExecuteEdits inlineSuggestion_accept
                       (List.map (fun e => replaceMove (editRange e) (editText e))
                          edits);
                     EvSetSelections sels inlineCompletionPartialAccept]
                 ++ (if providerHandlesPartialAccept (source completion)
                     then [EvHandlePartialAccept r (sourceInlineCompletion completion)
                             (Js.length
                                (getValueInRange (textModel w')
                                   (acceptedRange env completion g firstPart idx)))]
                     else [])
                 ++ [EvRemoveRef r]
            /\ getValueInRange (textModel w')
               = getValueInRange
                   (applyEdits env (textModel w)
                      (List.map (fun e => replaceMove (editRange e) (editText e))
                         edits))
            /\ _isActive w' = _isActive w
            /\ source_inlineCompletions w' = source_inlineCompletions w
            /\ source_suggestWidgetInlineCompletions w'
               = source_suggestWidgetInlineCompletions w))
  /\ (let run := acceptNextLine (Scenario.textCollaborators None) Scenario.editor
                   Scenario.oneCursorWorld in
      fst run = Returns tt
      /\ log (snd run)
         = [EvStateRead; EvAddRef 7; EvPushUndoStop;
            EvExecuteEdits inlineSuggestion_accept
              [replaceMove (mkRange 2 1 2 1) [97; 10]%N];
            EvSetSelections [Scenario.cursor 3 1] inlineCompletionPartialAccept;
            EvHandlePartialAccept 7 0 2; EvRemoveRef 7]
      /\ List.map (getLineContent (textModel (snd run))) [1; 2; 3]
         = [[]; [97%N]; []])
  /\ (let run := acceptNextLine (Scenario.textCollaborators None) Scenario.editor
                   Scenario.twoCursorWorld in
      fst run = Returns tt
      /\ log (snd run)
         = [EvStateRead; EvAddRef 7; EvPushUndoStop;
            EvExecuteEdits inlineSuggestion_accept
              [replaceMove (mkRange 2 1 2 1) [97; 10]%N;
               replaceMove (mkRange 1 1 1 1) [97; 10]%N];
            EvSetSelections [Scenario.cursor 4 1; Scenario.cursor 2 1]
              inlineCompletionPartialAccept;
            EvHandlePartialAccept 7 0 1; EvRemoveRef 7]
      /\ List.map (getLineContent (textModel (snd run))) [1; 2; 3; 4]
         = [[97%N]; []; [97%N]; []]).
Proof.
  split.
  { intros env editor w st g ic w1 firstPart rest method idx
      Hguard Hparts completion position text r Hmethod.
    pose proof (guardPasses_world _ _ _ _ _ _ _ Hguard) as Hw1.
    assert (Htm : textModel w1 = textModel w)
      by (destruct Hw1 as [->| ->]; reflexivity).
    assert (Hrun :
      exists cb, method editor = _acceptNext env editor cb
                 /\ cb position text w1 = (Returns idx, w1)).
    { destruct Hmethod as [[-> ->] | [-> ->]].
      - eexists. split; [reflexivity|].
        unfold bind, gets, ret. now rewrite Htm.
      - eexists. split; reflexivity. }
    destruct Hrun as (cb & -> & Hcb).
    destruct (acceptNext_run env editor cb w st g ic w1 firstPart rest idx
                Hguard Hparts Hcb) as (Hfull & Hboundary & Hpartial).
    split; [exact Hfull|]. split; [exact Hboundary|].
    intros Hnot.
    destruct (Hpartial Hnot)
      as (w' & edits & sels & Hres & Hedits & Hlog & _ & Hval & Hact & Hsrc & Hsw & _).
    exists w', edits, sels.
    split; [exact Hres|]. split; [exact Hedits|].
    split.
    { unfold _getEdits in Hedits.
      destruct (_selections (inputs w) !! 0%nat); [|discriminate].
      injection Hedits as <- _. reflexivity. }
    split; [reflexivity|].
    split; [exact Hlog|]. split; [exact Hval|]. auto. }
  cbv zeta. split; repeat split; vm_compute; reflexivity.
Qed.

(** A partial accept after a typed prefix: of the ghost text "llo world" the
    word "llo" is accepted; the edit replaces the typed "he" by "hello", and
    the provider is told the length 5 of the candidate's text accepted so
    far. *)
Lemma acceptNextWord_after_typed_prefix :
  let run := acceptNextWord (Scenario.collaborators None) Scenario.editor
               Scenario.typedWorld in
  fst run = Returns tt
  /\ log (snd run)
     = [EvStateRead; EvAddRef 7; EvPushUndoStop;
        EvExecuteEdits inlineSuggestion_accept
          [replaceMove (mkRange 1 1 1 3) (Js.str "hello")];
        EvSetSelections [Scenario.cursor 1 6] inlineCompletionPartialAccept;
        EvHandlePartialAccept 7 0 5; EvRemoveRef 7]
  /\ getLineContent (textModel (snd run)) 1 = Js.str "hello".
Proof.
  cbv zeta. repeat split; vm_compute; reflexivity.
Qed.

(* ===================================================================== *)
(** ** Further properties: boundaries of a partial accept *)
(* ===================================================================== *)

Lemma substring_from_start (s : jsstring) (i : Z) :
  0 <= i <= Js.length s -> Js.substring s 0 i = take (Z.to_nat i) s.
Proof.
  intros Hi. unfold Js.substring, Js.clamp, Js.length in *. cbv zeta.
  match goal with
  | |- take (Z.to_nat ?a) (drop (Z.to_nat ?b) s) = _ =>
      replace a with i by lia; replace b with 0 by lia
  end.
  reflexivity.
Qed.

Lemma length_substring_from (s : jsstring) (a : Z) :
  0 <= a <= Js.length s -> Js.length (Js.substring_from s a) = Js.length s - a.
Proof.
  intros Ha. unfold Js.substring_from, Js.substring, Js.clamp, Js.length in *.
  cbv zeta. rewrite length_take, length_drop. lia.
Qed.

Lemma firstChar_found (p : N -> bool) (s : jsstring) (i : Z) :
  match firstChar p s i with
  | Some m =>
      exists pre c post,
        s = pre ++ c :: post
        /\ Forall (fun x => p x = false) pre /\ p c = true
        /\ matchIndex m = i + Js.length pre /\ matchText m = [c]
  | None => Forall (fun x => p x = false) s
  end.
Proof.
  revert i. induction s as [|c s IH]; intros i; simpl; [constructor|].
  destruct (p c) eqn:Hc.
  - exists [], c, s. repeat split; [constructor | exact Hc | simpl; unfold Js.length; simpl; lia].
  - specialize (IH (i + 1)). destruct (firstChar p s (i + 1)) as [m|].
    + destruct IH as (pre & c' & post & -> & Hpre & Hc' & Hidx & Htext).
      exists (c :: pre), c', post. repeat split; try assumption.
      * constructor; assumption.
      * rewrite Hidx. unfold Js.length; simpl; lia.
    + constructor; assumption.
Qed.

(** X1.  The index of "accept next line" lies within the text, and the
    prefix it cuts is the first line together with its line feed, or the
    whole text when the text has no line feed. *)
Theorem acceptNextLine_cuts_after_the_first_line_feed (text : jsstring) :
  let i := acceptNextLine_untilIndex text in
  0 <= i <= Js.length text
  /\ ((exists line rest,
         text = line ++ Lines.LF :: rest
         /\ (Lines.LF ∉ line)
         /\ Js.substring text 0 i = line ++ [Lines.LF])
      \/ ((Lines.LF ∉ text) /\ Js.substring text 0 i = text)).
Proof.
  unfold acceptNextLine_untilIndex, newlineRegExp.
  pose proof (firstChar_found (fun c => (c =? 10)%N) text 0) as H.
  destruct (firstChar (fun c => (c =? 10)%N) text 0) as [m|].
  - destruct H as (pre & c & post & -> & Hpre & Hc & Hidx & _).
    apply N.eqb_eq in Hc. subst c.
    assert (Hlen : Js.length (pre ++ 10%N :: post)
                   = Js.length pre + 1 + Js.length post).
    { unfold Js.length. rewrite length_app. simpl. lia. }
    cbv zeta. rewrite Hidx, Hlen.
    assert (Hpos : 0 <= Js.length pre /\ 0 <= Js.length post)
      by (unfold Js.length; lia).
    split; [lia|]. left. exists pre, post. split; [reflexivity|].
    split.
    + intros Hin. rewrite list.Forall_forall in Hpre.
      specialize (Hpre _ Hin). simpl in Hpre. discriminate.
    + rewrite substring_from_start by (rewrite Hlen; lia).
      replace (Z.to_nat (0 + Js.length pre + 1)) with (S (List.length pre))
        by (unfold Js.length; lia).
      change (pre ++ 10%N :: post) with (pre ++ [10%N] ++ post).
      rewrite app_assoc.
      rewrite take_app_length'; [reflexivity|].
      rewrite length_app. simpl. lia.
  - cbv zeta. split; [unfold Js.length; lia|]. right. split.
    + intros Hin. rewrite list.Forall_forall in H.
      specialize (H _ Hin). simpl in H. discriminate.
    + rewrite substring_from_start by (unfold Js.length; lia).
      unfold Js.length. rewrite Nat2Z.id. apply firstn_all.
Qed.

Lemma classPlus_wellFormed (p : N -> bool) : regExpWellFormed (classPlus p).
Proof.
  intros text m Hm. unfold classPlus in Hm.
  destruct (firstRun_leftmost_longest p text 0 m Hm)
    as (pre & post & -> & Hidx & _ & _ & Hne & _).
  rewrite Hidx. unfold Js.length. rewrite !length_app.
  repeat split; [lia | exact Hne | lia].
Qed.

(** X2.  With a word expression whose matches are non-empty and lie within
    the text, the index of "accept next word" lies within the text and is at
    least 1 on a non-empty text: a partial accept by word always commits
    something and never more than the ghost text. *)
Theorem acceptNextWord_makes_progress (wordRegExp : RegExp) (text : jsstring) :
  regExpWellFormed wordRegExp ->
  0 <= acceptNextWord_untilIndex wordRegExp text <= Js.length text
  /\ (text <> [] -> 1 <= acceptNextWord_untilIndex wordRegExp text).
Proof.
  intros Hword.
  assert (Hlen : 0 <= Js.length text) by (unfold Js.length; lia).
  assert (Hpos : text <> [] -> 1 <= Js.length text).
  { destruct text; [congruence | unfold Js.length; simpl; lia]. }
  assert (Hne : forall s : jsstring, s <> [] -> 1 <= Js.length s).
  { intros [|x s] Hs; [congruence | unfold Js.length; simpl; lia]. }
  unfold acceptNextWord_untilIndex.
  set (wb := match wordRegExp text with
             | Some m1 => if matchIndex m1 =? 0 then Js.length (matchText m1)
                          else matchIndex m1
             | None => Js.length text
             end).
  assert (Hwb : 0 <= wb <= Js.length text /\ (text <> [] -> 1 <= wb)).
  { subst wb. destruct (wordRegExp text) as [m1|] eqn:E1;
      [|split; [lia | exact Hpos]].
    destruct (Hword _ _ E1) as (Hi & Hm & Hend).
    specialize (Hne _ Hm).
    destruct (Z.eqb_spec (matchIndex m1) 0); (split; [lia | intros _; lia]). }
  destruct (wsRegExp text) as [m2|] eqn:E2; [|exact Hwb].
  destruct (classPlus_wellFormed isWhiteSpace _ _ E2) as (Hi & Hm & Hend).
  specialize (Hne _ Hm).
  destruct (Z.ltb_spec (matchIndex m2 + Js.length (matchText m2)) wb);
    [split; [lia | intros _; lia] | exact Hwb].
Qed.

Lemma acceptNextWord_makes_progress_witness :
  0 <= acceptNextWord_untilIndex simpleWordRegExp (Js.str "hello world")
    <= Js.length (Js.str "hello world")
  /\ (Js.str "hello world" <> [] ->
      1 <= acceptNextWord_untilIndex simpleWordRegExp (Js.str "hello world")).
Proof.
  apply (acceptNextWord_makes_progress simpleWordRegExp (Js.str "hello world")).
  apply classPlus_wellFormed.
Defined.

(* ===================================================================== *)
(** ** The word boundary of a partial accept *)
(* ===================================================================== *)

Lemma takeWhile_run (p : N -> bool) (run post : jsstring) :
  Forall (fun c => p c = true) run ->
  (forall c, head post = Some c -> p c = false) ->
  takeWhile p (run ++ post) = run.
Proof.
  intros Hrun Hpost. induction Hrun as [|c run Hc _ IH]; simpl.
  - destruct post as [|c post]; [reflexivity|].
    simpl. now rewrite (Hpost c eq_refl).
  - now rewrite Hc, IH.
Qed.

(** [/C+/] finds nothing in a text without class characters. *)
Lemma firstRun_none (p : N -> bool) (s : jsstring) (i : Z) :
  Forall (fun c => p c = false) s -> firstRun p s i = None.
Proof.
  intros H. revert i. induction H as [|c s Hc _ IH]; intros i; simpl;
    [reflexivity|].
  rewrite Hc. apply IH.
Qed.

(** [/C+/] finds the first run of class characters, whole. *)
Lemma firstRun_found (p : N -> bool) (pre run post : jsstring) (i : Z) :
  Forall (fun c => p c = false) pre ->
  run <> [] -> Forall (fun c => p c = true) run ->
  (forall c, head post = Some c -> p c = false) ->
  firstRun p (pre ++ run ++ post) i = Some (mkMatch (i + Js.length pre) run).
Proof.
  intros Hpre Hne Hrun Hpost. revert i.
  induction Hpre as [|c pre Hc _ IH]; intros i.
  - destruct run as [|c run]; [congruence|].
    inversion Hrun as [|? ? Hc Hrun']; subst. simpl. rewrite Hc.
    rewrite (takeWhile_run p run post Hrun' Hpost).
    do 2 f_equal. unfold Js.length. simpl. lia.
  - simpl. rewrite Hc, IH. do 2 f_equal. unfold Js.length. simpl. lia.
Qed.

(** With a word expression whose matches lie within the text, so does the
    boundary. *)
Lemma acceptNextWord_untilIndex_range (wordRegExp : RegExp) (text : jsstring) :
  regExpWellFormed wordRegExp ->
  0 <= acceptNextWord_untilIndex wordRegExp text <= Js.length text.
Proof.
  intros Hword.
  assert (Hlen : 0 <= Js.length text) by (unfold Js.length; lia).
  unfold acceptNextWord_untilIndex.
  set (wb := match wordRegExp text with
             | Some m1 => if matchIndex m1 =? 0 then Js.length (matchText m1)
                          else matchIndex m1
             | None => Js.length text
             end).
  assert (Hwb : 0 <= wb <= Js.length text).
  { subst wb. destruct (wordRegExp text) as [m1|] eqn:Hm1; [|lia].
    destruct (Hword text m1 Hm1) as (H0 & _ & Hend).
    assert (0 <= Js.length (matchText m1)) by (unfold Js.length; lia).
    destruct (Z.eqb_spec (matchIndex m1) 0); lia. }
  destruct (wsRegExp text) as [m2|] eqn:Hm2; [|exact Hwb].
  destruct (classPlus_wellFormed isWhiteSpace text m2 Hm2) as (H0 & _ & Hend).
  assert (0 <= Js.length (matchText m2)) by (unfold Js.length; lia).
  destruct (Z.ltb_spec (matchIndex m2 + Js.length (matchText m2)) wb); lia.
Qed.

Lemma substring_after_typed (typed text tail : jsstring) (i : Z) :
  0 <= i <= Js.length text ->
  Js.substring (typed ++ text ++ tail) 0 (Js.length typed + i)
  = typed ++ Js.substring text 0 i.
Proof.
  intros Hi.
  rewrite !substring_from_start.
  - unfold Js.length. rewrite Z2Nat.inj_add, Nat2Z.id by lia.
    rewrite take_app_add. f_equal.
    rewrite take_app_le; [reflexivity|]. unfold Js.length in Hi. lia.
  - exact Hi.
  - unfold Js.length in *. rewrite !length_app. lia.
Qed.

(** A run of class characters starts after a word none of whose characters
    is of the class. *)
Lemma firstRun_after_word (p isWord : N -> bool) (word post : jsstring) (i : Z)
    (m : RegExpMatch) :
  (forall c, isWord c = true -> p c = false) ->
  Forall (fun c => isWord c = true) word ->
  firstRun p (word ++ post) i = Some m ->
  i + Js.length word <= matchIndex m.
Proof.
  intros Hdisjoint Hword. revert i.
  induction Hword as [|c word Hc _ IH]; intros i Hm.
  - destruct (firstRun_leftmost_longest p _ i m Hm) as (pre & _ & _ & Hi & _).
    unfold Js.length in *. simpl. lia.
  - simpl in Hm. rewrite (Hdisjoint c Hc) in Hm.
    specialize (IH (i + 1) Hm). unfold Js.length in *. simpl. lia.
Qed.

(** For a word definition of the form [C+] with no white space in [C], on a
    text that starts with a word: the boundary is the end of that word. *)
Lemma acceptNextWord_untilIndex_leading_word (isWord : N -> bool)
    (word post : jsstring) :
  (forall c, isWord c = true -> isWhiteSpace c = false) ->
  word <> [] -> Forall (fun c => isWord c = true) word ->
  (forall c, head post = Some c -> isWord c = false) ->
  acceptNextWord_untilIndex (classPlus isWord) (word ++ post) = Js.length word.
Proof.
  intros Hdisjoint Hne Hword Hpost.
  assert (Hm1 : classPlus isWord (word ++ post) = Some (mkMatch 0 word)).
  { exact (firstRun_found isWord [] word post 0 (Forall_nil _) Hne Hword Hpost). }
  unfold acceptNextWord_untilIndex. rewrite Hm1. cbn [matchIndex matchText].
  change (0 =? 0) with true. cbv iota.
  destruct (wsRegExp (word ++ post)) as [m2|] eqn:Hm2; [|reflexivity].
  pose proof (firstRun_after_word isWhiteSpace isWord word post 0 m2
                Hdisjoint Hword Hm2) as Hafter.
  destruct (classPlus_wellFormed isWhiteSpace _ m2 Hm2) as (_ & Hne2 & _).
  assert (1 <= Js.length (matchText m2)).
  { destruct (matchText m2); [congruence | unfold Js.length; simpl; lia]. }
  destruct (Z.ltb_spec (matchIndex m2 + Js.length (matchText m2)) (Js.length word));
    [lia | reflexivity].
Qed.

(** C2.  [acceptNextWord] commits the prefix of the primary ghost text up to
    a boundary it computes from the word definition of the language at the
    ghost text: the smaller of the word boundary (the end of the first word
    match when the text starts with it, else its start, else the end of the
    text) and the end of the first white-space run of the text.  Whenever
    that boundary is not a fall-back case, the edit executed for the primary
    cursor replaces the text from the start of the candidate's range to the
    ghost text by the insertion text up to the boundary, that is by what was
    typed of it followed by the ghost text up to the boundary.  For a word
    definition of the form [C+] without white space in [C], a ghost text that
    starts with a word has that word as its committed prefix.  On the ghost
    text "hello world" with the word expression [\w+] the boundary is 5 and
    the committed prefix is "hello", not the whole text; with a word
    expression that matches the whole text, the white space stops the accept
    after "hello ". *)
Theorem acceptNextWord_commits_up_to_word_boundary :
  (forall (wordRegExp : RegExp) (text : jsstring),
      let wordBoundary :=
        match wordRegExp text with
        | Some m => if matchIndex m =? 0 then Js.length (matchText m)
                    else matchIndex m
        | None => Js.length text
        end in
      (Forall (fun c => isWhiteSpace c = false) text ->
       acceptNextWord_untilIndex wordRegExp text = wordBoundary)
      /\ (forall pre run post : jsstring,
            text = pre ++ run ++ post ->
            Forall (fun c => isWhiteSpace c = false) pre ->
            run <> [] ->
            Forall (fun c => isWhiteSpace c = true) run ->
            (forall c, head post = Some c -> isWhiteSpace c = false) ->
            acceptNextWord_untilIndex wordRegExp text
            = Z.min wordBoundary (Js.length pre + Js.length run)))
  /\ (forall (env : Collaborators) (editor : ICodeEditor) (w : World)
             (st : State) (g : GhostTextOrReplacement)
             (ic : InlineCompletionWithUpdatedRange) (w1 : World)
             (firstPart : GhostTextPart) (rest : list GhostTextPart),
        guardPasses env editor w st g ic w1 ->
        parts g = firstPart :: rest ->
        let completion := toInlineCompletion ic in
        let position := mkPosition (ghostLineNumber g) (partColumn firstPart) in
        let text := partText firstPart in
        let wordRegExp := wordDefinition env (textModel w) position in
        let idx := acceptNextWord_untilIndex wordRegExp text in
        let committed := partialEdit completion g firstPart idx in
        ~ fallsBackToAccept completion g firstPart idx ->
        exists w' edits sels,
          acceptNextWord env editor w = (Returns tt, w')
          /\ _getEdits (newRangesOf env) (textModel w) (textModel w)
               (_selections (inputs w)) committed
             = Returns (edits, sels)
          /\ edits !! 0%nat = Some committed
          /\ editRange committed
             = Rng.fromPositions (Rng.getStartPosition (range completion)) position
          /\ editText committed
             = Js.substring (insertText completion) 0
                 (partColumn firstPart - startColumn (range completion) + idx)
          /\ (forall typed tail : jsstring,
                regExpWellFormed wordRegExp ->
                insertText completion = typed ++ text ++ tail ->
                Js.length typed
                = partColumn firstPart - startColumn (range completion) ->
                editText committed = typed ++ Js.substring text 0 idx)
          /\ (exists told,
                log w'
                = log w
                  ++ [EvStateRead; EvAddRef (listRef (source completion));
                      EvPushUndoStop;
                      EvExecuteEdits inlineSuggestion_accept
                        (List.map (fun e => replaceMove (editRange e) (editText e))
                           edits);
                      EvSetSelections sels inlineCompletionPartialAccept]
                  ++ told ++ [EvRemoveRef (listRef (source completion))]))
  /\ (forall (isWord : N -> bool) (word post : jsstring),
        (forall c, isWord c = true -> isWhiteSpace c = false) ->
        word <> [] ->
        Forall (fun c => isWord c = true) word ->
        (forall c, head post = Some c -> isWord c = false) ->
        Js.substring (word ++ post) 0
          (acceptNextWord_untilIndex (classPlus isWord) (word ++ post))
        = word)
  /\ acceptNextWord_untilIndex simpleWordRegExp (Js.str "hello world") = 5
  /\ Js.substring (Js.str "hello world") 0
       (acceptNextWord_untilIndex simpleWordRegExp (Js.str "hello world"))
     = Js.str "hello"
  /\ Js.substring (Js.str "hello world") 0
       (acceptNextWord_untilIndex (classPlus (fun _ => true)) (Js.str "hello world"))
     = Js.str "hello "
  /\ (let run := acceptNextWord (Scenario.collaborators None) Scenario.editor
                   Scenario.helloWorld in
      fst run = Returns tt
      /\ log (snd run)
         = [EvStateRead; EvAddRef 7; EvPushUndoStop;
            EvExecuteEdits inlineSuggestion_accept
              [replaceMove (mkRange 1 1 1 1) (Js.str "hello")];
            EvSetSelections [Scenario.cursor 1 6] inlineCompletionPartialAccept;
            EvHandlePartialAccept 7 0 5; EvRemoveRef 7]
      /\ getLineContent (textModel (snd run)) 1 = Js.str "hello").
Proof.
  split.
  { intros wordRegExp text wordBoundary. split.
    - intros Hnone. unfold acceptNextWord_untilIndex, wsRegExp, classPlus.
      rewrite (firstRun_none isWhiteSpace text 0 Hnone). reflexivity.
    - intros pre run post -> Hpre Hne Hrun Hpost.
      unfold acceptNextWord_untilIndex, wsRegExp, classPlus.
      rewrite (firstRun_found isWhiteSpace pre run post 0 Hpre Hne Hrun Hpost).
      fold wordBoundary. cbn [matchIndex matchText].
      destruct (Z.ltb_spec (0 + Js.length pre + Js.length run) wordBoundary); lia. }
  split.
  { intros env editor w st g ic w1 firstPart rest Hguard Hparts
      completion position text wordRegExp idx committed Hnot.
    pose proof (guardPasses_world _ _ _ _ _ _ _ Hguard) as Hw1.
    assert (Htm : textModel w1 = textModel w)
      by (destruct Hw1 as [->| ->]; reflexivity).
    destruct (acceptNext_run env editor
                (fun pos text =>
                   bind (gets textModel) (fun model =>
                     ret (acceptNextWord_untilIndex (wordDefinition env model pos) text)))
                w st g ic w1 firstPart rest idx Hguard Hparts)
      as (_ & _ & Hpartial).
    { unfold bind, gets, ret. now rewrite Htm. }
    destruct (Hpartial Hnot)
      as (w' & edits & sels & Hres & Hedits & Hlog & _).
    exists w', edits, sels.
    split; [exact Hres|]. split; [exact Hedits|].
    split.
    { unfold _getEdits in Hedits.
      destruct (_selections (inputs w) !! 0%nat); [|discriminate].
      injection Hedits as <- _. reflexivity. }
    split; [reflexivity|]. split; [reflexivity|].
    split.
    { intros typed tail Hword Hins Htyped.
      subst committed. unfold partialEdit. cbn [editText].
      rewrite Hins, <- Htyped.
      apply substring_after_typed.
      apply acceptNextWord_untilIndex_range, Hword. }
    eexists. rewrite Hlog. reflexivity. }
  split.
  { intros isWord word post Hdisjoint Hne Hword Hpost.
    rewrite (acceptNextWord_untilIndex_leading_word isWord word post
               Hdisjoint Hne Hword Hpost).
    rewrite substring_from_start.
    - unfold Js.length. rewrite Nat2Z.id.
      rewrite take_app_le by lia. apply take_ge. lia.
    - unfold Js.length. rewrite length_app. lia. }
  split; [reflexivity|].
  split; [reflexivity|].
  split; [vm_compute; reflexivity|].
  cbv zeta. repeat split; vm_compute; reflexivity.
Qed.


(* ===================================================================== *)
(** ** Further properties: the edits of the secondary cursors *)
(* ===================================================================== *)

(** X3.  The edit [_getEdits] makes for a secondary cursor standing within
    its line never leaves that line: its range starts at the cursor, ends at
    or before the end of the line, and is no wider than the text the primary
    edit replaces after the primary cursor.  All secondary cursors receive
    the same text. *)
Theorem getEdits_secondary_edit_stays_in_line
    (newRangesOf : list SingleTextEdit -> list Range) (tm : ITextModel)
    (c0 : Selection) (rest : list Selection) (completion : SingleTextEdit)
    (i : nat) (c1 : Selection) :
  rest !! i = Some c1 ->
  1 <= column (Sel.getPosition c1)
    <= Js.length (getLineContent tm (lineNumber (Sel.getPosition c1))) + 1 ->
  exists edits sels e,
    _getEdits newRangesOf tm tm (c0 :: rest) completion = Returns (edits, sels)
    /\ edits !! S i = Some e
    /\ startLineNumber (editRange e) = lineNumber (Sel.getPosition c1)
    /\ endLineNumber (editRange e) = lineNumber (Sel.getPosition c1)
    /\ startColumn (editRange e) = column (Sel.getPosition c1)
    /\ startColumn (editRange e) <= endColumn (editRange e)
       <= Js.length (getLineContent tm (lineNumber (Sel.getPosition c1))) + 1
    /\ Rng.width (editRange e)
       <= Js.length (replacedTextAfterPrimaryCursor tm (Sel.getPosition c0) completion)
    /\ forall j e', edits !! S j = Some e' -> editText e' = editText e.
Proof.
  intros Hi Hcol.
  unfold _getEdits.
  change ((c0 :: rest) !! 0%nat) with (Some c0).
  change (drop 1 (c0 :: rest)) with rest.
  eexists _, _, _. split; [reflexivity|].
  pose proof (commonPrefixLength_longest
                (replacedTextAfterPrimaryCursor tm (Sel.getPosition c0) completion)
                (textAfterSecondaryCursor tm (Sel.getPosition c1)))
    as ([Hk0 Hk] & _).
  unfold textAfterSecondaryCursor in Hk0, Hk.
  rewrite length_substring_from in Hk by lia.
  split.
  { change (?x :: ?l) with ([x] ++ l) at 1.
    rewrite lookup_app_r by (simpl; lia).
    replace (S i - List.length [mkSingleTextEdit (editRange completion)
                                  (editText completion)])%nat with i
      by (simpl; lia).
    rewrite (list_lookup_fmap (secondaryEdit tm tm (Sel.getPosition c0) completion)).
    rewrite (list_lookup_fmap Sel.getPosition), Hi. simpl.
    rewrite secondaryEdit_shape. reflexivity. }
  unfold Rng.width, textAfterSecondaryCursor. simpl.
  do 3 (split; [reflexivity|]).
  split; [lia|]. split; [lia|].
  intros j e' Hj. simpl in Hj.
  rewrite (list_lookup_fmap (secondaryEdit tm tm (Sel.getPosition c0) completion)) in Hj.
  destruct (_ !! j) in Hj; [|discriminate].
  simpl in Hj. injection Hj as <-. reflexivity.
Qed.

(** X3 at work: the second cursor of the "abab" scenario. *)
Lemma getEdits_secondary_edit_stays_in_line_witness :
  exists edits sels e,
    _getEdits Scenario.plainNewRanges Scenario.ababDocument Scenario.ababDocument
      [Scenario.cursor 1 3; Scenario.cursor 2 1] Scenario.ababCompletion
    = Returns (edits, sels)
    /\ edits !! 1%nat = Some e
    /\ startLineNumber (editRange e) = 2
    /\ endLineNumber (editRange e) = 2
    /\ startColumn (editRange e) = 1
    /\ startColumn (editRange e) <= endColumn (editRange e)
       <= Js.length (getLineContent Scenario.ababDocument 2) + 1
    /\ Rng.width (editRange e)
       <= Js.length (replacedTextAfterPrimaryCursor Scenario.ababDocument
                       (mkPosition 1 3) Scenario.ababCompletion)
    /\ forall j e', edits !! S j = Some e' -> editText e' = editText e.
Proof.
  apply (getEdits_secondary_edit_stays_in_line Scenario.plainNewRanges
           Scenario.ababDocument (Scenario.cursor 1 3) [Scenario.cursor 2 1]
           Scenario.ababCompletion 0 (Scenario.cursor 2 1)).
  - reflexivity.
  - vm_compute. split; discriminate.
Defined.

(* ===================================================================== *)
(** ** Further properties: augmentation and the derived state *)
(* ===================================================================== *)

Lemma mapFindFirst_first {A B} (items : list A) (f : A -> option B) :
  match mapFindFirst items f with
  | Some y =>
      exists (i : nat) (x : A),
        items !! i = Some x /\ f x = Some y
        /\ forall (j : nat) (x' : A), (j < i)%nat -> items !! j = Some x' -> f x' = None
  | None => forall x, x ∈ items -> f x = None
  end.
Proof.
  induction items as [|x items IH]; simpl.
  - intros x Hx. apply elem_of_nil in Hx. destruct Hx.
  - destruct (f x) as [y|] eqn:Hx.
    + exists 0%nat, x. repeat split; [assumption | intros; lia].
    + destruct (mapFindFirst items f) as [y|].
      * destruct IH as (i & x' & Hi & Hfx & Hbefore).
        exists (S i), x'. repeat split; try assumption.
        intros [|j] z Hj Hz; simpl in Hz; [congruence|].
        apply (Hbefore j); [lia | assumption].
      * intros z Hz. apply elem_of_cons in Hz as [->|Hz]; [assumption | now apply IH].
Qed.

Lemma run_computeAugmentedCompletion (env : Collaborators)
    (suggestCompletion : SingleTextEdit) (w : World) :
  _computeAugmentedCompletion env suggestCompletion w
  = (Returns
       (mapFindFirst (augmentationCandidates env w)
          (fun completion =>
             let r := augmentationEdit env (textModel w) suggestCompletion completion in
             if augments env r suggestCompletion then Some (r, completion) else None)),
     match source_suggestWidgetInlineCompletions w with
     | Some _ => w
     | None =>
         if indexOfId (filteredItems env w) (_selectedInlineCompletionId w) =? -1
         then set_selectedInlineCompletionId None w else w
     end).
Proof.
  unfold _computeAugmentedCompletion, augmentationCandidates.
  unfold bind at 1, gets at 1. unfold bind at 1, gets at 1.
  destruct (source_suggestWidgetInlineCompletions w) as [swic|].
  - reflexivity.
  - unfold bind at 1. unfold bind at 1. rewrite run_selected. cbv zeta.
    destruct (_ =? -1); reflexivity.
Qed.

(** X4.  [_computeAugmentedCompletion] answers with the first candidate, in
    the order of the list, whose edit (common prefix removed up to the end of
    the suggestion's range) augments the suggestion, and with nothing when no
    candidate does.  The candidates are those of the suggest-widget batch when
    there is one, and then the stored selection is not touched; otherwise
    the only candidate is the selected inline completion. *)
Theorem computeAugmentedCompletion_first_match
    (env : Collaborators) (suggestCompletion : SingleTextEdit) (w : World) :
  exists r w',
    _computeAugmentedCompletion env suggestCompletion w = (Returns r, w')
    /\ idReset w w'
    /\ (is_Some (source_suggestWidgetInlineCompletions w) -> w' = w)
    /\ match r with
       | Some (edit, c) =>
           exists i : nat,
             augmentationCandidates env w !! i = Some c
             /\ edit = augmentationEdit env (textModel w) suggestCompletion c
             /\ augments env edit suggestCompletion = true
             /\ forall (j : nat) c', (j < i)%nat ->
                  augmentationCandidates env w !! j = Some c' ->
                  augments env
                    (augmentationEdit env (textModel w) suggestCompletion c')
                    suggestCompletion = false
       | None =>
           forall c, c ∈ augmentationCandidates env w ->
             augments env (augmentationEdit env (textModel w) suggestCompletion c)
               suggestCompletion = false
       end.
Proof.
  rewrite run_computeAugmentedCompletion.
  eexists _, _. split; [reflexivity|].
  split.
  { destruct (source_suggestWidgetInlineCompletions w); [now left|].
    destruct (_ =? -1); [now right | now left]. }
  split.
  { intros [swic Hsw]. now rewrite Hsw. }
  pose proof (mapFindFirst_first (augmentationCandidates env w)
    (fun completion =>
       let r := augmentationEdit env (textModel w) suggestCompletion completion in
       if augments env r suggestCompletion then Some (r, completion) else None)) as H.
  destruct (mapFindFirst _ _) as [[edit c]|].
  - destruct H as (i & x & Hi & Hfx & Hbefore). cbv zeta in Hfx.
    destruct (augments env (augmentationEdit env (textModel w) suggestCompletion x)
                suggestCompletion) eqn:Hx; [|discriminate].
    injection Hfx as <- <-.
    exists i. repeat split; try assumption.
    intros j c' Hj Hc'. specialize (Hbefore j c' Hj Hc'). cbv zeta in Hbefore.
    destruct (augments env
                (augmentationEdit env (textModel w) suggestCompletion c')
                suggestCompletion); [discriminate | reflexivity].
  - intros c Hc. specialize (H c Hc). cbv zeta in H.
    destruct (augments env
                (augmentationEdit env (textModel w) suggestCompletion c)
                suggestCompletion); [discriminate | reflexivity].
Qed.

Lemma suggestGhostTexts_length (env : Collaborators) (model : ITextModel)
    (mode : SuggestMode) (selections : list Selection) (n : Z)
    (edits : list SingleTextEdit) (index : nat)
    (gs : list GhostTextOrReplacement) :
  suggestGhostTexts env model mode selections n edits index = Returns gs ->
  List.length gs = List.length edits.
Proof.
  revert index gs. induction edits as [|e edits IH]; intros index gs; simpl.
  - now intros [= <-].
  - destruct (selections !! index); [|discriminate].
    destruct (suggestGhostTexts env model mode selections n edits (S index))
      as [gs'|] eqn:E; [|discriminate].
    intros [= <-]. simpl. f_equal. eapply IH, E.
Qed.

Lemma inlineGhostTexts_length (env : Collaborators) (model : ITextModel)
    (mode : SuggestMode) (selections : list Selection)
    (edits : list SingleTextEdit) (index : nat)
    (gs : list GhostTextOrReplacement) :
  inlineGhostTexts env model mode selections edits index = Returns (Some gs) ->
  List.length gs = List.length edits.
Proof.
  revert index gs. induction edits as [|e edits IH]; intros index gs; simpl.
  - now intros [= <-].
  - destruct (selections !! index); [|discriminate].
    destruct (computeGhostText env model e mode _ 0); [|discriminate].
    destruct (inlineGhostTexts env model mode selections edits (S index))
      as [[gs'|]|] eqn:E; try discriminate.
    intros [= <-]. simpl. f_equal. eapply IH, E.
Qed.

Lemma getEdits_length newRangesOf this_tm tm selections completion edits sels :
  _getEdits newRangesOf this_tm tm selections completion = Returns (edits, sels) ->
  List.length edits = List.length selections /\ selections <> [].
Proof.
  unfold _getEdits. destruct selections as [|c0 rest]; [discriminate|].
  simpl. intros [= <- _]. simpl. rewrite !length_map, drop_0. auto.
Qed.

(** X5.  Whenever the derived [state] is defined: it holds one ghost text
    per edit, the primary ghost text is the first of them, and its suggest
    item is the selected one.  With an inline completion there is one edit
    per cursor and the primary ghost text is defined; without one (only
    possible while a suggest item is previewed) there are no edits, no
    resulting selections and no primary ghost text.  Without a selected
    suggest item a state exists only while the model is active. *)
Theorem state_one_ghost_text_per_cursor
    (env : Collaborators) (w w' : World) (st : State) :
  state env w = (Returns (Some st), w') ->
  List.length (ghostTexts st) = List.length (edits st)
  /\ primaryGhostText st = ghostTexts st !! 0%nat
  /\ suggestItem st = selectedSuggestItem (inputs w)
  /\ (is_Some (inlineCompletion st) ->
      List.length (edits st) = List.length (_selections (inputs w))
      /\ is_Some (primaryGhostText st))
  /\ (inlineCompletion st = None ->
      edits st = [] /\ editorSelections st = [] /\ primaryGhostText st = None
      /\ is_Some (selectedSuggestItem (inputs w))
      /\ _suggestPreviewEnabled (inputs w) = true)
  /\ (selectedSuggestItem (inputs w) = None -> _isActive w = true).
Proof.
  unfold state. intros H.
  apply bind_returns in H as (model & w1 & [= <- <-] & H).
  apply bind_returns in H as (sugg & w1 & [= <- <-] & H).
  destruct (selectedSuggestItem (inputs w)) as [suggestItem|] eqn:Hsugg.
  - apply bind_returns in H as (aug & w1 & Haug & H).
    pose proof (readsOnly_computeAugmentedCompletion _ _ _ _ _ Haug) as Hw1.
    apply bind_returns in H as (enabled & w2 & [= <- <-] & H).
    destruct (negb (_suggestPreviewEnabled (inputs w1))
              && negb (bool_decide (is_Some aug))) eqn:Hprev; [discriminate|].
    apply bind_returns in H as (mode & w2 & [= <- <-] & H).
    apply bind_returns in H as (selections & w2 & [= <- <-] & H).
    apply bind_returns in H as (es & w2 & Hedits & H).
    apply bind_returns in H as (gts & w3 & Hgts & [= <- <-]).
    unfold lift in Hgts. injection Hgts as Hgts _.
    apply suggestGhostTexts_length in Hgts. simpl.
    assert (Hin : inputs w1 = inputs w) by (destruct Hw1 as [->| ->]; reflexivity).
    rewrite Hin in *.
    split; [exact Hgts|]. split; [reflexivity|]. split; [reflexivity|].
    destruct aug as [[edit c]|]; simpl in *.
    + unfold lift in Hedits. injection Hedits as Hedits _.
      destruct es as [es sels]. apply getEdits_length in Hedits as [Hlen Hne].
      simpl in *. split.
      * intros _. split; [exact Hlen|].
        destruct gts as [|g gts]; [|simpl; eauto].
        destruct (_selections (inputs w)); [congruence | simpl in *; lia].
      * split; [discriminate|]. discriminate.
    + injection Hedits as <- <-. simpl in *.
      split; [intros [x Hx]; discriminate|].
      split.
      * intros _. destruct gts; [|discriminate].
        repeat split; eauto.
        destruct (_suggestPreviewEnabled (inputs w)); [reflexivity|].
        vm_compute in Hprev. discriminate Hprev.
      * discriminate.
  - apply bind_returns in H as (active & w1 & [= <- <-] & H).
    destruct (_isActive w) eqn:Hact; [|discriminate]. cbn [negb] in H.
    apply bind_returns in H as (sel & w1 & Hsel & H).
    pose proof (readsOnly_selectedInlineCompletion _ _ _ _ Hsel) as Hw1.
    destruct sel as [sel|]; [|discriminate].
    apply bind_returns in H as (selections & w2 & [= <- <-] & H).
    apply bind_returns in H as (es & w2 & Hedits & H).
    apply bind_returns in H as (mode & w3 & [= <- <-] & H).
    apply bind_returns in H as (gts & w3 & Hgts & H).
    destruct gts as [gts|]; [|discriminate].
    injection H as <- <-. simpl.
    unfold lift in Hgts. injection Hgts as Hgts _.
    apply inlineGhostTexts_length in Hgts.
    unfold lift in Hedits. injection Hedits as Hedits _.
    destruct es as [es sels]. apply getEdits_length in Hedits as [Hlen Hne].
    assert (Hin : inputs w1 = inputs w) by (destruct Hw1 as [->| ->]; reflexivity).
    rewrite Hin in *. simpl in *.
    split; [exact Hgts|]. split; [reflexivity|]. split; [reflexivity|].
    split.
    + intros _. split; [exact Hlen|].
      destruct gts as [|g gts]; [|simpl; eauto].
      destruct (_selections (inputs w)); [congruence | simpl in *; lia].
    + split; [discriminate | reflexivity].
Qed.

(** X5 at work: the state over "hello world". *)
Lemma state_one_ghost_text_per_cursor_witness :
  let w := Scenario.helloWorld in
  let st := mkState None
              (Some (Scenario.candidate "hello" (mkRange 1 1 1 1) "hello world" None))
              (Some (mkGhostText 1 [mkGhostTextPart 1 (Js.str "hello world") false] false))
              [mkGhostText 1 [mkGhostTextPart 1 (Js.str "hello world") false] false]
              [mkSingleTextEdit (mkRange 1 1 1 1) (Js.str "hello world")]
              [Scenario.cursor 1 12] in
  List.length (ghostTexts st) = List.length (edits st)
  /\ primaryGhostText st = ghostTexts st !! 0%nat
  /\ suggestItem st = selectedSuggestItem (inputs w)
  /\ (is_Some (inlineCompletion st) ->
      List.length (edits st) = List.length (_selections (inputs w))
      /\ is_Some (primaryGhostText st))
  /\ (inlineCompletion st = None ->
      edits st = [] /\ editorSelections st = [] /\ primaryGhostText st = None
      /\ is_Some (selectedSuggestItem (inputs w))
      /\ _suggestPreviewEnabled (inputs w) = true)
  /\ (selectedSuggestItem (inputs w) = None -> _isActive w = true).
Proof.
  cbv zeta.
  refine (state_one_ghost_text_per_cursor (Scenario.collaborators None)
            Scenario.helloWorld
            (snd (state (Scenario.collaborators None) Scenario.helloWorld)) _ _).
  apply run_eq. vm_compute. reflexivity.
Defined.

(* ===================================================================== *)
(** ** Further properties: how the accept methods compose *)
(* ===================================================================== *)

Lemma state_inactive (env : Collaborators) (w : World) :
  selectedSuggestItem (inputs w) = None -> _isActive w = false ->
  state env w = (Returns None, w).
Proof.
  intros Hs Ha. unfold state, bind, gets. rewrite Hs, Ha. reflexivity.
Qed.

Lemma modelDiffers_bound (editor : ICodeEditor) (tm : ITextModel) :
  editorModel editor = Some (modelRef tm) -> modelDiffers editor tm = false.
Proof.
  intros H. unfold modelDiffers. now rewrite bool_decide_eq_true_2.
Qed.

(** X6.  After [stop()], with no suggest item selected, there is nothing to
    accept: the model is inactive, both batches of the source are gone, the
    derived state is [undefined], and each accept method called on the bound
    editor returns having done nothing but read the state. *)
Theorem stop_leaves_nothing_to_accept
    (env : Collaborators) (editor : ICodeEditor) (w : World) :
  selectedSuggestItem (inputs w) = None ->
  editorModel editor = Some (modelRef (textModel w)) ->
  exists w',
    stop w = (Returns tt, w')
    /\ log w' = log w ++ [EvTransaction [WSetActive false; WSourceClear]]
    /\ _isActive w' = false
    /\ source_inlineCompletions w' = None
    /\ source_suggestWidgetInlineCompletions w' = None
    /\ textModel w' = textModel w
    /\ state env w' = (Returns None, w')
    /\ accept env editor w' = (Returns tt, add_log EvStateRead w')
    /\ acceptNextWord env editor w' = (Returns tt, add_log EvStateRead w')
    /\ acceptNextLine env editor w' = (Returns tt, add_log EvStateRead w').
Proof.
  intros Hs Hed.
  set (w' := add_log (EvTransaction [WSetActive false; WSourceClear])
               (foldl (fun w wr => applyWrite wr w) w [WSetActive false; WSourceClear])).
  exists w'. split; [reflexivity|].
  do 5 (split; [reflexivity|]).
  split; [now apply state_inactive|].
  assert (Hbound : modelDiffers editor (textModel w') = false)
    by (apply modelDiffers_bound; exact Hed).
  assert (Hstate : state env (add_log EvStateRead w')
                   = (Returns None, add_log EvStateRead w'))
    by (apply state_inactive; [exact Hs | reflexivity]).
  destruct (accept_noop env editor w' _ None Hbound Hstate I) as (H1 & H2 & H3 & _).
  auto.
Qed.

Lemma stop_leaves_nothing_to_accept_witness :
  exists w',
    stop Scenario.helloWorld = (Returns tt, w')
    /\ log w' = log Scenario.helloWorld
                ++ [EvTransaction [WSetActive false; WSourceClear]]
    /\ _isActive w' = false
    /\ source_inlineCompletions w' = None
    /\ source_suggestWidgetInlineCompletions w' = None
    /\ textModel w' = textModel Scenario.helloWorld
    /\ state (Scenario.collaborators None) w' = (Returns None, w')
    /\ accept (Scenario.collaborators None) Scenario.editor w'
       = (Returns tt, add_log EvStateRead w')
    /\ acceptNextWord (Scenario.collaborators None) Scenario.editor w'
       = (Returns tt, add_log EvStateRead w')
    /\ acceptNextLine (Scenario.collaborators None) Scenario.editor w'
       = (Returns tt, add_log EvStateRead w').
Proof.
  apply (stop_leaves_nothing_to_accept (Scenario.collaborators None)
           Scenario.editor Scenario.helloWorld); reflexivity.
Defined.

Lemma indexOfId_nil (s : option jsstring) : indexOfId [] s = -1.
Proof. reflexivity. Qed.

(** The state after a full accept, while a suggest item is selected whose
    preview is disabled. *)
Lemma state_cleared_without_preview (env : Collaborators) (w : World) :
  _suggestPreviewEnabled (inputs w) = false ->
  source_inlineCompletions w = None ->
  source_suggestWidgetInlineCompletions w = None ->
  is_Some (selectedSuggestItem (inputs w)) ->
  state env w = (Returns None, set_selectedInlineCompletionId None w).
Proof.
  intros Hprev Hsrc Hsw [si Hsi].
  unfold state. unfold bind at 1, gets at 1. unfold bind at 1, gets at 1.
  rewrite Hsi. unfold bind at 1.
  rewrite run_computeAugmentedCompletion.
  unfold augmentationCandidates, filteredItems, visibleItems.
  rewrite Hsw, Hsrc. simpl.
  unfold bind, gets. simpl. rewrite Hprev. reflexivity.
Qed.

(** X7.  A full accept of a completion without a command is not repeated by
    a second call: after an accept that passed its guard, with no suggest
    item selected or with the suggest preview disabled, a second [accept] on
    the same editor only reads the state; it executes no edit and leaves the
    document alone, whatever the document has become in between (by the
    insertion of a snippet, say). *)
Theorem accept_twice_accepts_once
    (env : Collaborators) (editor : ICodeEditor) (w : World)
    (st : State) (g : GhostTextOrReplacement)
    (ic : InlineCompletionWithUpdatedRange) (w1 : World) :
  guardPasses env editor w st g ic w1 ->
  command (toInlineCompletion ic) = None ->
  selectedSuggestItem (inputs w) = None \/ _suggestPreviewEnabled (inputs w) = false ->
  exists w',
    accept env editor w = (Returns tt, w')
    /\ forall tm' : ITextModel,
         modelRef tm' = modelRef (textModel w') ->
         exists w'',
           accept env editor (set_textModel tm' w') = (Returns tt, w'')
           /\ log w'' = log w' ++ [EvStateRead]
           /\ textModel w'' = tm'
           /\ _isActive w'' = false
           /\ source_inlineCompletions w'' = None
           /\ source_suggestWidgetInlineCompletions w'' = None.
Proof.
  intros Hguard _ Hcase.
  destruct (accept_run env editor w st g ic w1 Hguard)
    as (w' & Hrun & _ & Hact & Hsrc & Hsw & Htm & Hin & _).
  exists w'. split; [exact Hrun|].
  intros tm' Href.
  set (wd := set_textModel tm' w').
  assert (Hbound : modelDiffers editor (textModel wd) = false).
  { destruct Hguard as (Hm & _). unfold modelDiffers in *. simpl.
    rewrite Href, Htm. exact Hm. }
  assert (Hstate : exists w'',
            state env (add_log EvStateRead wd) = (Returns None, w'')
            /\ idReset (add_log EvStateRead wd) w'').
  { destruct (selectedSuggestItem (inputs w)) as [si|] eqn:Hsi.
    - destruct Hcase as [Hc|Hc]; [discriminate|].
      eexists. split; [|now right].
      apply state_cleared_without_preview; simpl;
        rewrite ?Hin, ?Hsi; eauto.
    - eexists. split; [|now left].
      apply state_inactive; simpl; [now rewrite Hin | exact Hact]. }
  destruct Hstate as (w'' & Hstate & Hreset).
  destruct (accept_noop env editor wd w'' None Hbound Hstate I) as (Hacc & _).
  exists w''. split; [exact Hacc|].
  destruct Hreset as [->| ->]; simpl; auto.
Qed.

Lemma accept_twice_accepts_once_witness :
  exists w',
    accept (Scenario.collaborators None) Scenario.editor Scenario.helloWorld
    = (Returns tt, w')
    /\ forall tm' : ITextModel,
         modelRef tm' = modelRef (textModel w') ->
         exists w'',
           accept (Scenario.collaborators None) Scenario.editor
             (set_textModel tm' w') = (Returns tt, w'')
           /\ log w'' = log w' ++ [EvStateRead]
           /\ textModel w'' = tm'
           /\ _isActive w'' = false
           /\ source_inlineCompletions w'' = None
           /\ source_suggestWidgetInlineCompletions w'' = None.
Proof.
  refine (accept_twice_accepts_once (Scenario.collaborators None)
            Scenario.editor Scenario.helloWorld _ _
            (Scenario.candidate "hello" (mkRange 1 1 1 1) "hello world" None)
            (snd (state (Scenario.collaborators None)
                    (add_log EvStateRead Scenario.helloWorld))) _ _ _).
  - split; [reflexivity|].
    split; [apply run_eq; vm_compute; reflexivity|].
    split; [reflexivity|]. split; reflexivity.
  - reflexivity.
  - left. reflexivity.
Defined.

(* ===================================================================== *)
(** ** Further properties: what the accept methods leave behind *)
(* ===================================================================== *)

Lemma refBalance_app (r : nat) (a b : list Event) :
  refBalance r (a ++ b) = refBalance r a + refBalance r b.
Proof.
  induction a as [|e a IH]; simpl; [lia|].
  destruct e; rewrite ?IH; lia.
Qed.

Lemma refBalance_acceptEditEvents (r : nat) (editor : ICodeEditor) (st : State)
    (completion : InlineCompletionItem) :
  refBalance r (acceptEditEvents editor st completion) = 0.
Proof.
  unfold acceptEditEvents.
  destruct (snippetInfo completion); [destruct (hasSnippetController editor)|];
    reflexivity.
Qed.

Lemma refBalance_accept_command (r : nat) (env : Collaborators)
    (completion : InlineCompletionItem) :
  refBalance r (acceptAddRef completion
                ++ [EvTransaction [WSourceClear; WSetActive false]]
                ++ acceptCommandEvents env completion) = 0.
Proof.
  unfold acceptAddRef, acceptCommandEvents.
  destruct (command completion) as [c|]; [|reflexivity].
  destruct (commandOutcome env c); simpl;
    destruct (bool_decide (listRef (source completion) = r)); reflexivity.
Qed.

Lemma idReset_log (w w1 : World) (e : Event) :
  idReset (add_log e w) w1 ->
  log w1 = log w ++ [e]
  /\ _isAcceptingPartially w1 = _isAcceptingPartially w
  /\ textModel w1 = textModel w.
Proof. intros [->| ->]; repeat split; reflexivity. Qed.

(** The ways a call of [accept] can go. *)
Lemma accept_outcomes (env : Collaborators) (editor : ICodeEditor) (w : World) :
  accept env editor w = (Throws BugIndicatingError, w)
  \/ (exists r w1, accept env editor w = (r, w1)
                   /\ idReset (add_log EvStateRead w) w1)
  \/ (exists st g ic w1, guardPasses env editor w st g ic w1).
Proof.
  destruct (modelDiffers editor (textModel w)) eqn:Hd.
  { left. unfold accept, bind, gets, throw. now rewrite Hd. }
  right.
  destruct (state env (add_log EvStateRead w)) as [res w1] eqn:Hst.
  pose proof (readsOnly_state env _ _ _ Hst) as Hw1.
  assert (Hrun : accept env editor w
                 = match res with
                   | Returns (Some st) =>
                       match primaryGhostText st with
                       | Some g =>
                           if isEmpty g then (Returns tt, w1)
                           else match inlineCompletion st with
                                | Some ic => accept env editor w
                                | None => (Returns tt, w1)
                                end
                       | None => (Throws TypeError, w1)
                       end
                   | Returns None => (Returns tt, w1)
                   | Throws e => (Throws e, w1)
                   end).
  { destruct res as [[st|]|e].
    - destruct (primaryGhostText st) as [g|] eqn:Hg.
      + destruct (isEmpty g) eqn:He.
        * unfold accept. unfold bind at 1, gets at 1. rewrite Hd.
          unfold bind at 1, emit at 1, modify at 1.
          unfold bind at 1. rewrite Hst, Hg, He. reflexivity.
        * destruct (inlineCompletion st) eqn:Hic; [reflexivity|].
          unfold accept. unfold bind at 1, gets at 1. rewrite Hd.
          unfold bind at 1, emit at 1, modify at 1.
          unfold bind at 1. rewrite Hst, Hg, He, Hic. reflexivity.
      + unfold accept. unfold bind at 1, gets at 1. rewrite Hd.
        unfold bind at 1, emit at 1, modify at 1.
        unfold bind at 1. rewrite Hst, Hg. reflexivity.
    - unfold accept. unfold bind at 1, gets at 1. rewrite Hd.
      unfold bind at 1, emit at 1, modify at 1.
      unfold bind at 1. rewrite Hst. reflexivity.
    - unfold accept. unfold bind at 1, gets at 1. rewrite Hd.
      unfold bind at 1, emit at 1, modify at 1.
      unfold bind at 1. rewrite Hst. reflexivity. }
  destruct res as [[st|]|e]; [| left; eauto | left; eauto].
  destruct (primaryGhostText st) as [g|] eqn:Hg; [| left; eauto].
  destruct (isEmpty g) eqn:He; [left; eauto|].
  destruct (inlineCompletion st) as [ic|] eqn:Hic; [| left; eauto].
  right. exists st, g, ic, w1. repeat split; assumption.
Qed.

Lemma accept_cleans_up (env : Collaborators) (editor : ICodeEditor)
    (w : World) (r : nat) :
  refBalance r (log (snd (accept env editor w))) = refBalance r (log w)
  /\ _isAcceptingPartially (snd (accept env editor w)) = _isAcceptingPartially w.
Proof.
  destruct (accept_outcomes env editor w)
    as [-> | [(res & w1 & -> & Hw1) | (st & g & ic & w1 & Hguard)]].
  - auto.
  - apply idReset_log in Hw1 as (Hlog & Hflag & _). simpl.
    rewrite Hlog, refBalance_app. simpl. split; [lia | exact Hflag].
  - destruct (accept_run env editor w st g ic w1 Hguard)
      as (w' & -> & Hlog & _ & _ & _ & _ & _ & Hflag).
    simpl. rewrite Hlog, !refBalance_app, refBalance_acceptEditEvents.
    rewrite <- !refBalance_app, refBalance_accept_command.
    simpl. split; [lia | exact Hflag].
Qed.

Lemma fallsBackToAccept_dec completion g firstPart idx :
  Decision (fallsBackToAccept completion g firstPart idx).
Proof. unfold fallsBackToAccept. apply _. Defined.


(* ===================================================================== *)
(** ** Further properties: sequences of navigation steps *)
(* ===================================================================== *)

(** The index [selectedInlineCompletionIndex] answers, as a function of the
    pool and the stored id. *)
Lemma selectedIndex_in_range (l : list InlineCompletionWithUpdatedRange)
    (s : option jsstring) :
  l <> [] ->
  0 <= (if indexOfId l s =? -1 then 0 else indexOfId l s) < arrayLength l.
Proof.
  intros Hne.
  assert (0 < arrayLength l) by (destruct l; [congruence | unfold arrayLength; simpl; lia]).
  destruct (indexOfId_range l s) as [E|E].
  - rewrite E. simpl. lia.
  - destruct (Z.eqb_spec (indexOfId l s) (-1)); lia.
Qed.

Lemma navigate_index (env : Collaborators)
    (l : list InlineCompletionWithUpdatedRange) (steps : list bool) :
  l <> [] -> NoDup (List.map semanticId l) ->
  forall w, poolUnchanged env w l ->
  exists w',
    navigate env steps w = (Returns tt, w')
    /\ poolUnchanged env w' l
    /\ (if indexOfId l (_selectedInlineCompletionId w') =? -1 then 0
        else indexOfId l (_selectedInlineCompletionId w'))
       = ((if indexOfId l (_selectedInlineCompletionId w) =? -1 then 0
           else indexOfId l (_selectedInlineCompletionId w))
          + netSteps steps) mod arrayLength l.
Proof.
  intros Hne Hnd.
  induction steps as [|step rest IH]; intros w Hpool.
  - exists w. split; [reflexivity|]. split; [exact Hpool|].
    simpl. rewrite Z.add_0_r. symmetry. apply Z.mod_small.
    apply selectedIndex_in_range, Hne.
  - pose proof (selectedIndex_in_range l (_selectedInlineCompletionId w) Hne) as Hrange.
    set (idx0 := if indexOfId l (_selectedInlineCompletionId w) =? -1 then 0
                 else indexOfId l (_selectedInlineCompletionId w)) in *.
    set (delta := if step then 1 else -1).
    assert (Hdelta : -1 <= delta) by (subst delta; destruct step; lia).
    destruct (run_deltaSelectedInlineCompletionIndex env w l delta Hpool Hne Hdelta)
      as (w1 & c1 & Hrun1 & Hpool1 & Hget1 & Hsel1).
    cbv zeta in Hget1. fold idx0 in Hget1.
    destruct (arrayGet_lookup _ _ _ Hget1) as [Hj1 Hlook1].
    pose proof (indexOfId_NoDup l _ c1 Hnd Hlook1) as Hidx1.
    rewrite Z2Nat.id in Hidx1 by exact Hj1.
    destruct (IH w1 Hpool1) as (w' & Hrun & Hpool' & Hidx').
    exists w'. split.
    { simpl. unfold bind.
      replace (if step then next env else previous env)
        with (_deltaSelectedInlineCompletionIndex env delta)
        by (subst delta; destruct step; reflexivity).
      rewrite Hrun1. exact Hrun. }
    split; [exact Hpool'|].
    rewrite Hidx', Hsel1, Hidx1.
    assert (Hlen : 0 < arrayLength l) by lia.
    rewrite Z.rem_mod_nonneg in * by lia.
    destruct (Z.eqb_spec ((idx0 + delta + arrayLength l) mod arrayLength l) (-1)) as [E|_].
    { pose proof (Z.mod_pos_bound (idx0 + delta + arrayLength l) (arrayLength l) Hlen). lia. }
    rewrite Zplus_mod_idemp_l.
    replace (idx0 + delta + arrayLength l + netSteps rest)
      with (idx0 + netSteps (step :: rest) + 1 * arrayLength l)
      by (simpl; subst delta; destruct step; lia).
    apply Z.mod_add. lia.
Qed.

(** X9.  Over a candidate pool that stays the non-empty list [l] and whose
    semantic ids are pairwise distinct, any sequence of [next()] and
    [previous()] calls returns, and moves the selected index by the number of
    [next()] calls minus the number of [previous()] calls, modulo the length
    of the pool: the selection wraps around at both ends, and as many steps
    in one direction as the pool has candidates lead back to the candidate
    selected at the start. *)
Theorem navigate_moves_by_net_steps_modulo_length
    (env : Collaborators) (w : World)
    (l : list InlineCompletionWithUpdatedRange) (steps : list bool) :
  poolUnchanged env w l -> l <> [] -> NoDup (List.map semanticId l) ->
  exists (w' : World) (idx : Z),
    navigate env steps w = (Returns tt, w')
    /\ fst (selectedInlineCompletionIndex env w) = Returns idx
    /\ 0 <= idx < arrayLength l
    /\ fst (selectedInlineCompletionIndex env w')
       = Returns ((idx + netSteps steps) mod arrayLength l)
    /\ fst (selectedInlineCompletion env w')
       = Returns (arrayGet l ((idx + netSteps steps) mod arrayLength l))
    /\ (netSteps steps mod arrayLength l = 0 ->
        fst (selectedInlineCompletion env w')
        = fst (selectedInlineCompletion env w)).
Proof.
  intros Hpool Hne Hnd.
  destruct (navigate_index env l steps Hne Hnd w Hpool) as (w' & Hrun & Hpool' & Hidx).
  pose proof (selectedIndex_in_range l (_selectedInlineCompletionId w) Hne) as Hrange.
  destruct Hpool as [Hl _]. destruct Hpool' as [Hl' _].
  set (idx0 := if indexOfId l (_selectedInlineCompletionId w) =? -1 then 0
               else indexOfId l (_selectedInlineCompletionId w)) in *.
  assert (Hsel : forall w0, filteredItems env w0 = l ->
            fst (selectedInlineCompletion env w0)
            = Returns (arrayGet l (if indexOfId l (_selectedInlineCompletionId w0) =? -1
                                   then 0
                                   else indexOfId l (_selectedInlineCompletionId w0)))).
  { intros w0 H0. rewrite run_selected. cbv zeta. rewrite H0.
    destruct (indexOfId l (_selectedInlineCompletionId w0) =? -1); reflexivity. }
  exists w', idx0.
  split; [exact Hrun|].
  split; [rewrite selectedIndex_value; cbv zeta; rewrite Hl; reflexivity|].
  split; [exact Hrange|].
  split; [rewrite selectedIndex_value; cbv zeta; rewrite Hl', Hidx; reflexivity|].
  split; [rewrite (Hsel w' Hl'), Hidx; reflexivity|].
  intros Hnet. rewrite (Hsel w' Hl'), (Hsel w Hl), Hidx. fold idx0.
  do 2 f_equal.
  rewrite <- Zplus_mod_idemp_r, Hnet, Z.add_0_r. apply Z.mod_small, Hrange.
Qed.

(** X9 at work: over three candidates with "y" selected, three [next()]
    calls wrap around and come back to "y". *)
Lemma navigate_moves_by_net_steps_modulo_length_witness :
  let env := Scenario.collaborators (Some (Scenario.batch Scenario.distinctItems)) in
  let w := Scenario.poolWorld Scenario.distinctItems (Some (Js.str "y")) in
  exists (w' : World) (idx : Z),
    navigate env [true; true; true] w = (Returns tt, w')
    /\ fst (selectedInlineCompletionIndex env w) = Returns idx
    /\ 0 <= idx < 3
    /\ fst (selectedInlineCompletionIndex env w') = Returns ((idx + 3) mod 3)
    /\ fst (selectedInlineCompletion env w')
       = Returns (arrayGet Scenario.distinctItems ((idx + 3) mod 3))
    /\ ((3 mod 3 = 0) ->
        fst (selectedInlineCompletion env w')
        = fst (selectedInlineCompletion env w)).
Proof.
  refine (navigate_moves_by_net_steps_modulo_length
            (Scenario.collaborators (Some (Scenario.batch Scenario.distinctItems)))
            (Scenario.poolWorld Scenario.distinctItems (Some (Js.str "y")))
            Scenario.distinctItems [true; true; true] _ _ _).
  - split; [reflexivity | intros; reflexivity].
  - discriminate.
  - repeat constructor; vm_compute; intros H;
      repeat (apply elem_of_cons in H as [H|H]; [discriminate H|]);
      apply elem_of_nil in H; exact H.
Defined.

(* ===================================================================== *)
(** ** Further properties: fetching *)
(* ===================================================================== *)

(** A run of [_fetchInlineCompletions] that updates. *)
Lemma run_fetchInlineCompletions (env : Collaborators) (cs : ChangeSummary)
    (w : World) :
  (_enabled (inputs w) && bool_decide (is_Some (selectedSuggestItem (inputs w))))
  || _isActive w = true ->
  let l := filteredItems env w in
  let i := indexOfId l (_selectedInlineCompletionId w) in
  let selected := arrayGet l (if i =? -1 then 0 else i) in
  let keep := if preserveCurrentCompletion cs || from_option forwardStable false selected
              then selected else None in
  let suggestItem := selectedSuggestItem (inputs w) in
  let seeds :=
    match source_suggestWidgetInlineCompletions w, suggestItem with
    | Some swic, None =>
        match source_inlineCompletions w with
        | None => true
        | Some ic => requestVersionId ic <? requestVersionId swic
        end
    | _, _ => false
    end in
  let context := mkContext (inlineCompletionTriggerKind cs) suggestItem in
  exists w' tx,
    _fetchInlineCompletions env cs w = (Returns tt, w')
    /\ tx = match source_suggestWidgetInlineCompletions w, suggestItem with
            | Some _, None =>
                [EvTransaction ((if seeds then [WSourceSeed] else [])
                                ++ [WSourceClearSuggestWidget])]
            | _, _ => []
            end
    /\ log w' = log w ++ tx ++ [EvSourceFetch (cursorPositionOf w) context keep]
    /\ inputs w' = inputs w
    /\ textModel w' = textModel w
    /\ _isActive w' = _isActive w
    /\ _isAcceptingPartially w' = _isAcceptingPartially w
    /\ _selectedInlineCompletionId w'
       = (if i =? -1 then None else _selectedInlineCompletionId w)
    /\ source_inlineCompletions w'
       = sourceFetch env
           (if seeds then source_suggestWidgetInlineCompletions w
            else source_inlineCompletions w)
           (cursorPositionOf w) context keep
    /\ source_suggestWidgetInlineCompletions w'
       = match suggestItem with
         | Some _ => source_suggestWidgetInlineCompletions w
         | None => None
         end.
Proof.
  intros Hshould. cbv zeta.
  unfold _fetchInlineCompletions.
  unfold bind at 1, gets at 1. unfold bind at 1, gets at 1.
  unfold bind at 1, gets at 1.
  rewrite Hshould. cbn [negb].
  unfold bind at 1. rewrite run_selected. cbv zeta.
  clear Hshould.
  destruct w as [[sugg sels spe spm ism en] tm act sid part src swic lg].
  unfold cursorPositionOf. cbn [inputs textModel _isActive _selectedInlineCompletionId
    _isAcceptingPartially source_inlineCompletions
    source_suggestWidgetInlineCompletions log selectedSuggestItem _selections].
  generalize (filteredItems env
                (mkWorld (mkInputs sugg sels spe spm ism en) tm act sid part src swic lg)).
  intros l.
  destruct (indexOfId l sid =? -1);
    unfold bind, gets, modify, emit, ret, transaction, _cursorPosition; cbn;
    destruct swic as [swic|]; destruct sugg as [si|];
    try destruct src as [ic|]; cbn;
    try match goal with
        | |- context [if ?c then [WSourceSeed] else _] => destruct c; cbn
        end;
    eexists _, _; (split; [reflexivity|]); (split; [reflexivity|]);
    cbn; rewrite <- ?app_assoc; repeat split; reflexivity.
Qed.

(** X10.  In a constructed model [_fetchInlineCompletions] never throws.
    When the model is neither active nor (enabled and with a selected
    suggest item) it cancels the source's update and does nothing else.
    Otherwise it asks the source for exactly one fetch, at the cursor
    position, with the trigger kind of the change summary, and cancels
    nothing; the candidate to preserve is the selected one or none, and it
    is the selected one whenever the change summary asks to preserve it; the
    batch of the suggest widget replaces the current batch only when there
    is no current batch or an older one, and no batch of the suggest widget
    is left once no suggest item is selected.  The first evaluation, which
    the constructor asks for before [_cursorPosition] is assigned, is
    another matter: enabled and with a selected suggest item it throws a
    [TypeError] before any fetch; otherwise it only cancels. *)
Theorem fetchInlineCompletions_cancels_or_fetches_once
    (env : Collaborators) (cs : ChangeSummary) (w : World) :
  (let shouldUpdate :=
     (_enabled (inputs w) && bool_decide (is_Some (selectedSuggestItem (inputs w))))
     || _isActive w in
   exists w',
    _fetchInlineCompletions env cs w = (Returns tt, w')
    /\ textModel w' = textModel w
    /\ _isActive w' = _isActive w
    /\ (shouldUpdate = false -> w' = add_log EvSourceCancelUpdate w)
    /\ (shouldUpdate = true ->
        exists tx keep current,
          log w' = log w ++ tx
                   ++ [EvSourceFetch (cursorPositionOf w)
                         (mkContext (inlineCompletionTriggerKind cs)
                            (selectedSuggestItem (inputs w))) keep]
          /\ (tx = [] \/ exists writes, tx = [EvTransaction writes])
          /\ (keep = None \/ Returns keep = fst (selectedInlineCompletion env w))
          /\ (preserveCurrentCompletion cs = true ->
              Returns keep = fst (selectedInlineCompletion env w))
          /\ source_inlineCompletions w'
             = sourceFetch env current (cursorPositionOf w)
                 (mkContext (inlineCompletionTriggerKind cs)
                    (selectedSuggestItem (inputs w))) keep
          /\ (current = source_inlineCompletions w
              \/ exists swic,
                   current = Some swic
                   /\ source_suggestWidgetInlineCompletions w = Some swic
                   /\ selectedSuggestItem (inputs w) = None
                   /\ forall ic, source_inlineCompletions w = Some ic ->
                        requestVersionId ic < requestVersionId swic)
          /\ (selectedSuggestItem (inputs w) = None ->
              source_suggestWidgetInlineCompletions w' = None)
          /\ (is_Some (selectedSuggestItem (inputs w)) ->
              source_suggestWidgetInlineCompletions w'
              = source_suggestWidgetInlineCompletions w
              /\ current = source_inlineCompletions w)))
  /\ (forall (i : Inputs) (tm : ITextModel),
        constructor_fetchInlineCompletions env (initialWorld i tm)
        = if _enabled i && bool_decide (is_Some (selectedSuggestItem i))
          then (Throws TypeError, initialWorld i tm)
          else (Returns tt, add_log EvSourceCancelUpdate (initialWorld i tm))).
Proof.
  split.
  2:{ intros i tm. unfold constructor_fetchInlineCompletions.
      unfold bind at 1, gets at 1. unfold bind at 1, gets at 1.
      unfold bind at 1, gets at 1.
      change (inputs (initialWorld i tm)) with i.
      change (_isActive (initialWorld i tm)) with false.
      rewrite orb_false_r.
      destruct (_enabled i && bool_decide (is_Some (selectedSuggestItem i)));
        [|reflexivity].
      cbn [negb]. unfold bind at 1. rewrite run_selected. cbv zeta.
      change (filteredItems env (initialWorld i tm)) with
        (@nil InlineCompletionWithUpdatedRange).
      rewrite indexOfId_nil. reflexivity. }
  intros shouldUpdate.
  destruct shouldUpdate eqn:Hshould; subst shouldUpdate.
  - destruct (run_fetchInlineCompletions env cs w Hshould)
      as (w' & tx & Hrun & Htx & Hlog & _ & Htm & Hact & _ & _ & Hsrc & Hsw).
    exists w'. split; [exact Hrun|]. split; [exact Htm|]. split; [exact Hact|].
    split; [discriminate|]. intros _.
    eexists tx, _, _. split; [exact Hlog|].
    split.
    { rewrite Htx. destruct (source_suggestWidgetInlineCompletions w);
        [destruct (selectedSuggestItem (inputs w))|]; eauto. }
    assert (Hsel : fst (selectedInlineCompletion env w)
                   = Returns (arrayGet (filteredItems env w)
                       (if indexOfId (filteredItems env w) (_selectedInlineCompletionId w) =? -1
                        then 0
                        else indexOfId (filteredItems env w) (_selectedInlineCompletionId w)))).
    { rewrite run_selected. cbv zeta.
      destruct (indexOfId (filteredItems env w) (_selectedInlineCompletionId w) =? -1);
        reflexivity. }
    split.
    { rewrite Hsel. destruct (preserveCurrentCompletion cs || _); [now right | now left]. }
    split.
    { intros Hp. rewrite Hsel, Hp. reflexivity. }
    split; [exact Hsrc|].
    split.
    { destruct (source_suggestWidgetInlineCompletions w) as [swic|]; [|now left].
      destruct (selectedSuggestItem (inputs w)); [now left|].
      destruct (source_inlineCompletions w) as [ic|].
      - destruct (Z.ltb_spec (requestVersionId ic) (requestVersionId swic));
          [right | now left].
        exists swic. repeat split. intros ? [= <-]. assumption.
      - right. exists swic. repeat split. discriminate. }
    split.
    { intros Hnone. rewrite Hsw, Hnone. reflexivity. }
    intros [si Hsi]. rewrite Hsw, Hsi.
    split; [reflexivity|].
    destruct (source_suggestWidgetInlineCompletions w); reflexivity.
  - exists (add_log EvSourceCancelUpdate w).
    unfold _fetchInlineCompletions, bind, gets, emit, modify.
    rewrite Hshould. cbn [negb].
    repeat split; try reflexivity. discriminate.
Qed.


(* ===================================================================== *)
(** ** Further properties: telling the provider *)
(* ===================================================================== *)

(** After a run of the autorun, [lastItem] carries the semantic id of the
    candidate of the state just seen. *)
Lemma handleItemDidShow_autorun_lastItem
    (providerHandles : InlineCompletionList -> bool)
    (lastItem : option InlineCompletionWithUpdatedRange) (item : option State) :
  semanticId <$> fst (handleItemDidShow_autorun providerHandles lastItem item)
  = semanticId <$> (item ≫= inlineCompletion).
Proof.
  unfold handleItemDidShow_autorun. cbv zeta.
  destruct (bool_decide_reflect
              ((semanticId <$> item ≫= inlineCompletion) = (semanticId <$> lastItem)))
    as [E|E]; simpl; congruence.
Qed.

(** The calls of a run depend on [lastItem] through its semantic id only. *)
Lemma handleItemDidShow_autorun_calls
    (providerHandles : InlineCompletionList -> bool)
    (lastItem : option InlineCompletionWithUpdatedRange) (item : option State) :
  snd (handleItemDidShow_autorun providerHandles lastItem item)
  = match item ≫= inlineCompletion with
    | Some c =>
        if bool_decide (Some (semanticId c) = (semanticId <$> lastItem)) then []
        else if providerHandles (source (toInlineCompletion c))
             then [mkItemDidShow (listRef (source (toInlineCompletion c)))
                     (sourceInlineCompletion (toInlineCompletion c))
                     (insertText (toInlineCompletion c))]
             else []
    | None => []
    end.
Proof.
  unfold handleItemDidShow_autorun. cbv zeta.
  destruct (item ≫= inlineCompletion) as [c|]; simpl.
  - destruct (bool_decide _); reflexivity.
  - destruct (bool_decide _); reflexivity.
Qed.

Lemma handleItemDidShow_runs_lookup
    (providerHandles : InlineCompletionList -> bool)
    (items : list (option State)) :
  forall (lastItem : option InlineCompletionWithUpdatedRange) (k : nat)
         (prev cur : option State),
    items !! k = Some prev -> items !! S k = Some cur ->
    exists last,
      (semanticId <$> last) = (semanticId <$> (prev ≫= inlineCompletion))
      /\ handleItemDidShow_runs providerHandles lastItem items !! S k
         = Some (snd (handleItemDidShow_autorun providerHandles last cur)).
Proof.
  induction items as [|item items IH]; intros lastItem k prev cur Hk HSk.
  - discriminate Hk.
  - destruct k as [|k].
    + simpl in Hk. injection Hk as ->.
      destruct items as [|item' items]; [discriminate HSk|].
      simpl in HSk. injection HSk as ->.
      eexists. split; [apply handleItemDidShow_autorun_lastItem|]. reflexivity.
    + simpl in Hk. change ((item :: items) !! S (S k)) with (items !! S k) in HSk.
      destruct (IH (fst (handleItemDidShow_autorun providerHandles lastItem item))
                  k prev cur Hk HSk) as (last & Hlast & Hrun).
      exists last. split; [exact Hlast|]. exact Hrun.
Qed.

(** X12.  From one value of [state] to the next, the autorun of the
    constructor calls the provider's [handleItemDidShow] at most once, and
    exactly when the new state holds a candidate whose semantic id differs
    from that of the candidate of the state before (there being none counts
    as a difference) and the provider of that candidate has the hook.  So a
    candidate that stays shown while its range or text is updated is not
    reported again, and one that comes back after the state was undefined is
    reported anew. *)
Theorem handleItemDidShow_once_per_change_of_semantic_id
    (providerHandles : InlineCompletionList -> bool)
    (items : list (option State)) (k : nat) (prev cur : option State) :
  items !! k = Some prev ->
  items !! S k = Some cur ->
  handleItemDidShow_runs providerHandles None items !! S k
  = Some match cur ≫= inlineCompletion with
         | Some c =>
             if bool_decide
                  (Some (semanticId c) = (semanticId <$> (prev ≫= inlineCompletion)))
             then []
             else if providerHandles (source (toInlineCompletion c))
                  then [mkItemDidShow (listRef (source (toInlineCompletion c)))
                          (sourceInlineCompletion (toInlineCompletion c))
                          (insertText (toInlineCompletion c))]
                  else []
         | None => []
         end.
Proof.
  intros Hk HSk.
  destruct (handleItemDidShow_runs_lookup providerHandles items None k prev cur Hk HSk)
    as (last & Hlast & ->).
  rewrite handleItemDidShow_autorun_calls, Hlast. reflexivity.
Qed.

(** X12 at work: a state showing the candidate "hello" is seen twice, then
    the state is undefined, then the candidate is shown again: the second run
    stays silent, the fourth reports the candidate anew. *)
Lemma handleItemDidShow_once_per_change_of_semantic_id_witness :
  let hello := Scenario.candidate "hello" (mkRange 1 1 1 1) "hello world" None in
  let shown := Some (mkState None (Some hello) None [] [] []) in
  let runs := handleItemDidShow_runs (fun _ => true) None [shown; shown; None; shown] in
  runs !! 1%nat = Some []
  /\ runs !! 3%nat = Some [mkItemDidShow 7 0 (Js.str "hello world")].
Proof.
  cbv zeta. split.
  - exact (handleItemDidShow_once_per_change_of_semantic_id (fun _ => true)
             [_; _; None; _] 0 _ _ eq_refl eq_refl).
  - exact (handleItemDidShow_once_per_change_of_semantic_id (fun _ => true)
             [_; _; None; _] 2 _ _ eq_refl eq_refl).
Defined.

(** X13.  [handleSuggestAccepted(item)] never throws and never touches the
    document, the active flag or the batches of the source.  It calls the
    provider's [handlePartialAccept] at most once: exactly when some inline
    completion augments the accepted suggestion (its edit with the common
    prefix removed) and the provider of that completion has the hook; the
    length it reports is that of the suggestion's own text, not of the
    inline completion's. *)
Theorem handleSuggestAccepted_only_tells_the_provider
    (env : Collaborators) (item : SuggestItemInfo) (w : World) :
  let itemEdit := removeCommonPrefix env (textModel w) (suggestEdit item) None in
  exists w' told,
    handleSuggestAccepted env item w = (Returns tt, w')
    /\ log w' = log w ++ told
    /\ textModel w' = textModel w
    /\ _isActive w' = _isActive w
    /\ source_inlineCompletions w' = source_inlineCompletions w
    /\ source_suggestWidgetInlineCompletions w'
       = source_suggestWidgetInlineCompletions w
    /\ match fst (_computeAugmentedCompletion env itemEdit w) with
       | Returns (Some (_, c)) =>
           let inlineCompletion := toInlineCompletion c in
           told = if providerHandlesPartialAccept (source inlineCompletion)
                  then [EvHandlePartialAccept (listRef (source inlineCompletion))
                          (sourceInlineCompletion inlineCompletion)
                          (Js.length (editText itemEdit))]
                  else []
       | _ => told = []
       end.
Proof.
  intros itemEdit.
  unfold handleSuggestAccepted. unfold bind at 1, gets at 1. fold itemEdit.
  unfold bind at 1. rewrite run_computeAugmentedCompletion.
  cbn [fst].
  set (w1 := match source_suggestWidgetInlineCompletions w with
             | Some _ => w
             | None => _
             end).
  assert (Hw1 : idReset w w1).
  { subst w1. destruct (source_suggestWidgetInlineCompletions w); [now left|].
    destruct (indexOfId (filteredItems env w) (_selectedInlineCompletionId w) =? -1);
      [now right | now left]. }
  clearbody w1.
  destruct (mapFindFirst _ _) as [[edit c]|].
  - cbv zeta. cbn [snd].
    destruct (providerHandlesPartialAccept (source (toInlineCompletion c))).
    + eexists _, _. split; [reflexivity|].
      destruct Hw1 as [->| ->]; repeat split; reflexivity.
    + exists w1, []. split; [reflexivity|]. rewrite app_nil_r.
      destruct Hw1 as [->| ->]; repeat split; reflexivity.
  - exists w1, []. split; [reflexivity|]. rewrite app_nil_r.
    destruct Hw1 as [->| ->]; repeat split; reflexivity.
Qed.

(* ===================================================================== *)
(** ** Further properties: reading the state again *)
(* ===================================================================== *)

Lemma sameView_filteredItems (env : Collaborators) (w w' : World) :
  sameView env w w' -> filteredItems env w' = filteredItems env w.
Proof.
  intros (Hin & Htm & _ & Hsrc & _).
  unfold filteredItems, visibleItems, cursorPositionOf. now rewrite Hin, Htm, Hsrc.
Qed.

Lemma sameView_refl (env : Collaborators) (w : World) : sameView env w w.
Proof. repeat split; try reflexivity. now left. Qed.

Lemma sameView_trans (env : Collaborators) (w1 w2 w3 : World) :
  sameView env w1 w2 -> sameView env w2 w3 -> sameView env w1 w3.
Proof.
  intros H12 H23.
  pose proof (sameView_filteredItems _ _ _ H12) as Hl.
  destruct H12 as (Hin & Htm & Hact & Hsrc & Hsw & Hid).
  destruct H23 as (Hin' & Htm' & Hact' & Hsrc' & Hsw' & Hid').
  repeat split; try congruence.
  destruct Hid as [E | [E Hidx]].
  - destruct Hid' as [E' | [E' Hidx']]; [left; congruence|].
    right. split; [exact E'|]. rewrite <- Hl, <- E. exact Hidx'.
  - right. split; [|exact Hidx].
    destruct Hid' as [E' | [E' _]]; congruence.
Qed.

Lemma sameView_idReset (env : Collaborators) (w w1 : World) (e : Event) :
  idReset (add_log e w) w1 ->
  inputs w1 = inputs w /\ textModel w1 = textModel w /\ log w1 = log w ++ [e].
Proof. intros [->| ->]; repeat split; reflexivity. Qed.

Lemma respectsView_ret {A} (env : Collaborators) (a : A) : respectsView env (ret a).
Proof.
  intros w w' H. split; [reflexivity|]. split; [exact H | apply sameView_refl].
Qed.

Lemma respectsView_lift {A} (env : Collaborators) (x : Result A) :
  respectsView env (lift x).
Proof.
  intros w w' H. split; [reflexivity|]. split; [exact H | apply sameView_refl].
Qed.

Lemma respectsView_gets {A} (env : Collaborators) (f : World -> A) :
  (forall w w', sameView env w w' -> f w' = f w) -> respectsView env (gets f).
Proof.
  intros Hf w w' H. split; [simpl; f_equal; now apply Hf|].
  split; [exact H | apply sameView_refl].
Qed.

Lemma respectsView_bind {A B} (env : Collaborators) (m : M A) (k : A -> M B) :
  respectsView env m -> (forall a, respectsView env (k a)) ->
  respectsView env (bind m k).
Proof.
  intros Hm Hk w w' H. unfold bind.
  destruct (Hm w w' H) as (Hr & Hw & Hs).
  destruct (m w) as [[a|e] w1], (m w') as [[a'|e'] w1']; simpl in Hr, Hw, Hs;
    try discriminate Hr.
  - injection Hr as ->.
    destruct (Hk a w1 w1' Hw) as (Hr2 & Hw2 & Hs2).
    split; [exact Hr2|]. split; [exact Hw2|].
    eapply sameView_trans; eassumption.
  - injection Hr as ->. split; [reflexivity|]. split; assumption.
Qed.

Lemma respectsView_selectedInlineCompletion (env : Collaborators) :
  respectsView env (selectedInlineCompletion env).
Proof.
  intros w w' H.
  pose proof (sameView_filteredItems _ _ _ H) as Hl.
  rewrite !run_selected. cbv zeta. rewrite Hl.
  destruct H as (Hin & Htm & Hact & Hsrc & Hsw & Hid).
  set (l := filteredItems env w) in *.
  destruct Hid as [E | [E Hidx]].
  - rewrite E.
    destruct (indexOfId l (_selectedInlineCompletionId w) =? -1) eqn:Ei; simpl.
    + apply Z.eqb_eq in Ei.
      repeat split; simpl; try assumption; try reflexivity; try (now left).
      right. split; [reflexivity | exact Ei].
    + repeat split; simpl; try assumption; try reflexivity; now left.
  - rewrite E, indexOfId_None, Hidx. simpl.
    repeat split; simpl; try assumption; try reflexivity; try (now left).
    right. split; [reflexivity | exact Hidx].
Qed.

Lemma respectsView_computeAugmentedCompletion (env : Collaborators)
    (suggestCompletion : SingleTextEdit) :
  respectsView env (_computeAugmentedCompletion env suggestCompletion).
Proof.
  unfold _computeAugmentedCompletion.
  apply respectsView_bind;
    [apply respectsView_gets; intros ? ? H; apply H | intros model].
  apply respectsView_bind;
    [apply respectsView_gets; intros ? ? H; apply H | intros [swic|]].
  - apply respectsView_bind; [apply respectsView_ret | intros; apply respectsView_ret].
  - apply respectsView_bind; [|intros; apply respectsView_ret].
    apply respectsView_bind;
      [apply respectsView_selectedInlineCompletion | intros; apply respectsView_ret].
Qed.

Lemma respectsView_inputs {A} (env : Collaborators) (f : Inputs -> A) :
  respectsView env (gets (fun w => f (inputs w))).
Proof.
  apply respectsView_gets. intros w w' (Hin & _). now rewrite Hin.
Qed.

Lemma respectsView_state (env : Collaborators) : respectsView env (state env).
Proof.
  unfold state.
  apply respectsView_bind;
    [apply respectsView_gets; intros ? ? H; apply H | intros model].
  apply respectsView_bind;
    [apply (respectsView_inputs env selectedSuggestItem) | intros [suggestItem|]].
  - apply respectsView_bind;
      [apply respectsView_computeAugmentedCompletion | intros augmented].
    apply respectsView_bind;
      [apply (respectsView_inputs env _suggestPreviewEnabled) | intros enabled].
    destruct (_ && _); [apply respectsView_ret|].
    apply respectsView_bind;
      [apply (respectsView_inputs env _suggestPreviewMode) | intros mode].
    apply respectsView_bind;
      [apply (respectsView_inputs env _selections) | intros selections].
    apply respectsView_bind.
    { destruct (snd <$> augmented); [apply respectsView_lift | apply respectsView_ret]. }
    intros edits.
    apply respectsView_bind; [apply respectsView_lift | intros; apply respectsView_ret].
  - apply respectsView_bind;
      [apply respectsView_gets; intros ? ? H; apply H | intros active].
    destruct (negb active); [apply respectsView_ret|].
    apply respectsView_bind;
      [apply respectsView_selectedInlineCompletion | intros [ic|]];
      [|apply respectsView_ret].
    apply respectsView_bind;
      [apply (respectsView_inputs env _selections) | intros selections].
    apply respectsView_bind; [apply respectsView_lift | intros edits].
    apply respectsView_bind;
      [apply (respectsView_inputs env _inlineSuggestMode) | intros mode].
    apply respectsView_bind; [apply respectsView_lift | intros [ghostTexts|]];
      apply respectsView_ret.
Qed.

Lemma sameView_add_log (env : Collaborators) (w : World) (e : Event) :
  sameView env w (add_log e w).
Proof. repeat split; try reflexivity. now left. Qed.

(** X14.  Reading the derived [state] a second time gives the same state:
    the reset of the stored id that [selectedInlineCompletionIndex] may
    perform during the first read, the calls logged in between and the
    partial-accept flag do not change what is shown. *)
Theorem state_read_again_is_the_same (env : Collaborators) (w : World) :
  fst (state env (snd (state env w))) = fst (state env w)
  /\ (forall e : Event,
        fst (state env (add_log e (snd (state env w)))) = fst (state env w))
  /\ (forall b : bool,
        fst (state env (set_isAcceptingPartially b w)) = fst (state env w))
  /\ sameView env w (snd (state env w)).
Proof.
  destruct (respectsView_state env w w (sameView_refl env w)) as (_ & _ & Hs).
  split; [apply (respectsView_state env w _ Hs)|].
  split.
  - intros e. apply (respectsView_state env w).
    eapply sameView_trans; [exact Hs | apply sameView_add_log].
  - split; [|exact Hs].
    intros b. apply (respectsView_state env w).
    repeat split; try reflexivity. now left.
Qed.

(** A guard passed once is passed again by the [accept] of the fall-back. *)
Lemma guardPasses_again (env : Collaborators) (editor : ICodeEditor) (w : World)
    (st : State) (g : GhostTextOrReplacement)
    (ic : InlineCompletionWithUpdatedRange) (w1 : World) :
  guardPasses env editor w st g ic w1 ->
  guardPasses env editor w1 st g ic (snd (state env (add_log EvStateRead w1))).
Proof.
  intros Hguard.
  pose proof (guardPasses_world _ _ _ _ _ _ _ Hguard) as Hw1.
  destruct Hguard as (Hmodel & Hst & Hg & Hne & Hic).
  destruct (sameView_idReset env _ _ _ Hw1) as (_ & Htm & _).
  split; [now rewrite Htm|].
  split; [|auto].
  apply run_eq.
  destruct (respectsView_state env (add_log EvStateRead w) (add_log EvStateRead w)
              (sameView_refl env _)) as (_ & _ & Hs).
  rewrite Hst in Hs. simpl in Hs.
  transitivity (fst (state env (add_log EvStateRead w))); [|now rewrite Hst].
  apply (respectsView_state env (add_log EvStateRead w)).
  eapply sameView_trans; [exact Hs | apply sameView_add_log].
Qed.

(** X15.  When [acceptNextWord] or [acceptNextLine] fall back to [accept],
    the full accept goes through: it reads the state a second time, finds the
    state the guard saw, hands the editor the edits of the whole completion,
    takes the reference if there is a command, clears the source and calls
    the command.  When the fall-back is awaited (a snippet, or a filter text
    that differs from the insertion text) the method returns after the
    command has settled and the reference is released.  When it is not
    awaited (the boundary at the end of a single-part ghost text) the method
    returns right after the call of the command; what is pending then
    settles the command and releases the reference.  Without a command the
    model is idle at return, and without a snippet either the document is
    the one after the edits. *)
Theorem acceptNext_fallback_accepts_in_full
    (env : Collaborators) (editor : ICodeEditor) (w : World)
    (st : State) (g : GhostTextOrReplacement)
    (ic : InlineCompletionWithUpdatedRange) (w1 : World)
    (firstPart : GhostTextPart) (rest : list GhostTextPart)
    (method : ICodeEditor -> M unit) (idx : Z) :
  guardPasses env editor w st g ic w1 ->
  parts g = firstPart :: rest ->
  let completion := toInlineCompletion ic in
  let position := mkPosition (ghostLineNumber g) (partColumn firstPart) in
  let text := partText firstPart in
  (method = acceptNextWord env
   /\ idx = acceptNextWord_untilIndex (wordDefinition env (textModel w) position) text)
  \/ (method = acceptNextLine env /\ idx = acceptNextLine_untilIndex text) ->
  fallsBackToAccept completion g firstPart idx ->
  let awaited :=
    is_Some (snippetInfo completion)
    \/ filterText completion <> insertText completion in
  let upToTheCall :=
    log w ++ [EvStateRead; EvStateRead]
    ++ acceptEditEvents editor st completion
    ++ acceptAddRef completion
    ++ [EvTransaction [WSourceClear; WSetActive false]]
    ++ acceptCommandCall completion in
  let after := applyEdits env (textModel w) (acceptEditOps st completion) in
  exists w',
    method editor w = (Returns tt, w')
    /\ (awaited -> log w' = upToTheCall ++ acceptSettleEvents env completion)
    /\ (~ awaited ->
        log w' = upToTheCall
        /\ log (snd (acceptPending env completion w'))
           = upToTheCall ++ acceptSettleEvents env completion)
    /\ _isAcceptingPartially w' = _isAcceptingPartially w
    /\ (command completion = None ->
        _isActive w' = false
        /\ source_inlineCompletions w' = None
        /\ source_suggestWidgetInlineCompletions w' = None)
    /\ (command completion = None -> snippetInfo completion = None ->
        getLineContent (textModel w') = getLineContent after
        /\ getValueInRange (textModel w') = getValueInRange after).
Proof.
  intros Hguard Hparts completion position text Hmethod Hfall awaited upToTheCall after.
  pose proof (guardPasses_world _ _ _ _ _ _ _ Hguard) as Hw1.
  destruct (sameView_idReset env _ _ _ Hw1) as (Hin & Htm & Hlog).
  assert (Hpart : _isAcceptingPartially w1 = _isAcceptingPartially w)
    by (destruct Hw1 as [->| ->]; reflexivity).
  assert (Hrun :
    exists cb, method editor = _acceptNext env editor cb
               /\ cb position text w1 = (Returns idx, w1)).
  { destruct Hmethod as [[-> ->] | [-> ->]].
    - eexists. split; [reflexivity|].
      unfold bind, gets, ret. now rewrite Htm.
    - eexists. split; reflexivity. }
  destruct Hrun as (cb & -> & Hcb).
  destruct (acceptNext_run env editor cb w st g ic w1 firstPart rest idx
              Hguard Hparts Hcb) as (Hfull & Hboundary & _).
  pose proof (guardPasses_again _ _ _ _ _ _ _ Hguard) as Hagain.
  destruct (acceptUnawaited_run env editor w1 st g ic _ Hagain)
    as (wu & Hun & Hlogu & Hactu & Hsrcu & Hswu & Htmu & _ & Hpartu & Hpend & Hsettle).
  destruct (accept_run env editor w1 st g ic _ Hagain)
    as (wa & Hacc & Hloga & Hacta & Hsrca & Hswa & Htma & _ & Hparta).
  fold completion in Hlogu, Hloga, Hpend, Hsettle, Htmu, Htma.
  assert (Hcall : log wu = upToTheCall).
  { subst upToTheCall. rewrite Hlogu, Hlog, <- !app_assoc. reflexivity. }
  assert (Hdec : awaited \/ ~ awaited).
  { subst awaited.
    destruct (snippetInfo completion) as [info|]; [left; left; eauto|].
    destruct (decide (filterText completion = insertText completion)) as [E|E];
      [right | left; now right].
    intros [[x Hx] | Hne]; [discriminate | contradiction]. }
  destruct Hdec as [Hyes | Hno].
  - (* awaited *)
    rewrite (Hfull Hyes). exists wa. split; [exact Hacc|].
    split.
    { intros _. rewrite Hacc in Hsettle. simpl in Hsettle.
      now rewrite Hsettle, Hcall. }
    split; [intros Hcontra; contradiction|].
    split; [congruence|].
    split; [intros _; auto|].
    intros _ Hsn. rewrite Htma, Htm. split; reflexivity.
  - (* not awaited: the boundary case *)
    assert (Hsn : snippetInfo completion = None).
    { destruct (snippetInfo completion) as [info|] eqn:E; [|reflexivity].
      exfalso. apply Hno. left. eauto. }
    assert (Hft : filterText completion = insertText completion).
    { destruct (decide (filterText completion = insertText completion)) as [E|E];
        [exact E | exfalso; apply Hno; now right]. }
    assert (Hb : idx = Js.length text /\ arrayLength (parts g) = 1).
    { destruct Hfall as [Hs | [Hf | Hb]]; [exfalso; apply Hno; now left
                                          | contradiction | exact Hb]. }
    rewrite (Hboundary Hsn Hft (proj1 Hb) (proj2 Hb)).
    exists wu. split; [exact Hun|].
    split; [intros Hcontra; contradiction|].
    split.
    { intros _. split; [exact Hcall|].
      rewrite Hpend, Hsettle, Hcall. reflexivity. }
    split; [congruence|].
    split; [intros _; auto|].
    intros _ _. rewrite Htmu, Htm. split; reflexivity.
Qed.

(** X15 at work: "hello world" is shown at the start of an empty line;
    [acceptNextLine] finds no line feed in it, falls back without waiting,
    and the whole completion is accepted. *)
Lemma acceptNext_fallback_accepts_in_full_witness :
  let env := Scenario.collaborators None in
  let hello := Scenario.candidate "hello" (mkRange 1 1 1 1) "hello world" None in
  let completion := toInlineCompletion hello in
  exists st w',
    acceptNextLine env Scenario.editor Scenario.helloWorld = (Returns tt, w')
    /\ ((is_Some (snippetInfo completion)
         \/ filterText completion <> insertText completion) ->
        log w'
        = (log Scenario.helloWorld ++ [EvStateRead; EvStateRead]
           ++ acceptEditEvents Scenario.editor st completion
           ++ acceptAddRef completion
           ++ [EvTransaction [WSourceClear; WSetActive false]]
           ++ acceptCommandCall completion)
          ++ acceptSettleEvents env completion)
    /\ (~ (is_Some (snippetInfo completion)
           \/ filterText completion <> insertText completion) ->
        log w'
        = log Scenario.helloWorld ++ [EvStateRead; EvStateRead]
          ++ acceptEditEvents Scenario.editor st completion
          ++ acceptAddRef completion
          ++ [EvTransaction [WSourceClear; WSetActive false]]
          ++ acceptCommandCall completion
        /\ log (snd (acceptPending env completion w'))
           = (log Scenario.helloWorld ++ [EvStateRead; EvStateRead]
              ++ acceptEditEvents Scenario.editor st completion
              ++ acceptAddRef completion
              ++ [EvTransaction [WSourceClear; WSetActive false]]
              ++ acceptCommandCall completion)
             ++ acceptSettleEvents env completion)
    /\ _isAcceptingPartially w' = _isAcceptingPartially Scenario.helloWorld
    /\ (command completion = None ->
        _isActive w' = false
        /\ source_inlineCompletions w' = None
        /\ source_suggestWidgetInlineCompletions w' = None)
    /\ (command completion = None -> snippetInfo completion = None ->
        getLineContent (textModel w')
        = getLineContent
            (applyEdits env (textModel Scenario.helloWorld)
               (acceptEditOps st completion))
        /\ getValueInRange (textModel w')
           = getValueInRange
               (applyEdits env (textModel Scenario.helloWorld)
                  (acceptEditOps st completion))).
Proof.
  cbv zeta. eexists.
  refine (acceptNext_fallback_accepts_in_full
            (Scenario.collaborators None) Scenario.editor Scenario.helloWorld _
            (mkGhostText 1 [mkGhostTextPart 1 (Js.str "hello world") false] false)
            (Scenario.candidate "hello" (mkRange 1 1 1 1) "hello world" None)
            (snd (state (Scenario.collaborators None)
                    (add_log EvStateRead Scenario.helloWorld)))
            (mkGhostTextPart 1 (Js.str "hello world") false) []
            (acceptNextLine (Scenario.collaborators None)) 11 _ _ _ _).
  - split; [reflexivity|].
    split; [apply run_eq; vm_compute; reflexivity|].
    split; [reflexivity|]. split; reflexivity.
  - reflexivity.
  - right. split; reflexivity.
  - right. right. split; reflexivity.
Defined.

(* ===================================================================== *)
(** ** Further properties: the guard of the accept methods *)
(* ===================================================================== *)

(** X16.  [accept], [acceptNextWord] and [acceptNextLine] act only on what
    is shown.  Unless the derived state, read on the editor the model is
    bound to, holds a non-empty primary ghost text and an inline completion,
    the call does nothing: it returns or throws with the document, the
    editor and the source untouched, and leaves behind at most the read of
    the state (with the stored id possibly reset by it). *)
Theorem accept_methods_act_only_on_what_is_shown
    (env : Collaborators) (editor : ICodeEditor) (w : World) :
  (exists st g ic w1, guardPasses env editor w st g ic w1)
  \/ (forall method : ICodeEditor -> M unit,
        method = accept env \/ method = acceptNextWord env
        \/ method = acceptNextLine env ->
        exists r w',
          method editor w = (r, w')
          /\ (w' = w \/ idReset (add_log EvStateRead w) w')).
Proof.
  destruct (modelDiffers editor (textModel w)) eqn:Hd.
  { right. intros method [-> | [-> | ->]]; exists (Throws BugIndicatingError), w;
      (split; [|now left]);
      unfold acceptNextWord, acceptNextLine, accept, _acceptNext, bind, gets, throw;
      now rewrite Hd. }
  destruct (state env (add_log EvStateRead w)) as [res w1] eqn:Hst.
  pose proof (readsOnly_state env _ _ _ Hst) as Hw1.
  assert (Hgo : forall k : option State -> M unit,
    bind (gets textModel)
      (fun tm => if modelDiffers editor tm then throw BugIndicatingError
                 else bind (emit EvStateRead) (fun _ => bind (state env) k)) w
    = match res with
      | Returns st => k st w1
      | Throws e => (Throws e : Result unit, w1)
      end).
  { intros k. unfold bind at 1, gets at 1. rewrite Hd.
    unfold bind at 1, emit at 1, modify at 1.
    unfold bind at 1. rewrite Hst. now destruct res. }
  destruct res as [[st|]|e];
    [| right; intros method [-> | [-> | ->]];
       unfold acceptNextWord, acceptNextLine, accept, _acceptNext;
       rewrite Hgo; eexists _, w1; (split; [reflexivity | now right])
     | right; intros method [-> | [-> | ->]];
       unfold acceptNextWord, acceptNextLine, accept, _acceptNext;
       rewrite Hgo; eexists _, w1; (split; [reflexivity | now right])].
  destruct (primaryGhostText st) as [g|] eqn:Hg;
    [| right; intros method [-> | [-> | ->]];
       unfold acceptNextWord, acceptNextLine, accept, _acceptNext;
       rewrite Hgo, ?Hg; eexists _, w1; (split; [reflexivity | now right])].
  destruct (isEmpty g) eqn:He;
    [right; intros method [-> | [-> | ->]];
       unfold acceptNextWord, acceptNextLine, accept, _acceptNext;
       rewrite Hgo, ?Hg, ?He; eexists _, w1; (split; [reflexivity | now right])|].
  destruct (inlineCompletion st) as [ic|] eqn:Hic;
    [| right; intros method [-> | [-> | ->]];
       unfold acceptNextWord, acceptNextLine, accept, _acceptNext;
       rewrite Hgo, ?Hg, ?He, ?Hic; eexists _, w1; (split; [reflexivity | now right])].
  left. exists st, g, ic, w1. repeat split; assumption.
Qed.

(* ===================================================================== *)
(** ** Further properties: the derived members read by the view *)
(* ===================================================================== *)

(** X17.  [inlineCompletionsCount] is defined exactly when the batch at hand
    answers an explicit request; it is then the number of visible
    candidates, reading it changes nothing, and the selected index lies
    below it.  Over an empty list of candidates the count is 0 while the
    index is still 0, and no candidate is selected. *)
Theorem inlineCompletionsCount_bounds_the_index
    (env : Collaborators) (w : World) :
  exists (count : option Z) (idx : Z),
    inlineCompletionsCount env w = (Returns count, w)
    /\ fst (selectedInlineCompletionIndex env w) = Returns idx
    /\ (is_Some count <-> lastTriggerKind w = (Returns (Some Explicit), w))
    /\ (lastTriggerKind w = (Returns None, w) <-> source_inlineCompletions w = None)
    /\ forall n : Z, count = Some n ->
         n = arrayLength (filteredItems env w)
         /\ (0 < n -> 0 <= idx < n
                      /\ is_Some (arrayGet (filteredItems env w) idx))
         /\ (n = 0 -> idx = 0
                      /\ fst (selectedInlineCompletion env w) = Returns None).
Proof.
  assert (Hkind : lastTriggerKind w
                  = (Returns ((fun b => triggerKind (requestContext b))
                              <$> source_inlineCompletions w), w)) by reflexivity.
  set (l := filteredItems env w).
  set (idx := if indexOfId l (_selectedInlineCompletionId w) =? -1 then 0
              else indexOfId l (_selectedInlineCompletionId w)).
  assert (Hidx : fst (selectedInlineCompletionIndex env w) = Returns idx)
    by apply selectedIndex_value.
  assert (Hsel : fst (selectedInlineCompletion env w) = Returns (arrayGet l idx)).
  { rewrite run_selected. cbv zeta. fold l. subst idx.
    destruct (indexOfId l (_selectedInlineCompletionId w) =? -1); reflexivity. }
  assert (Hbounds : forall n : Z, n = arrayLength l ->
            (0 < n -> 0 <= idx < n /\ is_Some (arrayGet l idx))
            /\ (n = 0 -> idx = 0
                         /\ fst (selectedInlineCompletion env w) = Returns None)).
  { intros n ->. split.
    - intros Hpos.
      assert (Hne : l <> []) by (intros E; rewrite E in Hpos; unfold arrayLength in Hpos; simpl in Hpos; lia).
      pose proof (selectedIndex_in_range l (_selectedInlineCompletionId w) Hne) as Hr.
      fold idx in Hr. split; [exact Hr|].
      unfold arrayGet. destruct (Z.ltb_spec idx 0); [lia|].
      apply lookup_lt_is_Some. unfold arrayLength in Hr. lia.
    - intros Hzero.
      assert (El : l = []) by (destruct l; [reflexivity | discriminate Hzero]).
      rewrite Hsel. subst idx. rewrite El, indexOfId_nil. simpl. auto. }
  unfold inlineCompletionsCount. unfold bind at 1. rewrite Hkind.
  destruct (source_inlineCompletions w) as [b|] eqn:Hsrc; simpl.
  - destruct (triggerKind (requestContext b)) eqn:Hk; simpl.
    + exists None, idx. split; [reflexivity|]. split; [exact Hidx|].
      split; [split; [intros [x Hx]; discriminate | discriminate]|].
      split; [split; discriminate | discriminate].
    + exists (Some (arrayLength l)), idx.
      split.
      { unfold bind. rewrite run_filtered. reflexivity. }
      split; [exact Hidx|].
      split; [split; [reflexivity | eauto]|].
      split; [split; discriminate|].
      intros n [= <-]. split; [reflexivity | apply Hbounds; reflexivity].
  - exists None, idx. split; [reflexivity|]. split; [exact Hidx|].
    split; [split; [intros [x Hx]; discriminate | discriminate]|].
    split; [split; reflexivity | discriminate].
Qed.

(** What a defined state holds as its primary ghost text. *)
Lemma state_primary_is_first (env : Collaborators) (w w' : World) (st : State) :
  state env w = (Returns (Some st), w') ->
  primaryGhostText st = ghostTexts st !! 0%nat.
Proof.
  unfold state. intros H.
  apply bind_returns in H as (model & w1 & [= <- <-] & H).
  apply bind_returns in H as (sugg & w1 & [= <- <-] & H).
  destruct (selectedSuggestItem (inputs w)) as [suggestItem|].
  - apply bind_returns in H as (aug & w1 & _ & H).
    apply bind_returns in H as (enabled & w2 & [= <- <-] & H).
    destruct (_ && _); [discriminate|].
    apply bind_returns in H as (mode & w2 & [= <- <-] & H).
    apply bind_returns in H as (selections & w2 & [= <- <-] & H).
    apply bind_returns in H as (es & w2 & _ & H).
    apply bind_returns in H as (gts & w3 & _ & [= <- <-]). reflexivity.
  - apply bind_returns in H as (active & w1 & [= <- <-] & H).
    destruct (negb (_isActive w)); [discriminate|].
    apply bind_returns in H as (sel & w1 & _ & H).
    destruct sel as [sel|]; [|discriminate].
    apply bind_returns in H as (selections & w2 & [= <- <-] & H).
    apply bind_returns in H as (es & w2 & _ & H).
    apply bind_returns in H as (mode & w3 & [= <- <-] & H).
    apply bind_returns in H as (gts & w3 & _ & H).
    destruct gts as [gts|]; [|discriminate].
    injection H as <- <-. reflexivity.
Qed.

(** X18.  The derived members [ghostTexts] and [primaryGhostText] agree with
    each other: both are undefined when the state is, both fail when reading
    the state fails, and otherwise [primaryGhostText] is the first entry of
    [ghostTexts] (undefined when there is none).  Reading either leaves the
    world as reading the state does. *)
Theorem primaryGhostText_is_first_of_ghostTexts
    (env : Collaborators) (w : World) :
  snd (model_ghostTexts env w) = snd (state env w)
  /\ snd (model_primaryGhostText env w) = snd (state env w)
  /\ match fst (model_ghostTexts env w) with
     | Returns (Some gs) =>
         fst (model_primaryGhostText env w) = Returns (gs !! 0%nat)
         /\ exists st, fst (state env w) = Returns (Some st) /\ ghostTexts st = gs
     | Returns None =>
         fst (model_primaryGhostText env w) = Returns None
         /\ fst (state env w) = Returns None
     | Throws e =>
         fst (model_primaryGhostText env w) = Throws e
         /\ fst (state env w) = Throws e
     end.
Proof.
  unfold model_ghostTexts, model_primaryGhostText, bind.
  destruct (state env w) as [[[st|]|e] w1] eqn:Hst; simpl; auto.
  repeat split; eauto.
  f_equal. eapply state_primary_is_first, Hst.
Qed.

(* ===================================================================== *)
(** ** Further properties: references taken and released *)
(* ===================================================================== *)

Lemma refBalance_accept_call (r : nat) (completion : InlineCompletionItem) :
  refBalance r (acceptAddRef completion)
  = (if bool_decide (is_Some (command completion)
                     /\ listRef (source completion) = r) then 1 else 0)
  /\ refBalance r (acceptCommandCall completion) = 0.
Proof.
  unfold acceptAddRef, acceptCommandCall.
  destruct (command completion) as [c|]; cbn [app refBalance].
  - split; [|reflexivity].
    destruct (bool_decide_reflect (listRef (source completion) = r)) as [E|E].
    + rewrite (bool_decide_eq_true_2 (is_Some (Some c) /\ _)) by eauto. reflexivity.
    + rewrite (bool_decide_eq_false_2 (is_Some (Some c) /\ _))
        by (intros [_ H]; contradiction).
      reflexivity.
  - split; [|reflexivity].
    rewrite (bool_decide_eq_false_2 (is_Some None /\ _))
      by (intros [[x Hx] _]; discriminate).
    reflexivity.
Qed.

(** The references of a call of [_acceptNext], for a callback that answers
    without touching the world. *)
Lemma acceptNext_cleans_up (env : Collaborators) (editor : ICodeEditor)
    (cb : Position -> jsstring -> M Z) (w : World) (r : nat) :
  (forall pos text w0, exists idx, cb pos text w0 = (Returns idx, w0)) ->
  let w' := snd (_acceptNext env editor cb w) in
  (_isAcceptingPartially w = false -> _isAcceptingPartially w' = false)
  /\ (refBalance r (log w') = refBalance r (log w)
      \/ exists st g ic w1,
           guardPasses env editor w st g ic w1
           /\ is_Some (command (toInlineCompletion ic))
           /\ snippetInfo (toInlineCompletion ic) = None
           /\ filterText (toInlineCompletion ic) = insertText (toInlineCompletion ic)
           /\ arrayLength (parts g) = 1
           /\ r = listRef (source (toInlineCompletion ic))
           /\ _acceptNext env editor cb w = acceptUnawaited env editor w1
           /\ refBalance r (log w') = refBalance r (log w) + 1
           /\ refBalance r (log (snd (acceptPending env (toInlineCompletion ic) w')))
              = refBalance r (log w)).
Proof.
  intros Hcb w'. subst w'.
  destruct (modelDiffers editor (textModel w)) eqn:Hd.
  { unfold _acceptNext, bind, gets, throw. rewrite Hd. auto. }
  destruct (state env (add_log EvStateRead w)) as [res w1] eqn:Hst.
  pose proof (readsOnly_state env _ _ _ Hst) as Hw1.
  pose proof (idReset_log _ _ _ Hw1) as (Hlog & Hflag & _).
  assert (Hsame : forall res' : Result unit,
            _acceptNext env editor cb w = (res', w1) ->
            (_isAcceptingPartially w = false ->
             _isAcceptingPartially (snd (_acceptNext env editor cb w)) = false)
            /\ refBalance r (log (snd (_acceptNext env editor cb w)))
               = refBalance r (log w)).
  { intros res' ->. simpl. rewrite Hlog, refBalance_app. simpl.
    split; [now rewrite Hflag | lia]. }
  assert (Hgo : forall k : option State -> M unit,
    bind (gets textModel)
      (fun tm => if modelDiffers editor tm then throw BugIndicatingError
                 else bind (emit EvStateRead) (fun _ => bind (state env) k)) w
    = match res with
      | Returns st => k st w1
      | Throws e => (Throws e : Result unit, w1)
      end).
  { intros k. unfold bind at 1, gets at 1. rewrite Hd.
    unfold bind at 1, emit at 1, modify at 1.
    unfold bind at 1. rewrite Hst. now destruct res. }
  destruct res as [[st|]|e];
    [| destruct (Hsame (Returns tt)) as [H1 H2];
       [unfold _acceptNext; rewrite Hgo; reflexivity | auto]
     | destruct (Hsame (Throws e)) as [H1 H2];
       [unfold _acceptNext; rewrite Hgo; reflexivity | auto]].
  destruct (primaryGhostText st) as [g|] eqn:Hg;
    [| destruct (Hsame (Throws TypeError)) as [H1 H2];
       [unfold _acceptNext; rewrite Hgo, Hg; reflexivity | auto]].
  destruct (isEmpty g) eqn:He;
    [destruct (Hsame (Returns tt)) as [H1 H2];
       [unfold _acceptNext; rewrite Hgo, Hg, He; reflexivity | auto]|].
  destruct (inlineCompletion st) as [ic|] eqn:Hic;
    [| destruct (Hsame (Returns tt)) as [H1 H2];
       [unfold _acceptNext; rewrite Hgo, Hg, He, Hic; reflexivity | auto]].
  assert (Hguard : guardPasses env editor w st g ic w1)
    by (repeat split; assumption).
  set (completion := toInlineCompletion ic).
  destruct (parts g) as [|firstPart rest] eqn:Hparts.
  { (* no part to accept from: a fall-back, or a property read of undefined *)
    destruct (bool_decide (is_Some (snippetInfo completion))
              || negb (bool_decide (filterText completion = insertText completion)))
      eqn:Hwys.
    - assert (Hrun : _acceptNext env editor cb w = accept env editor w1).
      { unfold _acceptNext. rewrite Hgo, Hg, He, Hic. fold completion.
        now rewrite Hwys. }
      rewrite Hrun. destruct (accept_cleans_up env editor w1 r) as [Hb Hf].
      rewrite Hb, Hf, Hlog, refBalance_app. simpl.
      split; [now rewrite Hflag | left; lia].
    - destruct (Hsame (Throws TypeError)) as [H1 H2]; [|auto].
      unfold _acceptNext. rewrite Hgo, Hg, He, Hic. fold completion.
      now rewrite Hwys, Hparts. }
  destruct (Hcb (mkPosition (ghostLineNumber g) (partColumn firstPart))
              (partText firstPart) w1) as (idx & Hidx).
  destruct (acceptNext_run env editor cb w st g ic w1 firstPart rest idx
              Hguard Hparts Hidx) as (Hfull & Hboundary & Hpartial).
  fold completion in Hfull, Hboundary, Hpartial.
  destruct (fallsBackToAccept_dec completion g firstPart idx)
    as [[Hs | [Hf | [Hi Hl]]] | Hno].
  - (* awaited fall-back: a snippet *)
    rewrite (Hfull (or_introl Hs)).
    destruct (accept_cleans_up env editor w1 r) as [Hb Hf'].
    rewrite Hb, Hf', Hlog, refBalance_app. simpl.
    split; [now rewrite Hflag | left; lia].
  - (* awaited fall-back: filter text and insertion text differ *)
    rewrite (Hfull (or_intror Hf)).
    destruct (accept_cleans_up env editor w1 r) as [Hb Hf'].
    rewrite Hb, Hf', Hlog, refBalance_app. simpl.
    split; [now rewrite Hflag | left; lia].
  - (* the boundary: awaited or not *)
    destruct (snippetInfo completion) as [info|] eqn:Hsn.
    { rewrite (Hfull (or_introl (ex_intro _ info eq_refl))).
      destruct (accept_cleans_up env editor w1 r) as [Hb Hf'].
      rewrite Hb, Hf', Hlog, refBalance_app. simpl.
      split; [now rewrite Hflag | left; lia]. }
    destruct (decide (filterText completion = insertText completion)) as [Hft|Hft].
    2:{ rewrite (Hfull (or_intror Hft)).
        destruct (accept_cleans_up env editor w1 r) as [Hb Hf'].
        rewrite Hb, Hf', Hlog, refBalance_app. simpl.
        split; [now rewrite Hflag | left; lia]. }
    pose proof (Hboundary eq_refl Hft Hi Hl) as Hrun.
    pose proof (guardPasses_again _ _ _ _ _ _ _ Hguard) as Hagain.
    destruct (acceptUnawaited_run env editor w1 st g ic _ Hagain)
      as (wu & Hun & Hlogu & _ & _ & _ & _ & _ & Hpartu & Hpend & _).
    fold completion in Hlogu, Hpend.
    rewrite Hrun, Hun. simpl.
    split; [intros Hoff; congruence|].
    assert (Hbal : refBalance r (log wu)
                   = refBalance r (log w)
                     + if bool_decide (is_Some (command completion)
                                       /\ listRef (source completion) = r)
                       then 1 else 0).
    { destruct (refBalance_accept_call r completion) as [Hadd Hcall].
      rewrite Hlogu, Hlog, !refBalance_app, refBalance_acceptEditEvents.
      rewrite Hadd, Hcall. simpl. lia. }
    destruct (bool_decide_reflect (is_Some (command completion)
                                   /\ listRef (source completion) = r))
      as [[Hcmd Hr] | Hnot]; [right | left; lia].
    exists st, g, ic, w1. fold completion.
    split; [exact Hguard|]. split; [exact Hcmd|]. split; [exact Hsn|].
    split; [exact Hft|]. split; [exact Hl|]. split; [now symmetry|].
    split; [now rewrite Hun|]. split; [exact Hbal|].
    rewrite Hpend. destruct (accept_cleans_up env editor w1 r) as [Hb _].
    rewrite Hb, Hlog, refBalance_app. simpl. lia.
  - (* a partial accept *)
    destruct (Hpartial Hno)
      as (wp & edits & sels & -> & _ & Hlog' & _ & _ & _ & _ & _ & Hflag').
    simpl. rewrite Hlog', !refBalance_app. simpl.
    split; [intros _; exact Hflag'|]. left.
    destruct (providerHandlesPartialAccept (source completion));
      simpl; destruct (bool_decide (listRef (source completion) = r));
      lia.
Qed.

(** X8.  Every reference a call of [accept], [acceptNextWord] or
    [acceptNextLine] takes on a completion list is released again, and the
    "accepting partially" flag is not left set.  For [accept], and for the
    other two in all their ways but one (they throw, have nothing to accept,
    accept in part, or fall back to an awaited [accept]), the release has
    happened when the call returns.  The exception is the fall-back at the
    end of a single-part ghost text on a completion with a command: the call
    of [accept] is not awaited there, the method returns holding the
    reference, and the reference is released by what is pending, once the
    command has settled. *)
Theorem accept_methods_release_what_they_take
    (env : Collaborators) (editor : ICodeEditor) (w : World) (r : nat) :
  (refBalance r (log (snd (accept env editor w))) = refBalance r (log w)
   /\ _isAcceptingPartially (snd (accept env editor w)) = _isAcceptingPartially w)
  /\ (forall method : ICodeEditor -> M unit,
        method = acceptNextWord env \/ method = acceptNextLine env ->
        let w' := snd (method editor w) in
        (_isAcceptingPartially w = false -> _isAcceptingPartially w' = false)
        /\ (refBalance r (log w') = refBalance r (log w)
            \/ exists st g ic w1,
                 guardPasses env editor w st g ic w1
                 /\ is_Some (command (toInlineCompletion ic))
                 /\ snippetInfo (toInlineCompletion ic) = None
                 /\ filterText (toInlineCompletion ic)
                    = insertText (toInlineCompletion ic)
                 /\ arrayLength (parts g) = 1
                 /\ r = listRef (source (toInlineCompletion ic))
                 /\ method editor w = acceptUnawaited env editor w1
                 /\ refBalance r (log w') = refBalance r (log w) + 1
                 /\ refBalance r
                      (log (snd (acceptPending env (toInlineCompletion ic) w')))
                    = refBalance r (log w))).
Proof.
  split; [apply accept_cleans_up|].
  intros method [-> | ->];
    apply (acceptNext_cleans_up env editor _ w r);
    intros pos text w0; eexists; reflexivity.
Qed.

(** X8 at work: the candidate "hello world" carries a command; [acceptNextLine]
    finds no line feed, falls back without waiting, and returns right after
    the call of the command, the reference still held; what is pending
    settles the command and releases it. *)
Lemma acceptNextLine_returns_while_the_command_is_pending :
  let env := Scenario.collaborators None in
  let completion :=
    toInlineCompletion
      (Scenario.candidate "hello" (mkRange 1 1 1 1) "hello world"
         (Some (mkCommand (Js.str "notify") None))) in
  let run := acceptNextLine env Scenario.editor (Scenario.commandWorld "notify") in
  fst run = Returns tt
  /\ log (snd run)
     = [EvStateRead; EvStateRead; EvPushUndoStop;
        EvExecuteEdits inlineSuggestion_accept
          [replaceMove (mkRange 1 1 1 1) (Js.str "hello world")];
        EvSetSelections [Scenario.cursor 1 12] inlineCompletionAccept;
        EvAddRef 7;
        EvTransaction [WSourceClear; WSetActive false];
        EvExecuteCommand (Js.str "notify") []]
  /\ refBalance 7 (log (snd run)) = 1
  /\ log (snd (acceptPending env completion (snd run)))
     = log (snd run) ++ [EvCommandSettled Fulfilled; EvRemoveRef 7].
Proof.
  cbv zeta. repeat split; vm_compute; reflexivity.
Qed.
